(** * The xhal templated RPC layer: message (de)serialization

    A shallow embedding of [xhal/common/rpc/common.h] (classes [MessageBase],
    [MessageSerializer], [MessageDeserializer] and the free [serialize],
    [save] and [load] function templates), with the properties of the
    marshalling layer stated and proved over it.

    C++ types are mapped to Rocq types through a universe of shapes
    ([shape], [denote]); overload resolution and template dispatch become a
    [match] on the shape.  Unsigned machine integers are [Z] with the
    wrap-around written out; exceptions are an error result. *)

From stdpp Require Import base gmap list strings pretty.
From Stdlib Require Import ZArith Lia.
From Stdlib Require Strings.String Strings.Byte.

Local Open Scope Z_scope.

(** ** Machine integers and conversions *)

(** Conversion of an integer to [std::uint32_t] (also the arithmetic of
    [std::uint32_t]: results are reduced modulo [2^32]). *)
Definition to_u32 (z : Z) : Z := z mod 2 ^ 32.

(** Implicit conversion [std::uint32_t -> std::uint16_t]. *)
Definition to_u16 (z : Z) : Z := z mod 2 ^ 16.

(** Implicit conversion [std::uint32_t -> std::uint8_t]. *)
Definition to_u8 (z : Z) : Z := z mod 2 ^ 8.

(** Implicit conversion [std::uint32_t -> bool]: zero is [false], any other
    value is [true]. *)
Definition to_bool (z : Z) : bool := negb (z =? 0).

(** [static_cast<std::uint32_t>(b)] for a [bool]. *)
Definition u32_of_bool (b : bool) : Z := if b then 1 else 0.

(** [std::to_string] on a [std::uint32_t]: the decimal rendering. *)
Definition to_string (k : Z) : string := pretty k.

(** ** The message: [wisc::RPCMsg] *)

Module wisc.

(** Modelled from the spec: the exceptions of [wisc::RPCMsg], whose header
    [xhal/extern/wiscRPCMsg.h] is not among the sources.  The spec names
    the two failures of a read: the key is absent, or the slot stored
    under the key is of another kind than the one asked for. *)
Inductive error : Type :=
  | MissingKey
  | TypeMismatch.

Inductive res (A : Type) : Type :=
  | Ok (a : A)
  | Err (e : error).
Global Arguments Ok {A} a.
Global Arguments Err {A} e.

(** Modelled from the spec: the five slot kinds of a message. *)
Inductive slot : Type :=
  | Word (w : Z)
  | WordArray (ws : list Z)
  | Text (s : string)
  | TextArray (ss : list string)
  | BinaryData (bs : list Byte.byte).

(** Modelled from the spec: a message is a mapping from string keys to
    exactly one typed slot. *)
Abbreviation RPCMsg := (gmap string slot).

Definition set_word (key : string) (value : Z) (m : RPCMsg) : RPCMsg :=
  <[key := Word value]> m.
Definition set_word_array (key : string) (value : list Z) (m : RPCMsg) : RPCMsg :=
  <[key := WordArray value]> m.
Definition set_string (key : string) (value : string) (m : RPCMsg) : RPCMsg :=
  <[key := Text value]> m.
Definition set_string_array (key : string) (value : list string) (m : RPCMsg) : RPCMsg :=
  <[key := TextArray value]> m.
Definition set_binarydata (key : string) (data : list Byte.byte) (m : RPCMsg) : RPCMsg :=
  <[key := BinaryData data]> m.

Definition get_word (key : string) (m : RPCMsg) : res Z :=
  match m !! key with
  | None => Err MissingKey
  | Some (Word w) => Ok w
  | Some _ => Err TypeMismatch
  end.
Definition get_word_array (key : string) (m : RPCMsg) : res (list Z) :=
  match m !! key with
  | None => Err MissingKey
  | Some (WordArray ws) => Ok ws
  | Some _ => Err TypeMismatch
  end.
Definition get_string (key : string) (m : RPCMsg) : res string :=
  match m !! key with
  | None => Err MissingKey
  | Some (Text s) => Ok s
  | Some _ => Err TypeMismatch
  end.
Definition get_string_array (key : string) (m : RPCMsg) : res (list string) :=
  match m !! key with
  | None => Err MissingKey
  | Some (TextArray ss) => Ok ss
  | Some _ => Err TypeMismatch
  end.

(** Modelled from the spec: a binary blob is a fixed-length slot; reading
    it into a buffer of [bufsize] bytes succeeds when the stored blob has
    that length, and a blob of another length is not of the expected
    kind. *)
Definition get_binarydata (key : string) (bufsize : nat) (m : RPCMsg) : res (list Byte.byte) :=
  match m !! key with
  | None => Err MissingKey
  | Some (BinaryData bs) =>
      if decide (length bs = bufsize) then Ok bs else Err TypeMismatch
  | Some _ => Err TypeMismatch
  end.

End wisc.

Export wisc.

(** ** [MessageBase]: the key counter *)

(** [_keyIdx] is the index of the next free/unread key, a [std::uint32_t].
    [dispensed] is a ghost field, absent from the C++ class: it records, in
    order, the keys returned by [dispenseKey].  No function reads it; it is
    there to state properties of the key sequence. *)
Record MessageBase : Type := mkBase {
  _keyIdx : Z;
  dispensed : list Z
}.

(** A freshly constructed [MessageBase]: [_keyIdx = 0]. *)
Definition fresh : MessageBase := mkBase 0 [].

(** [dispenseKey() { return _keyIdx++; }] *)
Definition dispenseKey (b : MessageBase) : Z * MessageBase :=
  (_keyIdx b, mkBase (to_u32 (_keyIdx b + 1)) (dispensed b ++ [_keyIdx b])).

(** The allocator after [n] calls of [dispenseKey] on a fresh instance. *)
Definition after_calls (n : N) : MessageBase :=
  N.iter n (fun b => snd (dispenseKey b)) fresh.

(** The key returned by call number [n] (counted from zero). *)
Definition nth_key (n : N) : Z := fst (dispenseKey (after_calls n)).

(** ** Object representations

    [memcpy] and [set_binarydata] move the bytes of an object, so integral
    values and floats are given their object representation in the byte
    order of the host. *)

Inductive endianness : Type := LittleEndian | BigEndian.

Definition Z_of_byte (b : Byte.byte) : Z := Z.of_N (Byte.to_N b).

Definition byte_of_Z (z : Z) : Byte.byte :=
  match Byte.of_N (Z.to_N (z mod 256)) with
  | Some b => b
  | None => Byte.x00
  end.

(** The [n] low-order bytes of [z], least significant first. *)
Fixpoint le_bytes (n : nat) (z : Z) : list Byte.byte :=
  match n with
  | O => []
  | S n' => byte_of_Z z :: le_bytes n' (z / 256)
  end.

Fixpoint le_value (bs : list Byte.byte) : Z :=
  match bs with
  | [] => 0
  | b :: bs' => Z_of_byte b + 256 * le_value bs'
  end.

(** The bytes, at increasing addresses, of an unsigned integer of [size]
    bytes holding [z]. *)
Definition object_bytes (o : endianness) (size : nat) (z : Z) : list Byte.byte :=
  match o with
  | LittleEndian => le_bytes size z
  | BigEndian => rev (le_bytes size z)
  end.

(** The value of the unsigned integer whose bytes are [bs]. *)
Definition object_value (o : endianness) (bs : list Byte.byte) : Z :=
  match o with
  | LittleEndian => le_value bs
  | BigEndian => le_value (rev bs)
  end.

(** A [float] is its object representation: four bytes (IEEE 754 single
    precision, [sizeof(float) == 4]), at increasing addresses. *)
Record float : Type := mkFloat {
  float_b0 : Byte.byte;
  float_b1 : Byte.byte;
  float_b2 : Byte.byte;
  float_b3 : Byte.byte
}.

Definition float_bytes (f : float) : list Byte.byte :=
  [float_b0 f; float_b1 f; float_b2 f; float_b3 f].

Definition float_of_bytes (bs : list Byte.byte) : float :=
  match bs with
  | [b0; b1; b2; b3] => mkFloat b0 b1 b2 b3
  | _ => mkFloat Byte.x00 Byte.x00 Byte.x00 Byte.x00
  end.

(** The 32 value bits of a float, as a word, and back. *)
Definition bits_of_float (o : endianness) (f : float) : Z :=
  object_value o (float_bytes f).
Definition float_of_bits (o : endianness) (w : Z) : float :=
  float_of_bytes (object_bytes o 4 w).

(** The elements of an array of unsigned integers of [size] bytes, as the
    bytes of the array, and back ([n] elements). *)
Definition array_bytes (o : endianness) (size : nat) (elems : list Z) : list Byte.byte :=
  concat (map (object_bytes o size) elems).

Fixpoint array_of_bytes (o : endianness) (size n : nat) (bs : list Byte.byte) : list Z :=
  match n with
  | O => []
  | S n' => object_value o (firstn size bs) :: array_of_bytes o size n' (skipn size bs)
  end.

(** ** Shapes: the C++ types the layer transports *)

Inductive shape : Type :=
  | TUInt32                         (* std::uint32_t *)
  | TBool                           (* bool *)
  | TUInt8                          (* std::uint8_t *)
  | TUInt16                         (* std::uint16_t *)
  | TFloat                          (* float *)
  | TString                         (* std::string *)
  | TVector (t : shape)             (* std::vector<T> *)
  | TArray (t : shape) (n : nat)    (* std::array<T, N> *)
  | TMapU32 (t : shape)             (* std::map<std::uint32_t, T> *)
  | TMapString (t : shape)          (* std::map<std::string, T> *)
  | TTuple (ts : shapes)            (* std::tuple<Args...> *)
  | TStruct (ts : shapes)           (* a user type whose [serialize] does [msg & m1 & m2 ...] *)
with shapes : Type :=
  | SNil
  | SCons (t : shape) (ts : shapes).

(** The values of a shape.  A [std::map] is the list of its entries in
    iteration order, that is by increasing key ([wf] below); a
    [std::array<T, N>] is the list of its [N] elements. *)
Fixpoint denote (s : shape) : Type :=
  match s with
  | TUInt32 | TUInt8 | TUInt16 => Z
  | TBool => bool
  | TFloat => float
  | TString => string
  | TVector t => list (denote t)
  | TArray t _ => list (denote t)
  | TMapU32 t => list (Z * denote t)
  | TMapString t => list (string * denote t)
  | TTuple ts => denotes ts
  | TStruct ts => denotes ts
  end
with denotes (ts : shapes) : Type :=
  match ts with
  | SNil => unit
  | SCons t ts' => (denote t * denotes ts')%type
  end.

(** The element types [T] for which [std::is_integral<T>::value &&
    !is_bool<T>::value] holds, among the shapes: [sizeof(T)], and the
    elements seen as integers.  The overload takes every other integer type
    too (signed, 64-bit, [char]); [saveImpl_integral_array] and
    [loadImpl_integral_array] below have [sizeof(T)] as a parameter and are
    the overload for all of them. *)
Definition integral (t : shape) : option (nat * (denote t -> Z) * (Z -> denote t)) :=
  match t return option (nat * (denote t -> Z) * (Z -> denote t)) with
  | TUInt8 => Some (1%nat, fun z => z, fun z => z)
  | TUInt16 => Some (2%nat, fun z => z, fun z => z)
  | TUInt32 => Some (4%nat, fun z => z, fun z => z)
  | _ => None
  end.

(** [std::map::emplace]: insert at the position given by the order of the
    keys, unless an equivalent key is there. *)
Fixpoint emplace {K V : Type} (lt : K -> K -> bool) (key : K) (val : V)
    (m : list (K * V)) : list (K * V) :=
  match m with
  | [] => [(key, val)]
  | (k', v') :: m' =>
      if lt key k' then (key, val) :: m
      else if lt k' key then (k', v') :: emplace lt key val m'
      else m
  end.

(** ** [MessageSerializer] *)

Module MessageSerializer.
Record t : Type := mk {
    base : MessageBase;
    m_wiscMsg : RPCMsg
}.

(** [explicit MessageSerializer(wisc::RPCMsg *wiscMsg)] *)
Definition make (wiscMsg : RPCMsg) : t := mk fresh wiscMsg.
End MessageSerializer.

Module MessageDeserializer.
Record t : Type := mk {
    base : MessageBase;
    m_wiscMsg : RPCMsg
}.

(** [explicit MessageDeserializer(const wisc::RPCMsg *wiscMsg)] *)
Definition make (wiscMsg : RPCMsg) : t := mk fresh wiscMsg.
End MessageDeserializer.

(** A [void] member function of the serializer is a state transformer. *)
Definition Ser : Type := MessageSerializer.t -> MessageSerializer.t.

(** A member function of the deserializer returns a value or throws, and
    leaves a deserializer state in both cases.  The value is the object it
    was given to fill, taken as newly constructed, and an exception is seen
    alone: this is the load for a caller that drops the object when an
    exception arrives.  What a load does to an object that has content, and
    what it leaves in it when it throws, is in [InPlace] below. *)
Definition De (A : Type) : Type :=
  MessageDeserializer.t -> res A * MessageDeserializer.t.

Definition ret {A : Type} (a : A) : De A := fun D => (Ok a, D).

Definition bind {A B : Type} (c : De A) (k : A -> De B) : De B :=
  fun D =>
    match c D with
    | (Ok a, D') => k a D'
    | (Err e, D') => (Err e, D')
    end.

Notation "'let*' x ':=' c 'in' k" := (bind c (fun x => k))
  (at level 10, x name, c at level 100, k at level 200).

(** [saveImpl(const std::uint32_t value)] *)
Definition saveImpl_uint32 (value : Z) : Ser := fun S =>
  let (key, b) := dispenseKey (MessageSerializer.base S) in
  MessageSerializer.mk b (set_word (to_string key) value (MessageSerializer.m_wiscMsg S)).

(** [saveImpl(const std::vector<std::uint32_t> &value)] *)
Definition saveImpl_word_array (value : list Z) : Ser := fun S =>
  let (key, b) := dispenseKey (MessageSerializer.base S) in
  MessageSerializer.mk b (set_word_array (to_string key) value (MessageSerializer.m_wiscMsg S)).

(** [saveImpl(const std::string &value)] *)
Definition saveImpl_string (value : string) : Ser := fun S =>
  let (key, b) := dispenseKey (MessageSerializer.base S) in
  MessageSerializer.mk b (set_string (to_string key) value (MessageSerializer.m_wiscMsg S)).

(** [saveImpl(const std::vector<std::string> &value)] *)
Definition saveImpl_string_array (value : list string) : Ser := fun S =>
  let (key, b) := dispenseKey (MessageSerializer.base S) in
  MessageSerializer.mk b (set_string_array (to_string key) value (MessageSerializer.m_wiscMsg S)).

(** [saveImpl(const std::array<T, N> &value)], [T] integral and not [bool]:
    [set_binarydata(key, value.data(), N*sizeof(T))]. *)
Definition saveImpl_integral_array (o : endianness) (size : nat) (value : list Z) : Ser := fun S =>
  let (key, b) := dispenseKey (MessageSerializer.base S) in
  MessageSerializer.mk b
    (set_binarydata (to_string key) (array_bytes o size value) (MessageSerializer.m_wiscMsg S)).

(** [serialize(Message &msg, std::array<T, N> &value)] on a serializer:
    [for (auto & elem: value) msg & elem;] *)
Definition serialize_array_save {A : Type} (save_elem : A -> Ser) (value : list A) : Ser :=
  fun S => fold_left (fun S elem => save_elem elem S) value S.

(** [serialize(Message &msg, std::vector<T> &value)] on a serializer: the
    length, converted to [std::uint32_t], then [value[i]] for [i < length]. *)
Definition serialize_vector_save {A : Type} (save_elem : A -> Ser) (value : list A) : Ser :=
  fun S =>
    let length := to_u32 (Z.of_nat (List.length value)) in
    let S1 := saveImpl_uint32 length S in
    fold_left (fun S elem => save_elem elem S) (firstn (Z.to_nat length) value) S1.

(** The loop of [saveImpl(const std::map<K, T> &value)]: the keys are
    collected while the values are saved. *)
Definition saveImpl_map_loop {K A : Type} (save_elem : A -> Ser) (value : list (K * A))
    (S : MessageSerializer.t) : list K * MessageSerializer.t :=
  fold_left (fun '(keys, S') elem => (keys ++ [fst elem], save_elem (snd elem) S'))
    value ([], S).

(** [saveImpl(const std::map<std::uint32_t, T> &value)] *)
Definition saveImpl_map_uint32 {A : Type} (save_elem : A -> Ser) (value : list (Z * A)) : Ser :=
  fun S =>
    let (keysKey, b) := dispenseKey (MessageSerializer.base S) in
    let '(keys, S2) :=
      saveImpl_map_loop save_elem value (MessageSerializer.mk b (MessageSerializer.m_wiscMsg S)) in
    MessageSerializer.mk (MessageSerializer.base S2)
      (set_word_array (to_string keysKey) keys (MessageSerializer.m_wiscMsg S2)).

(** [saveImpl(const std::map<std::string, T> &value)] *)
Definition saveImpl_map_string {A : Type} (save_elem : A -> Ser) (value : list (string * A)) : Ser :=
  fun S =>
    let (keysKey, b) := dispenseKey (MessageSerializer.base S) in
    let '(keys, S2) :=
      saveImpl_map_loop save_elem value (MessageSerializer.mk b (MessageSerializer.m_wiscMsg S)) in
    MessageSerializer.mk (MessageSerializer.base S2)
      (set_string_array (to_string keysKey) keys (MessageSerializer.m_wiscMsg S2)).

(** [save(Message &msg, const float &value)]: [memcpy] of the four bytes
    into a [std::uint32_t]. *)
Definition save_float (o : endianness) (value : float) : Ser :=
  saveImpl_uint32 (bits_of_float o value).

(** [saveImpl]: the overload set of [MessageSerializer::saveImpl], resolved
    on the static type of the value.

    - [std::uint32_t], [std::string], [std::vector<std::uint32_t>],
      [std::vector<std::string>]: the non-template overloads;
    - [std::array<T, N>], [T] integral and not [bool]: the binary-data
      template overload, more specialized than the generic one;
    - [std::map]: the two map overloads;
    - [bool], [std::uint8_t], [std::uint16_t], [float]: the generic overload
      that calls the free [save], which widens to [std::uint32_t];
    - other [std::vector] and [std::array]: the generic overload that calls
      the free [serialize];
    - [std::tuple]: left to right. *)
Fixpoint saveImpl (o : endianness) (s : shape) : denote s -> Ser :=
  match s return denote s -> Ser with
  | TUInt32 => fun value => saveImpl_uint32 value
  | TBool => fun value => saveImpl_uint32 (u32_of_bool value)
  | TUInt8 => fun value => saveImpl_uint32 (to_u32 value)
  | TUInt16 => fun value => saveImpl_uint32 (to_u32 value)
  | TFloat => fun value => save_float o value
  | TString => fun value => saveImpl_string value
  | TVector t =>
      match t return (denote t -> Ser) -> list (denote t) -> Ser with
      | TUInt32 => fun _ value => saveImpl_word_array value
      | TString => fun _ value => saveImpl_string_array value
      | _ => fun save_elem value => serialize_vector_save save_elem value
      end (saveImpl o t)
  | TArray t n => fun value =>
      match integral t with
      | Some (size, to_Z, _) => saveImpl_integral_array o size (map to_Z value)
      | None => serialize_array_save (saveImpl o t) value
      end
  | TMapU32 t => fun value => saveImpl_map_uint32 (saveImpl o t) value
  | TMapString t => fun value => saveImpl_map_string (saveImpl o t) value
  | TTuple ts => fun args => saveImpl_tuple o ts args
  | TStruct ts => fun members => saveImpl_tuple o ts members
  end
with saveImpl_tuple (o : endianness) (ts : shapes) : denotes ts -> Ser :=
  match ts return denotes ts -> Ser with
  | SNil => fun _ S => S
  | SCons t ts' => fun args S => saveImpl_tuple o ts' (snd args) (saveImpl o t (fst args) S)
  end.

(** [saveImpl(const compat::void_holder<T> &holder)] and
    [saveImpl(compat::void_holder<void>)]: the result of a call, [None] for
    a call that returns [void]. *)
Definition void_holder (r : option shape) : Type :=
  match r with
  | Some s => denote s
  | None => unit
  end.

Definition saveImpl_void_holder (o : endianness) (r : option shape) : void_holder r -> Ser :=
  match r return void_holder r -> Ser with
  | Some s => fun holder => saveImpl o s holder
  | None => fun _ S => S
  end.

(** ** [MessageDeserializer] *)

(** [loadImpl(uint32_t &value)] *)
Definition loadImpl_uint32 : De Z := fun D =>
  let (key, b) := dispenseKey (MessageDeserializer.base D) in
  (get_word (to_string key) (MessageDeserializer.m_wiscMsg D),
   MessageDeserializer.mk b (MessageDeserializer.m_wiscMsg D)).

(** [loadImpl(std::vector<std::uint32_t> &value)] *)
Definition loadImpl_word_array : De (list Z) := fun D =>
  let (key, b) := dispenseKey (MessageDeserializer.base D) in
  (get_word_array (to_string key) (MessageDeserializer.m_wiscMsg D),
   MessageDeserializer.mk b (MessageDeserializer.m_wiscMsg D)).

(** [loadImpl(std::string &value)] *)
Definition loadImpl_string : De string := fun D =>
  let (key, b) := dispenseKey (MessageDeserializer.base D) in
  (get_string (to_string key) (MessageDeserializer.m_wiscMsg D),
   MessageDeserializer.mk b (MessageDeserializer.m_wiscMsg D)).

(** [loadImpl(std::vector<std::string> &value)] *)
Definition loadImpl_string_array : De (list string) := fun D =>
  let (key, b) := dispenseKey (MessageDeserializer.base D) in
  (get_string_array (to_string key) (MessageDeserializer.m_wiscMsg D),
   MessageDeserializer.mk b (MessageDeserializer.m_wiscMsg D)).

(** [loadImpl(std::array<T, N> &value)], [T] integral and not [bool]:
    [get_binarydata(key, value.data(), N*sizeof(T))]. *)
Definition loadImpl_integral_array (o : endianness) (size n : nat) : De (list Z) := fun D =>
  let (key, b) := dispenseKey (MessageDeserializer.base D) in
  (match get_binarydata (to_string key) (n * size) (MessageDeserializer.m_wiscMsg D) with
   | Ok bs => Ok (array_of_bytes o size n bs)
   | Err e => Err e
   end,
   MessageDeserializer.mk b (MessageDeserializer.m_wiscMsg D)).

(** [n] elements read one after the other: the loop of [serialize] on a
    deserializer, for [std::array<T, N>] and for a resized [std::vector<T>]. *)
Fixpoint load_elems {A : Type} (load_elem : De A) (n : nat) : De (list A) :=
  match n with
  | O => ret []
  | S n' =>
      let* elem := load_elem in
      let* elems := load_elems load_elem n' in
      ret (elem :: elems)
  end.

(** [serialize(Message &msg, std::array<T, N> &value)] on a deserializer. *)
Definition serialize_array_load {A : Type} (load_elem : De A) (n : nat) : De (list A) :=
  load_elems load_elem n.

(** [serialize(Message &msg, std::vector<T> &value)] on a deserializer: the
    length is read, the vector resized, the elements read. *)
Definition serialize_vector_load {A : Type} (load_elem : De A) : De (list A) :=
  let* length := loadImpl_uint32 in
  load_elems load_elem (Z.to_nat length).

(** The loop of [loadImpl(std::map<K, T> &value)]: for each key a value is
    read and the pair is emplaced ([value] is the map so far; the two
    overloads below start from an empty map, [InPlace] from the map of the
    caller). *)
Fixpoint loadImpl_map_loop {K A : Type} (lt : K -> K -> bool) (load_elem : De A)
    (keys : list K) (value : list (K * A)) : De (list (K * A)) :=
  match keys with
  | [] => ret value
  | key :: keys' =>
      let* val := load_elem in
      loadImpl_map_loop lt load_elem keys' (emplace lt key val value)
  end.

(** [loadImpl(std::map<std::uint32_t, T> &value)] *)
Definition loadImpl_map_uint32 {A : Type} (load_elem : De A) : De (list (Z * A)) :=
  let* keys := loadImpl_word_array in
  loadImpl_map_loop Z.ltb load_elem keys [].

(** [loadImpl(std::map<std::string, T> &value)] *)
Definition loadImpl_map_string {A : Type} (load_elem : De A) : De (list (string * A)) :=
  let* keys := loadImpl_string_array in
  loadImpl_map_loop String.ltb load_elem keys [].

(** [load(Message &msg, bool &value)] and its siblings: a word is read and
    converted to the narrow type by assignment. *)
Definition load_bool : De bool :=
  let* tmp := loadImpl_uint32 in ret (to_bool tmp).
Definition load_uint8 : De Z :=
  let* tmp := loadImpl_uint32 in ret (to_u8 tmp).
Definition load_uint16 : De Z :=
  let* tmp := loadImpl_uint32 in ret (to_u16 tmp).

(** [load(Message &msg, float &value)]: [memcpy] of the word into the four
    bytes of the float. *)
Definition load_float (o : endianness) : De float :=
  let* tmp := loadImpl_uint32 in ret (float_of_bits o tmp).

(** [loadImpl]: the overload set of [MessageDeserializer::loadImpl], resolved
    as [saveImpl] is. *)
Fixpoint loadImpl (o : endianness) (s : shape) : De (denote s) :=
  match s return De (denote s) with
  | TUInt32 => loadImpl_uint32
  | TBool => load_bool
  | TUInt8 => load_uint8
  | TUInt16 => load_uint16
  | TFloat => load_float o
  | TString => loadImpl_string
  | TVector t =>
      match t return De (denote t) -> De (list (denote t)) with
      | TUInt32 => fun _ => loadImpl_word_array
      | TString => fun _ => loadImpl_string_array
      | _ => fun load_elem => serialize_vector_load load_elem
      end (loadImpl o t)
  | TArray t n =>
      match integral t with
      | Some (size, _, of_Z) =>
          let* elems := loadImpl_integral_array o size n in ret (map of_Z elems)
      | None => serialize_array_load (loadImpl o t) n
      end
  | TMapU32 t => loadImpl_map_uint32 (loadImpl o t)
  | TMapString t => loadImpl_map_string (loadImpl o t)
  | TTuple ts => loadImpl_tuple o ts
  | TStruct ts => loadImpl_tuple o ts
  end
with loadImpl_tuple (o : endianness) (ts : shapes) : De (denotes ts) :=
  match ts return De (denotes ts) with
  | SNil => ret tt
  | SCons t ts' =>
      let* arg := loadImpl o t in
      let* args := loadImpl_tuple o ts' in
      ret (arg, args)
  end.

(** [loadImpl(compat::void_holder<T> &value)] and
    [loadImpl(compat::void_holder<void>)]. *)
Definition loadImpl_void_holder (o : endianness) (r : option shape) : De (void_holder r) :=
  match r return De (void_holder r) with
  | Some s => loadImpl o s
  | None => ret tt
  end.

(** ** Calls: arguments and result *)

(** The message produced by serializing [value] into an empty message with
    a new serializer ([MessageSerializer{&msg} << value]). *)
Definition serialize (o : endianness) (s : shape) (value : denote s) : RPCMsg :=
  MessageSerializer.m_wiscMsg (saveImpl o s value (MessageSerializer.make ∅)).

(** The value read from [msg] with a new deserializer
    ([MessageDeserializer{&msg} >> value]). *)
Definition deserialize (o : endianness) (s : shape) (msg : RPCMsg) : res (denote s) :=
  fst (loadImpl o s (MessageDeserializer.make msg)).

(** The keys allocated by these two passes. *)
Definition serialize_keys (o : endianness) (s : shape) (value : denote s) : list Z :=
  dispensed (MessageSerializer.base (saveImpl o s value (MessageSerializer.make ∅))).
Definition deserialize_keys (o : endianness) (s : shape) (msg : RPCMsg) : list Z :=
  dispensed (MessageDeserializer.base (snd (loadImpl o s (MessageDeserializer.make msg)))).

(** ** Well-formed values and the size of their encoding *)

(** Is [std::vector<T>] stored in one slot (a word array or a string array)
    rather than element by element? *)
Definition vector_slot (t : shape) : bool :=
  match t with
  | TUInt32 | TString => true
  | _ => false
  end.

Definition is_bool (t : shape) : bool :=
  match t with
  | TBool => true
  | _ => false
  end.

Definition in_range (bits : Z) (z : Z) : bool := (0 <=? z) && (z <? 2 ^ bits).

(** Every key is below all the keys that follow it. *)
Fixpoint increasing {K : Type} (lt : K -> K -> bool) (keys : list K) : bool :=
  match keys with
  | [] => true
  | k :: keys' => forallb (lt k) keys' && increasing lt keys'
  end.

(** The invariants that the C++ types give: integers are within the range
    of their type, a [std::array<T, N>] has [N] elements, the keys of a
    [std::map] are distinct and come in increasing order.
    [std::vector<bool>] is left out: its [operator[]] returns a proxy, which
    [operator&(T &)] of the deserializer does not accept. *)
Fixpoint wf (s : shape) : denote s -> bool :=
  match s return denote s -> bool with
  | TUInt32 => fun v => in_range 32 v
  | TUInt8 => fun v => in_range 8 v
  | TUInt16 => fun v => in_range 16 v
  | TBool => fun _ => true
  | TFloat => fun _ => true
  | TString => fun _ => true
  | TVector t => fun v => negb (is_bool t) && forallb (wf t) v
  | TArray t n => fun v => (List.length v =? n)%nat && forallb (wf t) v
  | TMapU32 t => fun v =>
      forallb (in_range 32) (map fst v) && increasing Z.ltb (map fst v)
      && forallb (fun e => wf t (snd e)) v
  | TMapString t => fun v =>
      increasing String.ltb (map fst v) && forallb (fun e => wf t (snd e)) v
  | TTuple ts => wf_tuple ts
  | TStruct ts => wf_tuple ts
  end
with wf_tuple (ts : shapes) : denotes ts -> bool :=
  match ts return denotes ts -> bool with
  | SNil => fun _ => true
  | SCons t ts' => fun v => wf t (fst v) && wf_tuple ts' (snd v)
  end.

(** Every vector that is stored element by element has a length that a
    [std::uint32_t] holds. *)
Fixpoint short (s : shape) : denote s -> bool :=
  match s return denote s -> bool with
  | TUInt32 | TUInt8 | TUInt16 => fun _ => true
  | TBool => fun _ => true
  | TFloat => fun _ => true
  | TString => fun _ => true
  | TVector t => fun v =>
      vector_slot t || ((Z.of_nat (List.length v) <? 2 ^ 32) && forallb (short t) v)
  | TArray t _ => fun v => forallb (short t) v
  | TMapU32 t => fun v => forallb (fun e => short t (snd e)) v
  | TMapString t => fun v => forallb (fun e => short t (snd e)) v
  | TTuple ts => short_tuple ts
  | TStruct ts => short_tuple ts
  end
with short_tuple (ts : shapes) : denotes ts -> bool :=
  match ts return denotes ts -> bool with
  | SNil => fun _ => true
  | SCons t ts' => fun v => short t (fst v) && short_tuple ts' (snd v)
  end.

Definition sumZ (l : list Z) : Z := fold_right Z.add 0 l.

(** The number of slots of the encoding of a value. *)
Fixpoint nkeys (s : shape) : denote s -> Z :=
  match s return denote s -> Z with
  | TUInt32 | TUInt8 | TUInt16 => fun _ => 1
  | TBool => fun _ => 1
  | TFloat => fun _ => 1
  | TString => fun _ => 1
  | TVector t => fun v =>
      if vector_slot t then 1 else 1 + sumZ (map (nkeys t) v)
  | TArray t _ => fun v =>
      match integral t with
      | Some _ => 1
      | None => sumZ (map (nkeys t) v)
      end
  | TMapU32 t => fun v => 1 + sumZ (map (fun e => nkeys t (snd e)) v)
  | TMapString t => fun v => 1 + sumZ (map (fun e => nkeys t (snd e)) v)
  | TTuple ts => nkeys_tuple ts
  | TStruct ts => nkeys_tuple ts
  end
with nkeys_tuple (ts : shapes) : denotes ts -> Z :=
  match ts return denotes ts -> Z with
  | SNil => fun _ => 0
  | SCons t ts' => fun v => nkeys t (fst v) + nkeys_tuple ts' (snd v)
  end.

(** The value as the serializer writes it: of a vector written element by
    element, the elements that the length converted to [std::uint32_t]
    announces. *)
Fixpoint stored (s : shape) : denote s -> denote s :=
  match s return denote s -> denote s with
  | TUInt32 | TUInt8 | TUInt16 => fun v => v
  | TBool => fun v => v
  | TFloat => fun v => v
  | TString => fun v => v
  | TVector t => fun v =>
      if vector_slot t then v
      else map (stored t) (firstn (Z.to_nat (to_u32 (Z.of_nat (List.length v)))) v)
  | TArray t _ => fun v => map (stored t) v
  | TMapU32 t => fun v => map (fun e => (fst e, stored t (snd e))) v
  | TMapString t => fun v => map (fun e => (fst e, stored t (snd e))) v
  | TTuple ts => stored_tuple ts
  | TStruct ts => stored_tuple ts
  end
with stored_tuple (ts : shapes) : denotes ts -> denotes ts :=
  match ts return denotes ts -> denotes ts with
  | SNil => fun v => v
  | SCons t ts' => fun v => (stored t (fst v), stored_tuple ts' (snd v))
  end.

(** The number of slots that serializing a value writes. *)
Definition slots (s : shape) (v : denote s) : Z := nkeys s (stored s v).

(** A value fits a message when it is well formed, its vectors are short and
    its encoding needs at most [2^32] slots, the number of distinct keys. *)
Definition fits (s : shape) (v : denote s) : bool :=
  wf s v && short s v && (nkeys s v <=? 2 ^ 32).

Local Abbreviation sbase := MessageSerializer.base.
Local Abbreviation smsg := MessageSerializer.m_wiscMsg.
Local Abbreviation dbase := MessageDeserializer.base.
Local Abbreviation dmsg := MessageDeserializer.m_wiscMsg.

(** ** Concatenation of argument lists *)

Fixpoint sapp (ts1 ts2 : shapes) : shapes :=
  match ts1 with
  | SNil => ts2
  | SCons t ts1' => SCons t (sapp ts1' ts2)
  end.

Fixpoint vapp (ts1 ts2 : shapes) : denotes ts1 -> denotes ts2 -> denotes (sapp ts1 ts2) :=
  match ts1 return denotes ts1 -> denotes ts2 -> denotes (sapp ts1 ts2) with
  | SNil => fun _ v2 => v2
  | SCons t ts1' => fun v1 v2 => (fst v1, vapp ts1' ts2 (snd v1) v2)
  end.

(** The [std::map] built from keys and values read in this order. *)
Definition emplace_all {K A : Type} (lt : K -> K -> bool) (keys : list K) (vals : list A)
    (value : list (K * A)) : list (K * A) :=
  fold_left (fun m e => emplace lt (fst e) (snd e) m) (zip keys vals) value.

(** ** The example call of the specification *)

Definition example_args : shapes :=
  SCons TUInt32 (SCons (TVector TUInt32) (SCons TString SNil)).

Definition example_value : denotes example_args :=
  (42, ([1; 2; 3], ("oh0"%string, tt))).

(** ** Predicates used to state the properties

    The encoding of one value: what a save leaves and what a load finds.

    [enc_ok sv ld v n]: from any serializer state with [n] keys left,
    [sv] allocates the next [n] keys, writes no slot but theirs, and [ld],
    run at the same key index on any message that has these [n] slots,
    returns [v], allocates the same keys and leaves the message alone. *)

Definition agree (m1 m2 : RPCMsg) (k n : Z) : Prop :=
  forall j, k <= j < k + n -> m1 !! to_string j = m2 !! to_string j.

Definition enc_ok {A : Type} (sv : Ser) (ld : De A) (v : A) (n : Z) : Prop :=
  0 <= n /\
  forall S : MessageSerializer.t,
    0 <= _keyIdx (sbase S) < 2 ^ 32 ->
    _keyIdx (sbase S) + n <= 2 ^ 32 ->
    _keyIdx (sbase (sv S)) = to_u32 (_keyIdx (sbase S) + n) /\
    dispensed (sbase (sv S)) = dispensed (sbase S) ++ seqZ (_keyIdx (sbase S)) n /\
    (forall key : string,
        (forall j, _keyIdx (sbase S) <= j < _keyIdx (sbase S) + n -> to_string j <> key) ->
        smsg (sv S) !! key = smsg S !! key) /\
    forall D : MessageDeserializer.t,
      _keyIdx (dbase D) = _keyIdx (sbase S) ->
      agree (dmsg D) (smsg (sv S)) (_keyIdx (sbase S)) n ->
      ld D = (Ok v,
              MessageDeserializer.mk
                (mkBase (to_u32 (_keyIdx (sbase S) + n))
                        (dispensed (dbase D) ++ seqZ (_keyIdx (sbase S)) n))
                (dmsg D)).

(** What [sv] does to the key counter depends on the counter alone, and
    the keys it allocates are added after those allocated before. *)
Definition base_only (sv : Ser) : Prop :=
  (forall S1 S2, sbase S1 = sbase S2 -> sbase (sv S1) = sbase (sv S2)) /\
  (forall S, exists rest, dispensed (sbase (sv S)) = dispensed (sbase S) ++ rest).

(** ** Example values *)

Definition nested_shape : shape :=
  TTuple (SCons (TVector (TMapString (TArray TUInt16 2)))
         (SCons (TMapU32 (TVector TUInt32))
         (SCons (TArray TBool 2) (SCons TFloat (SCons TUInt8 SNil))))).

Definition nested_value : denote nested_shape :=
  ([[("a"%string, [0; 65535]); ("b"%string, [1; 2])]; []],
   ([(0, []); (4294967295, [0; 4294967295])],
    ([true; false],
     (mkFloat Byte.x00 Byte.x00 Byte.x80 Byte.xbf, (255, tt))))).

Definition wrap_args : shapes := SCons (TVector TUInt8) (SCons TString SNil).

Definition wrap_value (n : nat) : denotes wrap_args := (repeat 0 n, ("x"%string, tt)).

(** [ld] leaves the message of the deserializer as it found it. *)
Definition msg_kept {A : Type} (ld : De A) : Prop :=
  forall D, dmsg (snd (ld D)) = dmsg D.

(** ** Induction on shapes and argument lists together *)

Scheme shape_mut := Induction for shape Sort Prop
  with shapes_mut := Induction for shapes Sort Prop.
Combined Scheme shape_shapes_ind from shape_mut, shapes_mut.

(** ** Further predicates

    The keys that [n] calls of [dispenseKey] return from key index [k]. *)
Definition next_keys (k : Z) (n : nat) : list Z :=
  map (fun i => to_u32 (k + Z.of_nat i)) (seq 0 n).

(** The keys that [sv] allocates when run from [S]. *)
Definition allocated_by (sv : Ser) (S : MessageSerializer.t) : list Z :=
  skipn (List.length (dispensed (sbase S))) (dispensed (sbase (sv S))).

(** [sv] allocates consecutive keys, writes no slot but theirs, and leaves
    a slot under each of them. *)
Definition save_tidy (sv : Ser) : Prop :=
  forall S : MessageSerializer.t,
    0 <= _keyIdx (sbase S) < 2 ^ 32 ->
    exists n : nat,
      sbase (sv S)
      = mkBase (to_u32 (_keyIdx (sbase S) + Z.of_nat n))
               (dispensed (sbase S) ++ next_keys (_keyIdx (sbase S)) n) /\
      (forall key : string,
          ~ In key (map to_string (next_keys (_keyIdx (sbase S)) n)) ->
          smsg (sv S) !! key = smsg S !! key) /\
      (forall key : string,
          In key (map to_string (next_keys (_keyIdx (sbase S)) n)) ->
          is_Some (smsg (sv S) !! key)).

(** [ld] allocates consecutive keys, whether it returns or throws. *)
Definition load_tidy {A : Type} (ld : De A) : Prop :=
  forall D : MessageDeserializer.t,
    0 <= _keyIdx (dbase D) < 2 ^ 32 ->
    exists n : nat,
      dbase (snd (ld D))
      = mkBase (to_u32 (_keyIdx (dbase D) + Z.of_nat n))
               (dispensed (dbase D) ++ next_keys (_keyIdx (dbase D)) n).

(** Running [sv] on a message that has more slots gives the same result
    with these slots below the ones [sv] writes. *)
Definition overlays (sv : Ser) : Prop :=
  forall (b : MessageBase) (m m0 : RPCMsg),
    sv (MessageSerializer.mk b (m ∪ m0))
    = MessageSerializer.mk (sbase (sv (MessageSerializer.mk b m)))
        (smsg (sv (MessageSerializer.mk b m)) ∪ m0).

(** ** The first slot a load reads *)

Inductive slot_kind : Type := KWord | KWordArray | KText | KTextArray | KBinaryData.

#[global] Instance slot_kind_eq_dec : EqDecision slot_kind.
Proof. solve_decision. Defined.

Definition kind_of (sl : slot) : slot_kind :=
  match sl with
  | Word _ => KWord
  | WordArray _ => KWordArray
  | Text _ => KText
  | TextArray _ => KTextArray
  | BinaryData _ => KBinaryData
  end.

(** The kind of the slot that [loadImpl] asks the message for first;
    [None] for the shapes that are read without any slot: the empty tuple,
    an array of no element, and what is made of them. *)
Fixpoint first_kind (s : shape) : option slot_kind :=
  match s with
  | TUInt32 | TBool | TUInt8 | TUInt16 | TFloat => Some KWord
  | TString => Some KText
  | TVector t =>
      Some match t with
           | TUInt32 => KWordArray
           | TString => KTextArray
           | _ => KWord
           end
  | TArray t n =>
      match integral t with
      | Some _ => Some KBinaryData
      | None => match n with O => None | S _ => first_kind t end
      end
  | TMapU32 _ => Some KWordArray
  | TMapString _ => Some KTextArray
  | TTuple ts => first_kind_tuple ts
  | TStruct ts => first_kind_tuple ts
  end
with first_kind_tuple (ts : shapes) : option slot_kind :=
  match ts with
  | SNil => None
  | SCons t ts' =>
      match first_kind t with
      | Some k => Some k
      | None => first_kind_tuple ts'
      end
  end.

(** The exception of a getter that asks for a slot of kind [k] and finds
    [found] under the key; [None] when the kind is the one asked for. *)
Definition read_error (k : slot_kind) (found : option slot) : option error :=
  match found with
  | None => Some MissingKey
  | Some sl => if decide (kind_of sl = k) then None else Some TypeMismatch
  end.

(** The deserializer after one call of [dispenseKey]. *)
Definition after_one_key (D : MessageDeserializer.t) : MessageDeserializer.t :=
  MessageDeserializer.mk (snd (dispenseKey (dbase D))) (dmsg D).


(** The value that a list of pairs has for [key]: that of the first pair
    with this key.  On the entries of a [std::map] this is [find]; on the
    keys and values of a message it is the first value sent for the key. *)
Fixpoint first_value {K V : Type} `{EqDecision K} (key : K) (m : list (K * V)) : option V :=
  match m with
  | [] => None
  | (k, v) :: m' => if decide (key = k) then Some v else first_value key m'
  end.

(** A message that holds a [std::map<std::uint32_t, std::uint32_t>] whose
    key 5 was sent twice, with the values 10 and 30. *)
Definition repeated_key_msg : RPCMsg :=
  <["0"%string := WordArray [5; 3; 5]]>
    (<["1"%string := Word 10]> (<["2"%string := Word 20]> (<["3"%string := Word 30]> ∅))).

(** The shapes a [MessageDeserializer] can be applied to: every shape but
    those with a [std::vector<bool>] inside, whose elements are proxies that
    [operator&(T &)] does not bind to. *)
Fixpoint supported (s : shape) : bool :=
  match s with
  | TUInt32 | TBool | TUInt8 | TUInt16 | TFloat | TString => true
  | TVector t => negb (is_bool t) && supported t
  | TArray t _ => supported t
  | TMapU32 t => supported t
  | TMapString t => supported t
  | TTuple ts => supported_tuple ts
  | TStruct ts => supported_tuple ts
  end
with supported_tuple (ts : shapes) : bool :=
  match ts with
  | SNil => true
  | SCons t ts' => supported t && supported_tuple ts'
  end.

(** The words of a message are [std::uint32_t]. *)
Definition slot_ok (sl : slot) : bool :=
  match sl with
  | Word w => in_range 32 w
  | WordArray ws => forallb (in_range 32) ws
  | Text _ | TextArray _ | BinaryData _ => true
  end.

Definition msg_ok (m : RPCMsg) : bool :=
  forallb (fun entry => slot_ok (snd entry)) (map_to_list m).

(** Whatever [ld] returns from a message of [std::uint32_t] words
    satisfies [P]. *)
Definition yields {A : Type} (P : A -> Prop) (ld : De A) : Prop :=
  forall D v D', msg_ok (dmsg D) = true -> ld D = (Ok v, D') -> P v.

(** [n] arguments of type [T], and a sequence seen as that many
    arguments. *)
Fixpoint copies (t : shape) (n : nat) : shapes :=
  match n with
  | O => SNil
  | S n' => SCons t (copies t n')
  end.

Fixpoint as_args (t : shape) (l : list (denote t)) : denotes (copies t (List.length l)) :=
  match l return denotes (copies t (List.length l)) with
  | [] => tt
  | x :: l' => (x, as_args t l')
  end.

Fixpoint of_args (t : shape) (n : nat) : denotes (copies t n) -> list (denote t) :=
  match n return denotes (copies t n) -> list (denote t) with
  | O => fun _ => []
  | S n' => fun args => fst args :: of_args t n' (snd args)
  end.

(** ** Byte order *)

Definition other (o : endianness) : endianness :=
  match o with
  | LittleEndian => BigEndian
  | BigEndian => LittleEndian
  end.

(** The unsigned integer of [size] bytes whose bytes are those of [z] in
    the reverse order. *)
Definition swap_bytes (size : nat) (z : Z) : Z := le_value (rev (le_bytes size z)).

(** The shapes that hold no [float] and no array of integers of more than
    one byte: the two places where the bytes of an object are moved. *)
Fixpoint byte_order_free (s : shape) : bool :=
  match s with
  | TUInt32 | TBool | TUInt8 | TUInt16 | TString => true
  | TFloat => false
  | TVector t => byte_order_free t
  | TArray t _ =>
      match t with
      | TUInt16 | TUInt32 => false
      | _ => byte_order_free t
      end
  | TMapU32 t => byte_order_free t
  | TMapString t => byte_order_free t
  | TTuple ts => byte_order_free_tuple ts
  | TStruct ts => byte_order_free_tuple ts
  end
with byte_order_free_tuple (ts : shapes) : bool :=
  match ts with
  | SNil => true
  | SCons t ts' => byte_order_free t && byte_order_free_tuple ts'
  end.

(** A shape that [byte_order_free] accepts. *)
Definition nested_byte_shape : shape :=
  TTuple (SCons (TVector (TMapString (TArray TUInt8 2)))
         (SCons (TMapU32 (TVector TUInt32))
         (SCons (TArray TBool 2) (SCons TUInt16 SNil)))).

(** ** Loading in place

    [loadImpl] takes the object to fill by reference and writes it as it
    goes; an exception of a getter leaves the object as written so far.
    [loadImpl] above is the load as seen by a caller who passes a newly
    constructed object and drops it when an exception arrives.  Here the
    object is part of the state: a load is given the object as the caller
    holds it and gives it back as the load left it, with the exception if
    one was thrown. *)

(** [T()]: the value of a newly constructed object, as [resize] makes the
    new elements of a vector.  [T val;] in the loop over a map leaves a
    scalar without a value; it is assigned before it is read, or dropped. *)
Fixpoint value_init (s : shape) : denote s :=
  match s return denote s with
  | TUInt32 | TUInt8 | TUInt16 => 0
  | TBool => false
  | TFloat => mkFloat Byte.x00 Byte.x00 Byte.x00 Byte.x00
  | TString => String.EmptyString
  | TVector _ => []
  | TArray t n => repeat (value_init t) n
  | TMapU32 _ => []
  | TMapString _ => []
  | TTuple ts => value_init_tuple ts
  | TStruct ts => value_init_tuple ts
  end
with value_init_tuple (ts : shapes) : denotes ts :=
  match ts return denotes ts with
  | SNil => tt
  | SCons t ts' => (value_init t, value_init_tuple ts')
  end.

Module InPlace.

(** A member function that fills [value]: [None] when it returns, the
    exception when it throws; the object and the deserializer as they are
    left in both cases. *)
Definition Ld (A : Type) : Type :=
  A -> MessageDeserializer.t -> option error * A * MessageDeserializer.t.

(** [value = m_wiscMsg->get_...(std::to_string(dispenseKey()))]: the key is
    allocated, the getter returns or throws, and [value] is assigned when
    it returned. *)
Definition assign {A : Type} (get : string -> RPCMsg -> res A) : Ld A := fun value D =>
  let (key, b) := dispenseKey (dbase D) in
  match get (to_string key) (dmsg D) with
  | Ok a => (None, a, MessageDeserializer.mk b (dmsg D))
  | Err e => (Some e, value, MessageDeserializer.mk b (dmsg D))
  end.

(** [loadImpl(uint32_t &value)] and the three other non-template overloads. *)
Definition loadImpl_uint32 : Ld Z := assign get_word.
Definition loadImpl_word_array : Ld (list Z) := assign get_word_array.
Definition loadImpl_string : Ld string := assign get_string.
Definition loadImpl_string_array : Ld (list string) := assign get_string_array.

(** [loadImpl(std::array<T, N> &value)], [T] integral and not [bool]:
    [get_binarydata(key, value.data(), N*sizeof(T))].
    Modelled from the spec: a getter that throws has written nothing into
    the buffer it was given. *)
Definition loadImpl_integral_array (o : endianness) (size n : nat) : Ld (list Z) :=
  assign (fun key m =>
            match get_binarydata key (n * size) m with
            | Ok bs => Ok (array_of_bytes o size n bs)
            | Err e => Err e
            end).

(** [load(Message &msg, bool &value)] and its siblings:
    [std::uint32_t tmp; msg >> tmp; value = tmp;]. *)
Definition load_as {A : Type} (conv : Z -> A) : Ld A := fun value D =>
  match loadImpl_uint32 0 D with
  | (None, tmp, D') => (None, conv tmp, D')
  | (Some e, _, D') => (Some e, value, D')
  end.

Definition load_bool : Ld bool := load_as to_bool.
Definition load_uint8 : Ld Z := load_as to_u8.
Definition load_uint16 : Ld Z := load_as to_u16.
Definition load_float (o : endianness) : Ld float := load_as (float_of_bits o).

(** [for (auto & elem: value) msg & elem;] and
    [for (i = 0; i < length; ++i) msg & value[i];]: the elements are
    loaded where they are, one after the other. *)
Fixpoint load_elems {A : Type} (load_elem : Ld A) (value : list A)
    (D : MessageDeserializer.t) : option error * list A * MessageDeserializer.t :=
  match value with
  | [] => (None, [], D)
  | elem :: rest =>
      match load_elem elem D with
      | (None, elem', D1) =>
          match load_elems load_elem rest D1 with
          | (r, rest', D2) => (r, elem' :: rest', D2)
          end
      | (Some e, elem', D1) => (Some e, elem' :: rest, D1)
      end
  end.

(** [serialize(Message &msg, std::array<T, N> &value)] on a deserializer. *)
Definition serialize_array {A : Type} (load_elem : Ld A) : Ld (list A) :=
  load_elems load_elem.

(** [serialize(Message &msg, std::vector<T> &value)] on a deserializer:
    [length] starts as [value.size()], is loaded, the vector is resized to
    it and its elements are loaded. *)
Definition serialize_vector {A : Type} (init : A) (load_elem : Ld A) : Ld (list A) :=
  fun value D =>
    match loadImpl_uint32 (to_u32 (Z.of_nat (List.length value))) D with
    | (None, length, D1) => load_elems load_elem (resize (Z.to_nat length) init value) D1
    | (Some e, _, D1) => (Some e, value, D1)
    end.

(** The loop of [loadImpl(std::map<K, T> &value)]: [T val;] is loaded and
    emplaced into the map of the caller, which is not cleared. *)
Fixpoint loadImpl_map_loop {K A : Type} (lt : K -> K -> bool) (init : A) (load_elem : Ld A)
    (keys : list K) (value : list (K * A)) (D : MessageDeserializer.t) :
    option error * list (K * A) * MessageDeserializer.t :=
  match keys with
  | [] => (None, value, D)
  | key :: keys' =>
      match load_elem init D with
      | (None, val, D1) =>
          loadImpl_map_loop lt init load_elem keys' (emplace lt key val value) D1
      | (Some e, _, D1) => (Some e, value, D1)
      end
  end.

(** [loadImpl(std::map<std::uint32_t, T> &value)] *)
Definition loadImpl_map_uint32 {A : Type} (init : A) (load_elem : Ld A) : Ld (list (Z * A)) :=
  fun value D =>
    match loadImpl_word_array [] D with
    | (None, keys, D1) => loadImpl_map_loop Z.ltb init load_elem keys value D1
    | (Some e, _, D1) => (Some e, value, D1)
    end.

(** [loadImpl(std::map<std::string, T> &value)] *)
Definition loadImpl_map_string {A : Type} (init : A) (load_elem : Ld A) :
    Ld (list (string * A)) :=
  fun value D =>
    match loadImpl_string_array [] D with
    | (None, keys, D1) => loadImpl_map_loop String.ltb init load_elem keys value D1
    | (Some e, _, D1) => (Some e, value, D1)
    end.

(** The overload set of [MessageDeserializer::loadImpl], resolved as above. *)
Fixpoint loadImpl (o : endianness) (s : shape) : Ld (denote s) :=
  match s return Ld (denote s) with
  | TUInt32 => loadImpl_uint32
  | TBool => load_bool
  | TUInt8 => load_uint8
  | TUInt16 => load_uint16
  | TFloat => load_float o
  | TString => loadImpl_string
  | TVector t =>
      match t return Ld (denote t) -> denote t -> Ld (list (denote t)) with
      | TUInt32 => fun _ _ => loadImpl_word_array
      | TString => fun _ _ => loadImpl_string_array
      | _ => fun load_elem init => serialize_vector init load_elem
      end (loadImpl o t) (value_init t)
  | TArray t n =>
      match integral t with
      | Some (size, to_Z, of_Z) => fun value D =>
          match loadImpl_integral_array o size n (map to_Z value) D with
          | (r, elems, D') => (r, map of_Z elems, D')
          end
      | None => serialize_array (loadImpl o t)
      end
  | TMapU32 t => loadImpl_map_uint32 (value_init t) (loadImpl o t)
  | TMapString t => loadImpl_map_string (value_init t) (loadImpl o t)
  | TTuple ts => loadImpl_tuple o ts
  | TStruct ts => loadImpl_tuple o ts
  end
with loadImpl_tuple (o : endianness) (ts : shapes) : Ld (denotes ts) :=
  match ts return Ld (denotes ts) with
  | SNil => fun args D => (None, args, D)
  | SCons t ts' => fun args D =>
      match loadImpl o t (fst args) D with
      | (None, arg, D1) =>
          match loadImpl_tuple o ts' (snd args) D1 with
          | (r, rest, D2) => (r, (arg, rest), D2)
          end
      | (Some e, arg, D1) => (Some e, (arg, snd args), D1)
      end
  end.

(** [loadImpl(compat::void_holder<T> &value)]: [loadImpl(value.get())];
    [loadImpl(compat::void_holder<void>)] does nothing. *)
Definition loadImpl_void_holder (o : endianness) (r : option shape) : Ld (void_holder r) :=
  match r return Ld (void_holder r) with
  | Some s => loadImpl o s
  | None => fun value D => (None, value, D)
  end.

End InPlace.

(** What the caller of a load in place gets when it drops the object on an
    exception. *)
Definition returned {A : Type}
    (x : option error * A * MessageDeserializer.t) : res A * MessageDeserializer.t :=
  match x with
  | (None, value, D) => (Ok value, D)
  | (Some e, _, D) => (Err e, D)
  end.

(** An object as it is when newly constructed, as far as a load can tell:
    its maps are empty (and its arrays have their declared length, as the
    type has it). *)
Fixpoint clean (s : shape) : denote s -> bool :=
  match s return denote s -> bool with
  | TUInt32 | TUInt8 | TUInt16 => fun _ => true
  | TBool => fun _ => true
  | TFloat => fun _ => true
  | TString => fun _ => true
  | TVector t => fun v => forallb (clean t) v
  | TArray t n => fun v => (List.length v =? n)%nat && forallb (clean t) v
  | TMapU32 _ => fun v => match v with [] => true | _ => false end
  | TMapString _ => fun v => match v with [] => true | _ => false end
  | TTuple ts => clean_tuple ts
  | TStruct ts => clean_tuple ts
  end
with clean_tuple (ts : shapes) : denotes ts -> bool :=
  match ts return denotes ts -> bool with
  | SNil => fun _ => true
  | SCons t ts' => fun v => clean t (fst v) && clean_tuple ts' (snd v)
  end.

(** Every argument of the list was loaded in place, in order, without an
    exception: [args] is the tuple before, [args'] after. *)
Fixpoint args_filled (o : endianness) (ts : shapes) :
    denotes ts -> denotes ts -> MessageDeserializer.t -> MessageDeserializer.t -> Prop :=
  match ts return denotes ts -> denotes ts ->
                  MessageDeserializer.t -> MessageDeserializer.t -> Prop with
  | SNil => fun _ _ D D' => D' = D
  | SCons t ts' => fun args args' D D' =>
      exists D1, InPlace.loadImpl o t (fst args) D = (None, fst args', D1) /\
                 args_filled o ts' (snd args) (snd args') D1 D'
  end.

(** The load of one argument threw [e]: the arguments before it were loaded
    in place, in order, this one is as its load left it, and those after it
    are as the caller had them. *)
Fixpoint args_filled_until (o : endianness) (ts : shapes) (e : error) :
    denotes ts -> denotes ts -> MessageDeserializer.t -> MessageDeserializer.t -> Prop :=
  match ts return denotes ts -> denotes ts ->
                  MessageDeserializer.t -> MessageDeserializer.t -> Prop with
  | SNil => fun _ _ _ _ => False
  | SCons t ts' => fun args args' D D' =>
      (InPlace.loadImpl o t (fst args) D = (Some e, fst args', D') /\ snd args' = snd args) \/
      (exists D1, InPlace.loadImpl o t (fst args) D = (None, fst args', D1) /\
                  args_filled_until o ts' e (snd args) (snd args') D1 D')
  end.

(** The values [vals] were loaded one after the other, each into a new
    object, without an exception. *)
Fixpoint vals_loaded {A : Type} (init : A) (load_elem : InPlace.Ld A) (vals : list A)
    (D D' : MessageDeserializer.t) : Prop :=
  match vals with
  | [] => D' = D
  | val :: vals' =>
      exists D1, load_elem init D = (None, val, D1) /\ vals_loaded init load_elem vals' D1 D'
  end.

(** The elements [olds] were loaded in place, in order, without an
    exception, and became [news]. *)
Fixpoint elems_filled {A : Type} (load_elem : InPlace.Ld A) (olds news : list A)
    (D D' : MessageDeserializer.t) : Prop :=
  match olds, news with
  | [], [] => D' = D
  | old :: olds', new :: news' =>
      exists D1, load_elem old D = (None, new, D1) /\ elems_filled load_elem olds' news' D1 D'
  | _, _ => False
  end.

(** The load of one element threw [e]: the elements before it were loaded
    in place, this one is as its load left it, the elements after it are as
    they were. *)
Definition elems_filled_until {A : Type} (load_elem : InPlace.Ld A) (e : error)
    (value value' : list A) (D D' : MessageDeserializer.t) : Prop :=
  exists olds news old new rest D1,
    value = olds ++ old :: rest /\ value' = news ++ new :: rest /\
    elems_filled load_elem olds news D D1 /\
    load_elem old D1 = (Some e, new, D').

(** A value was loaded for every key, in order, and the pairs were emplaced
    into the map as the caller had it. *)
Definition entries_loaded {K A : Type} (lt : K -> K -> bool) (init : A)
    (load_elem : InPlace.Ld A) (keys : list K) (value value' : list (K * A))
    (D D' : MessageDeserializer.t) : Prop :=
  exists vals,
    List.length vals = List.length keys /\
    vals_loaded init load_elem vals D D' /\
    value' = emplace_all lt keys vals value.

(** The load of the value of one key threw [e]: the values of the keys
    before it are in the map, no other. *)
Definition entries_loaded_until {K A : Type} (lt : K -> K -> bool) (init : A)
    (load_elem : InPlace.Ld A) (e : error) (keys : list K) (value value' : list (K * A))
    (D D' : MessageDeserializer.t) : Prop :=
  exists vals D2 val',
    (List.length vals < List.length keys)%nat /\
    vals_loaded init load_elem vals D D2 /\
    load_elem init D2 = (Some e, val', D') /\
    value' = emplace_all lt keys vals value.
(** * Properties *)

(** ** Keys as strings *)

Lemma to_string_inj (j k : Z) : to_string j = to_string k -> j = k.
Proof. unfold to_string. apply pretty_Z_inj. Qed.

Lemma to_u32_small (z : Z) : 0 <= z < 2 ^ 32 -> to_u32 z = z.
Proof. intros H. unfold to_u32. now apply Z.mod_small. Qed.

Lemma sumZ_nonneg (l : list Z) : Forall (fun z => 0 <= z) l -> 0 <= sumZ l.
Proof.
  induction 1 as [|z l Hz _ IH]; [reflexivity|].
  change (sumZ (z :: l)) with (z + sumZ l). lia.
Qed.

(** ** The encoding of one value *)

Lemma enc_ok_ext {A : Type} (sv sv' : Ser) (ld ld' : De A) (v v' : A) (n n' : Z) :
  (forall S, sv S = sv' S) -> (forall D, ld D = ld' D) -> v = v' -> n = n' ->
  enc_ok sv ld v n -> enc_ok sv' ld' v' n'.
Proof.
  intros Hs Hl <- <- [Hn H]. split; [exact Hn|].
  intros S H0 H1. rewrite <- Hs.
  destruct (H S H0 H1) as (E1 & E2 & E3 & E4).
  repeat split; try assumption.
  intros D HD HA. rewrite <- Hl. now apply E4.
Qed.

(** To prove [enc_ok] of a save and a load from [H], an [enc_ok] of others:
    what is left is that the two saves, the two loads, the values and the
    numbers of keys agree. *)
Tactic Notation "enc_ok_from" uconstr(H) :=
  refine (enc_ok_ext _ _ _ _ _ _ _ _ _ _ _ _ H).

Lemma enc_ok_ret {A : Type} (v : A) : enc_ok (fun S => S) (ret v) v 0.
Proof.
  split; [lia|]. intros S H0 H1. rewrite Z.add_0_r.
  rewrite to_u32_small by lia. cbn [seqZ]. rewrite seqZ_nil by lia.
  rewrite !app_nil_r. repeat split.
  intros D HD _. unfold ret. rewrite <- HD, app_nil_r. now destruct D as [[? ?] ?].
Qed.

Lemma enc_ok_bind {A B : Type} (sv1 sv2 : Ser) (ld1 : De A) (k : A -> De B)
    (a : A) (b : B) (n1 n2 : Z) :
  enc_ok sv1 ld1 a n1 -> enc_ok sv2 (k a) b n2 ->
  enc_ok (fun S => sv2 (sv1 S)) (bind ld1 k) b (n1 + n2).
Proof.
  intros [Hn1 H1] [Hn2 H2]. split; [lia|].
  intros S H0 Hle. set (k0 := _keyIdx (sbase S)) in *.
  destruct (H1 S) as (E1 & E2 & E3 & E4); [assumption|lia|]. fold k0 in H0, E1, E2, E3, E4.
  assert (Hk1 : _keyIdx (sbase (sv1 S)) = k0 + n1 /\ k0 + n1 < 2 ^ 32 \/
                _keyIdx (sbase (sv1 S)) = 0 /\ k0 + n1 = 2 ^ 32 /\ n2 = 0).
  { rewrite E1. destruct (decide (k0 + n1 < 2 ^ 32)) as [Hlt|Hge].
    - left. split; [apply to_u32_small|]; lia.
    - right. assert (k0 + n1 = 2 ^ 32) as -> by lia. split; [reflexivity|lia]. }
  destruct (H2 (sv1 S)) as (F1 & F2 & F3 & F4); [lia|lia|].
  assert (Hseq : seqZ (_keyIdx (sbase (sv1 S))) n2 = seqZ (k0 + n1) n2).
  { destruct Hk1 as [[-> _]|(_ & _ & ->)]; [reflexivity|]. now rewrite !seqZ_nil by lia. }
  assert (Hidx : to_u32 (_keyIdx (sbase (sv1 S)) + n2) = to_u32 (k0 + (n1 + n2))).
  { destruct Hk1 as [[-> _]|(-> & Hk & ->)]; [f_equal; lia|].
    rewrite !Z.add_0_r, Hk. reflexivity. }
  assert (Hfr : forall j, k0 <= j < k0 + n1 ->
                  forall j', _keyIdx (sbase (sv1 S)) <= j' < _keyIdx (sbase (sv1 S)) + n2 ->
                  to_string j' <> to_string j).
  { intros j Hj j' Hj' Heq. apply to_string_inj in Heq. lia. }
  repeat split.
  - now rewrite F1, Hidx.
  - rewrite F2, E2, Hseq, seqZ_app, app_assoc by lia. reflexivity.
  - intros key Hkey. rewrite F3, E3; [reflexivity| |].
    + intros j Hj. apply Hkey. lia.
    + intros j Hj. apply Hkey. lia.
  - intros D HD HA. unfold bind.
    rewrite (E4 D HD).
    2:{ intros j Hj. rewrite HA by lia. apply F3. intros j' Hj'. now apply Hfr. }
    rewrite F4.
    + cbn [dbase dmsg MessageDeserializer.base MessageDeserializer.m_wiscMsg dispensed].
      rewrite Hidx, Hseq, seqZ_app, app_assoc by lia. reflexivity.
    + cbn. now rewrite E1.
    + cbn. intros j Hj. apply HA. lia.
Qed.

Lemma enc_ok_fmap {A B : Type} (f : A -> B) (sv : Ser) (ld : De A) (v : A) (n : Z) :
  enc_ok sv ld v n -> enc_ok sv (bind ld (fun x => ret (f x))) (f v) n.
Proof.
  intros H.
  enc_ok_from
            (enc_ok_bind _ _ _ _ _ _ _ _ H (enc_ok_ret (f v)));
    [reflexivity|reflexivity|reflexivity|lia].
Qed.

(** A slot whose key is allocated first and which is written after
    [sv_rest] has run: the shape of every slot write ([sv_rest] does nothing)
    and of the key list of a [std::map]. *)
Lemma enc_ok_slot_then {A B : Type} (sl : slot) (get : string -> RPCMsg -> res A) (a : A)
    (sv_rest : Ser) (k : A -> De B) (b : B) (n : Z) :
  (forall key m, m !! key = Some sl -> get key m = Ok a) ->
  enc_ok sv_rest (k a) b n ->
  enc_ok
    (fun S =>
       let (key, bs) := dispenseKey (sbase S) in
       let S2 := sv_rest (MessageSerializer.mk bs (smsg S)) in
       MessageSerializer.mk (sbase S2) (<[to_string key := sl]> (smsg S2)))
    (bind
       (fun D =>
          let (key, bd) := dispenseKey (dbase D) in
          (get (to_string key) (dmsg D), MessageDeserializer.mk bd (dmsg D)))
       k)
    b (1 + n).
Proof.
  intros Hget [Hn H]. split; [lia|].
  intros S H0 Hle. set (k0 := _keyIdx (sbase S)) in *.
  cbn [dispenseKey]. fold k0.
  set (k1 := to_u32 (k0 + 1)).
  set (S1 := MessageSerializer.mk (mkBase k1 (dispensed (sbase S) ++ [k0])) (smsg S)).
  assert (Hk1 : k1 = k0 + 1 /\ k0 + 1 < 2 ^ 32 \/ k1 = 0 /\ k0 + 1 = 2 ^ 32 /\ n = 0).
  { subst k1. destruct (decide (k0 + 1 < 2 ^ 32)) as [Hlt|Hge].
    - left. split; [apply to_u32_small|]; lia.
    - right. assert (k0 + 1 = 2 ^ 32) as -> by lia. split; [reflexivity|lia]. }
  assert (Ek1 : to_u32 (k0 + 1) = k1) by reflexivity. clearbody k1.
  destruct (H S1) as (G1 & G2 & G3 & G4); [cbn; lia|cbn; lia|].
  cbn [S1 sbase smsg MessageSerializer.base MessageSerializer.m_wiscMsg _keyIdx dispensed]
    in G1, G2, G3, G4.
  assert (Hseq : [k0] ++ seqZ k1 n = seqZ k0 (1 + n)).
  { rewrite (seqZ_app k0 1 n) by lia.
    destruct Hk1 as [[-> _]|(_ & _ & ->)]; [reflexivity|]. now rewrite !seqZ_nil by lia. }
  assert (Hidx : to_u32 (k1 + n) = to_u32 (k0 + (1 + n))).
  { destruct Hk1 as [[-> _]|(-> & Hk & ->)]; [f_equal; lia|].
    rewrite !Z.add_0_r, Hk. reflexivity. }
  assert (Hne : forall j, k1 <= j < k1 + n -> to_string k0 <> to_string j).
  { intros j Hj Heq. apply to_string_inj in Heq. lia. }
  cbn [sbase smsg MessageSerializer.base MessageSerializer.m_wiscMsg].
  repeat split.
  - now rewrite G1, Hidx.
  - rewrite G2. now rewrite <- app_assoc, Hseq.
  - intros key Hkey. rewrite lookup_insert_ne by (apply Hkey; lia).
    rewrite G3; [reflexivity|]. intros j Hj. apply Hkey. lia.
  - intros D HD HA. unfold bind. cbn [dispenseKey]. rewrite HD. fold k0. rewrite Ek1.
    rewrite (Hget (to_string k0) (dmsg D)).
    2:{ rewrite HA by lia. cbn. apply lookup_insert_eq. }
    rewrite G4.
    + cbn [dbase dmsg MessageDeserializer.base MessageDeserializer.m_wiscMsg dispensed].
      now rewrite Hidx, <- app_assoc, Hseq.
    + reflexivity.
    + cbn [dmsg MessageDeserializer.m_wiscMsg]. intros j Hj. rewrite HA by lia. cbn.
      apply lookup_insert_ne. now apply Hne.
Qed.

Lemma bind_ret_r {A : Type} (c : De A) (D : MessageDeserializer.t) :
  bind c (fun x => ret x) D = c D.
Proof. unfold bind, ret. now destruct (c D) as [[a|e] D']. Qed.

(** One slot, written at once. *)
Lemma enc_ok_slot {A : Type} (sl : slot) (get : string -> RPCMsg -> res A) (a : A) :
  (forall key m, m !! key = Some sl -> get key m = Ok a) ->
  enc_ok
    (fun S =>
       let (key, bs) := dispenseKey (sbase S) in
       MessageSerializer.mk bs (<[to_string key := sl]> (smsg S)))
    (fun D =>
       let (key, bd) := dispenseKey (dbase D) in
       (get (to_string key) (dmsg D), MessageDeserializer.mk bd (dmsg D)))
    a 1.
Proof.
  intros Hget.
  enc_ok_from
            (enc_ok_slot_then sl get a (fun S => S) (fun x => ret x) a 0 Hget (enc_ok_ret a));
    [reflexivity| |reflexivity|reflexivity].
  intros D. unfold bind, ret. cbn [dispenseKey]. now destruct (get _ _).
Qed.

Lemma enc_ok_uint32 (value : Z) : enc_ok (saveImpl_uint32 value) loadImpl_uint32 value 1.
Proof.
  apply (enc_ok_slot (Word value) get_word). intros key m H.
  unfold get_word. now rewrite H.
Qed.

Lemma enc_ok_word_array (value : list Z) :
  enc_ok (saveImpl_word_array value) loadImpl_word_array value 1.
Proof.
  apply (enc_ok_slot (WordArray value) get_word_array). intros key m H.
  unfold get_word_array. now rewrite H.
Qed.

Lemma enc_ok_string (value : string) : enc_ok (saveImpl_string value) loadImpl_string value 1.
Proof.
  apply (enc_ok_slot (Text value) get_string). intros key m H.
  unfold get_string. now rewrite H.
Qed.

Lemma enc_ok_string_array (value : list string) :
  enc_ok (saveImpl_string_array value) loadImpl_string_array value 1.
Proof.
  apply (enc_ok_slot (TextArray value) get_string_array). intros key m H.
  unfold get_string_array. now rewrite H.
Qed.

(** ** Object representations *)

Lemma Z_of_byte_range (b : Byte.byte) : 0 <= Z_of_byte b < 256.
Proof. unfold Z_of_byte. pose proof (Byte.to_N_bounded b). lia. Qed.

Lemma byte_of_Z_of_byte (b : Byte.byte) : byte_of_Z (Z_of_byte b) = b.
Proof.
  unfold byte_of_Z. rewrite Z.mod_small by apply Z_of_byte_range.
  unfold Z_of_byte. now rewrite N2Z.id, Byte.of_to_N.
Qed.

Lemma Z_of_byte_of_Z (z : Z) : Z_of_byte (byte_of_Z z) = z mod 256.
Proof.
  unfold byte_of_Z, Z_of_byte.
  assert (Hr : 0 <= z mod 256 < 256) by (apply Z.mod_pos_bound; lia).
  destruct (Byte.of_N (Z.to_N (z mod 256))) as [b|] eqn:E.
  - apply Byte.to_of_N in E. rewrite E. lia.
  - apply Byte.of_N_None_iff in E. lia.
Qed.

Lemma length_le_bytes (n : nat) (z : Z) : List.length (le_bytes n z) = n.
Proof. revert z. induction n as [|n IH]; intros z; cbn; [reflexivity|]. now rewrite IH. Qed.

Lemma le_value_le_bytes (n : nat) (z : Z) :
  le_value (le_bytes n z) = z mod 256 ^ Z.of_nat n.
Proof.
  revert z. induction n as [|n IH]; intros z.
  - cbn. now rewrite Z.mod_1_r.
  - cbn [le_bytes le_value]. rewrite IH, Z_of_byte_of_Z.
    rewrite Nat2Z.inj_succ, Z.pow_succ_r by lia.
    rewrite (Z.rem_mul_r z 256 (256 ^ Z.of_nat n)) by lia. reflexivity.
Qed.

Lemma le_bytes_le_value (bs : list Byte.byte) :
  le_bytes (List.length bs) (le_value bs) = bs.
Proof.
  induction bs as [|b bs IH]; [reflexivity|].
  cbn [List.length le_bytes le_value]. pose proof (Z_of_byte_range b) as Hb. f_equal.
  - unfold byte_of_Z. rewrite (Z.mul_comm 256 (le_value bs)), Z.mod_add by lia.
    fold (byte_of_Z (Z_of_byte b)). apply byte_of_Z_of_byte.
  - rewrite (Z.mul_comm 256 (le_value bs)), Z.div_add by lia.
    rewrite Z.div_small, Z.add_0_l by lia. exact IH.
Qed.

Lemma length_object_bytes (o : endianness) (n : nat) (z : Z) :
  List.length (object_bytes o n z) = n.
Proof. destruct o; cbn; rewrite ?length_rev; apply length_le_bytes. Qed.

Lemma object_value_bytes (o : endianness) (n : nat) (z : Z) :
  object_value o (object_bytes o n z) = z mod 256 ^ Z.of_nat n.
Proof. destruct o; cbn; rewrite ?rev_involutive; apply le_value_le_bytes. Qed.

Lemma object_bytes_value (o : endianness) (bs : list Byte.byte) :
  object_bytes o (List.length bs) (object_value o bs) = bs.
Proof.
  destruct o; cbn; [apply le_bytes_le_value|].
  rewrite <- (length_rev bs), le_bytes_le_value. apply rev_involutive.
Qed.

Lemma le_value_range (bs : list Byte.byte) :
  0 <= le_value bs < 256 ^ Z.of_nat (List.length bs).
Proof.
  induction bs as [|b bs IH]; [cbn; lia|].
  cbn [List.length le_value]. pose proof (Z_of_byte_range b).
  rewrite Nat2Z.inj_succ, Z.pow_succ_r by lia. lia.
Qed.

Lemma float_of_bits_of_float (o : endianness) (f : float) :
  float_of_bits o (bits_of_float o f) = f.
Proof.
  unfold float_of_bits, bits_of_float.
  change 4%nat with (List.length (float_bytes f)).
  rewrite object_bytes_value. now destruct f.
Qed.

Lemma bits_of_float_range (o : endianness) (f : float) :
  0 <= bits_of_float o f < 2 ^ 32.
Proof.
  unfold bits_of_float, object_value.
  destruct o; [pose proof (le_value_range (float_bytes f))
              |pose proof (le_value_range (rev (float_bytes f)))];
    cbn [List.length float_bytes rev app] in *; lia.
Qed.

Lemma bits_of_float_of_bits (o : endianness) (w : Z) :
  0 <= w < 2 ^ 32 -> bits_of_float o (float_of_bits o w) = w.
Proof.
  intros Hw. unfold float_of_bits, bits_of_float.
  pose proof (length_object_bytes o 4 w) as Hlen.
  pose proof (object_value_bytes o 4 w) as Hval.
  destruct (object_bytes o 4 w) as [|b0 [|b1 [|b2 [|b3 [|b4 bs]]]]]; try discriminate Hlen.
  cbn [float_of_bytes]. unfold float_bytes.
  cbn [float_b0 float_b1 float_b2 float_b3].
  rewrite Hval. apply Z.mod_small. cbn. lia.
Qed.

Lemma array_of_bytes_array_bytes (o : endianness) (size : nat) (elems : list Z) :
  Forall (fun z => 0 <= z < 256 ^ Z.of_nat size) elems ->
  array_of_bytes o size (List.length elems) (array_bytes o size elems) = elems.
Proof.
  induction 1 as [|z elems Hz _ IH]; [reflexivity|].
  cbn [List.length array_of_bytes]. unfold array_bytes in *. cbn [map concat].
  rewrite take_app_length' by (symmetry; apply length_object_bytes).
  rewrite drop_app_length' by (symmetry; apply length_object_bytes).
  rewrite IH, object_value_bytes, Z.mod_small by assumption. reflexivity.
Qed.

Lemma length_array_bytes (o : endianness) (size : nat) (elems : list Z) :
  List.length (array_bytes o size elems) = (List.length elems * size)%nat.
Proof.
  induction elems as [|z elems IH]; [reflexivity|].
  unfold array_bytes in *. cbn [map concat List.length].
  rewrite length_app, length_object_bytes, IH. lia.
Qed.

Lemma enc_ok_integral_array (o : endianness) (size : nat) (value : list Z) :
  Forall (fun z => 0 <= z < 256 ^ Z.of_nat size) value ->
  enc_ok (saveImpl_integral_array o size value)
         (loadImpl_integral_array o size (List.length value)) value 1.
Proof.
  intros Hv.
  apply (enc_ok_slot (BinaryData (array_bytes o size value))
           (fun key m =>
              match get_binarydata key (List.length value * size) m with
              | Ok bs => Ok (array_of_bytes o size (List.length value) bs)
              | Err e => Err e
              end)).
  intros key m H. unfold get_binarydata. rewrite H.
  rewrite decide_True by apply length_array_bytes.
  now rewrite array_of_bytes_array_bytes.
Qed.

(** ** Loops *)

Lemma enc_ok_elems {A : Type} (save_elem : A -> Ser) (load_elem : De A) (n : A -> Z)
    (value : list A) :
  Forall (fun elem => enc_ok (save_elem elem) load_elem elem (n elem)) value ->
  enc_ok (fun S => fold_left (fun S elem => save_elem elem S) value S)
         (load_elems load_elem (List.length value)) value (sumZ (map n value)).
Proof.
  induction 1 as [|elem value Helem _ IH].
  - apply enc_ok_ret.
  - cbn [fold_left List.length load_elems map].
    change (sumZ (n elem :: map n value)) with (n elem + sumZ (map n value)).
    apply (enc_ok_bind _ _ _ _ _ _ _ _ Helem).
    apply (enc_ok_fmap (cons elem) _ _ _ _ IH).
Qed.

Lemma saveImpl_map_loop_eq {K A : Type} (save_elem : A -> Ser) (value : list (K * A))
    (S : MessageSerializer.t) :
  saveImpl_map_loop save_elem value S =
  (map fst value, fold_left (fun S elem => save_elem (snd elem) S) value S).
Proof.
  unfold saveImpl_map_loop.
  enough (H : forall keys,
             fold_left (fun '(keys, S') elem => (keys ++ [fst elem], save_elem (snd elem) S'))
               value (keys, S) =
             (keys ++ map fst value, fold_left (fun S elem => save_elem (snd elem) S) value S))
    by apply (H []).
  revert S. induction value as [|elem value IH]; intros S keys; cbn [fold_left map].
  - now rewrite app_nil_r.
  - rewrite IH, <- app_assoc. reflexivity.
Qed.

Lemma emplace_last {K V : Type} (lt : K -> K -> bool) (key : K) (val : V) (m : list (K * V)) :
  (forall a b, lt a b = true -> lt b a = false) ->
  Forall (fun k => lt k key = true) (map fst m) ->
  emplace lt key val m = m ++ [(key, val)].
Proof.
  intros Hasym. induction m as [|[k' v'] m IH]; intros Hm; [reflexivity|].
  cbn [map fst] in Hm. apply Forall_cons in Hm as [Hk Hm].
  cbn [emplace app]. rewrite (Hasym _ _ Hk), Hk, IH by assumption. reflexivity.
Qed.

Lemma increasing_cons {K : Type} (lt : K -> K -> bool) (k : K) (keys : list K) :
  increasing lt (k :: keys) = true ->
  Forall (fun k' => lt k k' = true) keys /\ increasing lt keys = true.
Proof.
  cbn [increasing]. intros [H1 H2]%andb_prop. split; [|assumption].
  apply Forall_forall. intros k' Hk'. apply (proj1 (forallb_forall _ _) H1).
  now apply list_elem_of_In.
Qed.

Lemma enc_ok_map_loop {K A : Type} (lt : K -> K -> bool) (save_elem : A -> Ser)
    (load_elem : De A) (n : A -> Z) (value acc : list (K * A)) :
  (forall a b, lt a b = true -> lt b a = false) ->
  Forall (fun e => enc_ok (save_elem (snd e)) load_elem (snd e) (n (snd e))) value ->
  increasing lt (map fst value) = true ->
  Forall (fun k => Forall (fun k' => lt k k' = true) (map fst value)) (map fst acc) ->
  enc_ok (fun S => fold_left (fun S elem => save_elem (snd elem) S) value S)
         (loadImpl_map_loop lt load_elem (map fst value) acc)
         (acc ++ value) (sumZ (map (fun e => n (snd e)) value)).
Proof.
  intros Hasym Hv. revert acc. induction Hv as [|[k v] value Helem _ IH]; intros acc Hinc Hacc.
  - rewrite app_nil_r. apply enc_ok_ret.
  - cbn [map fst snd fold_left loadImpl_map_loop] in *.
    change (sumZ (n v :: map (fun e => n (snd e)) value))
      with (n v + sumZ (map (fun e => n (snd e)) value)).
    apply increasing_cons in Hinc as [Hk Hinc].
    apply (enc_ok_bind _ _ _ _ _ _ _ _ Helem).
    rewrite emplace_last.
    + replace (acc ++ (k, v) :: value) with ((acc ++ [(k, v)]) ++ value)
        by now rewrite <- app_assoc.
      apply IH; [assumption|].
      rewrite map_app. apply Forall_app. split.
      * eapply Forall_impl; [exact Hacc|]. intros k0 Hk0. now apply Forall_cons in Hk0.
      * cbn. now constructor.
    + assumption.
    + eapply Forall_impl; [exact Hacc|]. intros k0 Hk0. now apply Forall_cons in Hk0.
Qed.

Lemma Z_ltb_asym (a b : Z) : (a <? b) = true -> (b <? a) = false.
Proof. lia. Qed.

Lemma String_ltb_asym (a b : string) : String.ltb a b = true -> String.ltb b a = false.
Proof.
  unfold String.ltb. rewrite (String.compare_antisym a b).
  now destruct (String.compare b a).
Qed.

Lemma enc_ok_vector {A : Type} (save_elem : A -> Ser) (load_elem : De A) (n : A -> Z)
    (value : list A) :
  Z.of_nat (List.length value) < 2 ^ 32 ->
  Forall (fun elem => enc_ok (save_elem elem) load_elem elem (n elem)) value ->
  enc_ok (serialize_vector_save save_elem value) (serialize_vector_load load_elem)
         value (1 + sumZ (map n value)).
Proof.
  intros Hlen Hv.
  assert (Hl : to_u32 (Z.of_nat (List.length value)) = Z.of_nat (List.length value))
    by (apply to_u32_small; lia).
  enc_ok_from
            (enc_ok_bind _ _ _
               (fun length => load_elems load_elem (Z.to_nat length)) _ _ _ _
               (enc_ok_uint32 (Z.of_nat (List.length value))) _);
    [| reflexivity | reflexivity | reflexivity |].
  - intros S. unfold serialize_vector_save. cbv zeta.
    rewrite Hl, Nat2Z.id, firstn_all. reflexivity.
  - cbv beta. rewrite Nat2Z.id. now apply enc_ok_elems.
Qed.

Lemma enc_ok_map_uint32 {A : Type} (save_elem : A -> Ser) (load_elem : De A) (n : A -> Z)
    (value : list (Z * A)) :
  Forall (fun e => enc_ok (save_elem (snd e)) load_elem (snd e) (n (snd e))) value ->
  increasing Z.ltb (map fst value) = true ->
  enc_ok (saveImpl_map_uint32 save_elem value) (loadImpl_map_uint32 load_elem)
         value (1 + sumZ (map (fun e => n (snd e)) value)).
Proof.
  intros Hv Hinc.
  enc_ok_from
            (enc_ok_slot_then (WordArray (map fst value)) get_word_array (map fst value)
               _ (fun keys => loadImpl_map_loop Z.ltb load_elem keys []) value _ _
               (enc_ok_map_loop Z.ltb save_elem load_elem n value [] Z_ltb_asym Hv Hinc _));
    [| reflexivity | reflexivity | reflexivity | |].
  - intros S. unfold saveImpl_map_uint32. cbn [dispenseKey].
    now rewrite saveImpl_map_loop_eq.
  - intros key m H. unfold get_word_array. now rewrite H.
  - constructor.
Qed.

Lemma enc_ok_map_string {A : Type} (save_elem : A -> Ser) (load_elem : De A) (n : A -> Z)
    (value : list (string * A)) :
  Forall (fun e => enc_ok (save_elem (snd e)) load_elem (snd e) (n (snd e))) value ->
  increasing String.ltb (map fst value) = true ->
  enc_ok (saveImpl_map_string save_elem value) (loadImpl_map_string load_elem)
         value (1 + sumZ (map (fun e => n (snd e)) value)).
Proof.
  intros Hv Hinc.
  enc_ok_from
            (enc_ok_slot_then (TextArray (map fst value)) get_string_array (map fst value)
               _ (fun keys => loadImpl_map_loop String.ltb load_elem keys []) value _ _
               (enc_ok_map_loop String.ltb save_elem load_elem n value [] String_ltb_asym
                  Hv Hinc _));
    [| reflexivity | reflexivity | reflexivity | |].
  - intros S. unfold saveImpl_map_string. cbn [dispenseKey].
    now rewrite saveImpl_map_loop_eq.
  - intros key m H. unfold get_string_array. now rewrite H.
  - constructor.
Qed.

Lemma Forall_forallb2 {A : Type} (P : A -> Prop) (f g : A -> bool) (l : list A) :
  (forall x, f x = true -> g x = true -> P x) ->
  forallb f l = true -> forallb g l = true -> Forall P l.
Proof.
  intros H. induction l as [|x l IH]; cbn [forallb]; [constructor|].
  intros [Hf Hfl]%andb_prop [Hg Hgl]%andb_prop. constructor; auto.
Qed.

Lemma in_range_spec (bits z : Z) : in_range bits z = true -> 0 <= z < 2 ^ bits.
Proof. unfold in_range. lia. Qed.

Lemma Forall_in_range (bits : Z) (l : list Z) :
  forallb (in_range bits) l = true -> Forall (fun z => 0 <= z < 2 ^ bits) l.
Proof.
  intros H. apply (Forall_forallb2 _ (in_range bits) (in_range bits)); [|assumption..].
  intros x Hx _. now apply in_range_spec.
Qed.


(** ** The encoding of every shape *)

Lemma enc_ok_narrow {B : Type} (widen : B -> Z) (narrow : Z -> B) (v : B) :
  narrow (widen v) = v ->
  enc_ok (saveImpl_uint32 (widen v))
         (bind loadImpl_uint32 (fun tmp => ret (narrow tmp))) v 1.
Proof.
  intros H.
  exact (enc_ok_ext _ _ _ _ _ _ _ _ (fun _ => eq_refl) (fun _ => eq_refl) H eq_refl
           (enc_ok_fmap narrow _ _ _ _ (enc_ok_uint32 (widen v)))).
Qed.

Lemma enc_ok_integral (o : endianness) (size n : nat) (value : list Z) :
  List.length value = n ->
  Forall (fun z => 0 <= z < 256 ^ Z.of_nat size) value ->
  enc_ok (saveImpl_integral_array o size (map (fun z => z) value))
         (bind (loadImpl_integral_array o size n)
               (fun elems => ret (map (fun z => z) elems))) value 1.
Proof.
  intros <- Hv.
  enc_ok_from
            (enc_ok_fmap (map (fun z => z)) _ _ _ _ (enc_ok_integral_array o size value Hv));
    [|reflexivity|apply map_id|reflexivity].
  intros S. now rewrite map_id.
Qed.

Lemma enc_ok_array {A : Type} (save_elem : A -> Ser) (load_elem : De A) (k : A -> Z)
    (n : nat) (value : list A) :
  List.length value = n ->
  Forall (fun elem => enc_ok (save_elem elem) load_elem elem (k elem)) value ->
  enc_ok (serialize_array_save save_elem value) (serialize_array_load load_elem n)
         value (sumZ (map k value)).
Proof. intros <- Hv. now apply enc_ok_elems. Qed.

Lemma saveImpl_loadImpl_ok (o : endianness) :
  (forall s (v : denote s),
      wf s v = true -> short s v = true ->
      enc_ok (saveImpl o s v) (loadImpl o s) v (nkeys s v)) /\
  (forall ts (v : denotes ts),
      wf_tuple ts v = true -> short_tuple ts v = true ->
      enc_ok (saveImpl_tuple o ts v) (loadImpl_tuple o ts) v (nkeys_tuple ts v)).
Proof.
  apply shape_shapes_ind.
  - (* std::uint32_t *) intros v _ _. apply enc_ok_uint32.
  - (* bool *) intros v _ _. apply (enc_ok_narrow u32_of_bool to_bool). now destruct v.
  - (* std::uint8_t *) intros v Hv%in_range_spec _.
    apply (enc_ok_narrow to_u32 to_u8). unfold to_u8, to_u32.
    rewrite (Z.mod_small v (2 ^ 32)) by lia. apply Z.mod_small. lia.
  - (* std::uint16_t *) intros v Hv%in_range_spec _.
    apply (enc_ok_narrow to_u32 to_u16). unfold to_u16, to_u32.
    rewrite (Z.mod_small v (2 ^ 32)) by lia. apply Z.mod_small. lia.
  - (* float *) intros v _ _.
    apply (enc_ok_narrow (bits_of_float o) (float_of_bits o)), float_of_bits_of_float.
  - (* std::string *) intros v _ _. apply enc_ok_string.
  - (* std::vector<T> *) intros t IH v Hwf Hshort.
    cbn [wf] in Hwf. apply andb_prop in Hwf as [Hnb Hwf].
    cbn [short] in Hshort.
    assert (Helems : Forall (fun e => enc_ok (saveImpl o t e) (loadImpl o t) e (nkeys t e)) v).
    { destruct (vector_slot t) eqn:Hslot.
      - destruct t; try discriminate Hslot;
          apply Forall_forall; intros e _; [apply enc_ok_uint32|apply enc_ok_string].
      - cbn [orb] in Hshort. apply andb_prop in Hshort as [_ Hshort].
        now apply (Forall_forallb2 _ (wf t) (short t)). }
    destruct t; try discriminate Hnb;
      try (cbn [vector_slot orb] in Hshort; apply andb_prop in Hshort as [Hlen _];
           apply (enc_ok_vector _ _ _ v); [lia|exact Helems]).
    + apply enc_ok_word_array.
    + apply enc_ok_string_array.
  - (* std::array<T, N> *) intros t IH n v Hwf Hshort.
    cbn [wf] in Hwf. apply andb_prop in Hwf as [Hlen Hwf].
    apply Nat.eqb_eq in Hlen. cbn [short] in Hshort.
    assert (Helems : Forall (fun e => enc_ok (saveImpl o t e) (loadImpl o t) e (nkeys t e)) v)
      by now apply (Forall_forallb2 _ (wf t) (short t)).
    destruct t;
      try (apply (enc_ok_array _ _ _ n v); [exact Hlen|exact Helems]).
    + apply (enc_ok_integral o 4 n v Hlen). now apply (Forall_in_range 32).
    + apply (enc_ok_integral o 1 n v Hlen). now apply (Forall_in_range 8).
    + apply (enc_ok_integral o 2 n v Hlen). now apply (Forall_in_range 16).
  - (* std::map<std::uint32_t, T> *) intros t IH v Hwf Hshort.
    cbn [wf] in Hwf. apply andb_prop in Hwf as [[_ Hinc]%andb_prop Hwf].
    cbn [short] in Hshort.
    apply (enc_ok_map_uint32 _ _ (nkeys t)); [|exact Hinc].
    apply (Forall_forallb2 _ (fun e => wf t (snd e)) (fun e => short t (snd e)));
      [|assumption..]. intros e. apply IH.
  - (* std::map<std::string, T> *) intros t IH v Hwf Hshort.
    cbn [wf] in Hwf. apply andb_prop in Hwf as [Hinc Hwf].
    cbn [short] in Hshort.
    apply (enc_ok_map_string _ _ (nkeys t)); [|exact Hinc].
    apply (Forall_forallb2 _ (fun e => wf t (snd e)) (fun e => short t (snd e)));
      [|assumption..]. intros e. apply IH.
  - (* std::tuple<Args...> *) intros ts IH v. apply IH.
  - (* user type *) intros ts IH v. apply IH.
  - intros [] _ _. apply enc_ok_ret.
  - intros t IHt ts IHts [arg args] Hwf Hshort.
    cbn [wf_tuple short_tuple fst snd] in Hwf, Hshort.
    apply andb_prop in Hwf as [Hwf1 Hwf2]. apply andb_prop in Hshort as [Hs1 Hs2].
    cbn [saveImpl_tuple loadImpl_tuple nkeys_tuple fst snd].
    apply (enc_ok_bind _ _ _ _ _ _ _ _ (IHt arg Hwf1 Hs1)).
    apply (enc_ok_fmap (pair arg) _ _ _ _ (IHts args Hwf2 Hs2)).
Qed.

(** ** Vectors longer than their 32-bit length

    A save writes [stored s v], and nothing else of [v]. *)

Lemma fold_left_map_ext {A B S : Type} (f : S -> B -> S) (g : S -> A -> S) (h : A -> B)
    (l : list A) (s0 : S) :
  (forall s a, f s (h a) = g s a) ->
  fold_left f (map h l) s0 = fold_left g l s0.
Proof.
  intros H. revert s0. induction l as [|a l IH]; intros s0; [reflexivity|].
  cbn [map fold_left]. now rewrite H, IH.
Qed.

Lemma length_firstn_u32 {A : Type} (l : list A) :
  List.length (firstn (Z.to_nat (to_u32 (Z.of_nat (List.length l)))) l)
  = Z.to_nat (to_u32 (Z.of_nat (List.length l))).
Proof.
  apply firstn_length_le. unfold to_u32.
  pose proof (Z.mod_le (Z.of_nat (List.length l)) (2 ^ 32)).
  pose proof (Z.mod_pos_bound (Z.of_nat (List.length l)) (2 ^ 32)). lia.
Qed.

Lemma to_u32_range (z : Z) : 0 <= to_u32 z < 2 ^ 32.
Proof. unfold to_u32. apply Z.mod_pos_bound. lia. Qed.

Lemma serialize_vector_save_stored {A : Type} (save_elem : A -> Ser) (st : A -> A)
    (value : list A) (S : MessageSerializer.t) :
  (forall elem S, save_elem (st elem) S = save_elem elem S) ->
  serialize_vector_save save_elem
    (map st (firstn (Z.to_nat (to_u32 (Z.of_nat (List.length value)))) value)) S
  = serialize_vector_save save_elem value S.
Proof.
  intros H. unfold serialize_vector_save. cbv zeta.
  rewrite length_map, length_firstn_u32.
  rewrite Z2Nat.id by apply to_u32_range.
  rewrite (to_u32_small (to_u32 _)) by apply to_u32_range.
  rewrite firstn_all2 by (rewrite length_map, length_firstn_u32; lia).
  apply fold_left_map_ext. intros S' elem. apply H.
Qed.

Lemma saveImpl_map_loop_stored {K A : Type} (save_elem : A -> Ser) (st : A -> A)
    (value : list (K * A)) (S : MessageSerializer.t) :
  (forall elem S, save_elem (st elem) S = save_elem elem S) ->
  saveImpl_map_loop save_elem (map (fun e => (fst e, st (snd e))) value) S
  = saveImpl_map_loop save_elem value S.
Proof.
  intros H. rewrite !saveImpl_map_loop_eq, map_map. cbn [fst]. f_equal.
  apply fold_left_map_ext. intros S' e. apply H.
Qed.

Lemma saveImpl_stored (o : endianness) :
  (forall s (v : denote s) S, saveImpl o s (stored s v) S = saveImpl o s v S) /\
  (forall ts (v : denotes ts) S, saveImpl_tuple o ts (stored_tuple ts v) S = saveImpl_tuple o ts v S).
Proof.
  apply shape_shapes_ind; try reflexivity.
  - (* std::vector<T> *) intros t IH v S.
    destruct t; try reflexivity; apply serialize_vector_save_stored, IH.
  - (* std::array<T, N> *) intros t IH n v S.
    destruct t; cbn [stored saveImpl integral];
      try (now rewrite map_id);
      apply fold_left_map_ext; intros S' e; apply IH.
  - (* std::map<std::uint32_t, T> *) intros t IH v S. cbn [stored saveImpl].
    unfold saveImpl_map_uint32. cbn [dispenseKey].
    now rewrite saveImpl_map_loop_stored by apply IH.
  - (* std::map<std::string, T> *) intros t IH v S. cbn [stored saveImpl].
    unfold saveImpl_map_string. cbn [dispenseKey].
    now rewrite saveImpl_map_loop_stored by apply IH.
  - intros ts IH v S. apply IH.
  - intros ts IH v S. apply IH.
  - intros t IHt ts IHts v S. cbn [stored_tuple saveImpl_tuple fst snd].
    now rewrite IHt, IHts.
Qed.

Lemma forallb_map_stored {A : Type} (p : A -> bool) (st : A -> A) (l : list A) :
  (forall x, p x = true -> p (st x) = true) ->
  forallb p l = true -> forallb p (map st l) = true.
Proof.
  intros H. induction l as [|x l IH]; [reflexivity|]. cbn [forallb map].
  intros [Hx Hl]%andb_prop. now rewrite H, IH.
Qed.

Lemma forallb_firstn {A : Type} (p : A -> bool) (n : nat) (l : list A) :
  forallb p l = true -> forallb p (firstn n l) = true.
Proof.
  revert n. induction l as [|x l IH]; intros [|n]; try reflexivity.
  cbn [forallb firstn]. intros [Hx Hl]%andb_prop. now rewrite Hx, IH.
Qed.

Lemma forallb_true_map {A : Type} (p : A -> bool) (st : A -> A) (l : list A) :
  (forall x, p (st x) = true) -> forallb p (map st l) = true.
Proof.
  intros H. induction l as [|x l IH]; [reflexivity|]. cbn [forallb map]. now rewrite H, IH.
Qed.

Lemma wf_stored :
  (forall s (v : denote s), wf s v = true -> wf s (stored s v) = true) /\
  (forall ts (v : denotes ts), wf_tuple ts v = true -> wf_tuple ts (stored_tuple ts v) = true).
Proof.
  apply shape_shapes_ind; try (intros; assumption).
  - intros t IH v H. cbn [wf] in H. apply andb_prop in H as [Hb Hv].
    cbn [wf stored]. apply andb_true_intro. split; [exact Hb|].
    destruct (vector_slot t); [exact Hv|].
    apply forallb_map_stored; [exact IH|]. now apply forallb_firstn.
  - intros t IH n v H. cbn [wf] in H. apply andb_prop in H as [Hlen Hv].
    cbn [wf stored]. apply andb_true_intro. split.
    + rewrite length_map. exact Hlen.
    + now apply forallb_map_stored.
  - intros t IH v H. cbn [wf] in H. apply andb_prop in H as [H Hv].
    cbn [wf stored]. apply andb_true_intro. split.
    + rewrite map_map. cbn [fst]. exact H.
    + rewrite forallb_forall in Hv. apply forallb_forall.
      intros e [e' [<- He']]%in_map_iff. cbn [snd]. apply IH, Hv, He'.
  - intros t IH v H. cbn [wf] in H. apply andb_prop in H as [Hinc Hv].
    cbn [wf stored]. apply andb_true_intro. split.
    + rewrite map_map. cbn [fst]. exact Hinc.
    + rewrite forallb_forall in Hv. apply forallb_forall.
      intros e [e' [<- He']]%in_map_iff. cbn [snd]. apply IH, Hv, He'.
  - intros ts IH v. apply IH.
  - intros ts IH v. apply IH.
  - intros t IHt ts IHts v H. cbn [wf_tuple] in H. apply andb_prop in H as [H1 H2].
    cbn [wf_tuple stored_tuple fst snd]. apply andb_true_intro. split; auto.
Qed.

Lemma short_stored :
  (forall s (v : denote s), short s (stored s v) = true) /\
  (forall ts (v : denotes ts), short_tuple ts (stored_tuple ts v) = true).
Proof.
  apply shape_shapes_ind; try reflexivity.
  - intros t IH v. cbn [short stored]. destruct (vector_slot t); [reflexivity|].
    cbn [orb]. rewrite length_map, length_firstn_u32, Z2Nat.id by apply to_u32_range.
    apply andb_true_intro. split; [apply Z.ltb_lt, to_u32_range|].
    now apply forallb_true_map.
  - intros t IH n v. cbn [short stored]. now apply forallb_true_map.
  - intros t IH v. cbn [short stored]. apply forallb_forall.
    intros e [e' [<- He']]%in_map_iff. apply IH.
  - intros t IH v. cbn [short stored]. apply forallb_forall.
    intros e [e' [<- He']]%in_map_iff. apply IH.
  - intros ts IH v. apply IH.
  - intros ts IH v. apply IH.
  - intros t IHt ts IHts v. cbn [short_tuple stored_tuple fst snd]. now rewrite IHt, IHts.
Qed.

(** The encoding of every well-formed value: what is read is what was
    written. *)
Lemma saveImpl_loadImpl_stored (o : endianness) (s : shape) (v : denote s) :
  wf s v = true ->
  enc_ok (saveImpl o s v) (loadImpl o s) (stored s v) (nkeys s (stored s v)).
Proof.
  intros Hwf.
  enc_ok_from (proj1 (saveImpl_loadImpl_ok o) s (stored s v)
                 (proj1 wf_stored s v Hwf) (proj1 short_stored s v));
    try reflexivity.
  intros S. apply (proj1 (saveImpl_stored o)).
Qed.
(** ** Properties of the key counter *)

Lemma after_calls_succ (n : N) :
  after_calls (N.succ n) = snd (dispenseKey (after_calls n)).
Proof. unfold after_calls. now rewrite N.iter_succ. Qed.

Lemma after_calls_keyIdx (n : N) :
  _keyIdx (after_calls n) = Z.of_N n mod 2 ^ 32.
Proof.
  induction n as [|n IH] using N.peano_ind; [reflexivity|].
  rewrite after_calls_succ. cbn [dispenseKey snd _keyIdx]. unfold to_u32.
  rewrite IH, N2Z.inj_succ, <- Z.add_1_r.
  now rewrite Zplus_mod_idemp_l.
Qed.

Lemma after_calls_dispensed (n : N) :
  (n <= 4294967296)%N -> dispensed (after_calls n) = seqZ 0 (Z.of_N n).
Proof.
  induction n as [|n IH] using N.peano_ind; intros Hn; [reflexivity|].
  rewrite after_calls_succ. cbn [dispenseKey snd dispensed].
  rewrite IH by lia. rewrite after_calls_keyIdx.
  rewrite Z.mod_small by lia.
  rewrite N2Z.inj_succ, <- Z.add_1_r.
  rewrite seqZ_app by lia. reflexivity.
Qed.

(** C3 (as amended): within the first [2^32] calls on one allocator, the keys
    returned are exactly [0, 1, 2, ...] in this order: the first is zero,
    each is one more than the previous one, and none is returned twice. *)
Theorem dispenseKey_counts (n : N) :
  (n <= 4294967296)%N ->
  dispensed (after_calls n) = seqZ 0 (Z.of_N n) /\
  NoDup (dispensed (after_calls n)) /\
  (forall i, (i < n)%N -> nth_key i = Z.of_N i).
Proof.
  intros Hn. split; [|split].
  - now apply after_calls_dispensed.
  - rewrite after_calls_dispensed by assumption. apply NoDup_seqZ.
  - intros i Hi. unfold nth_key. cbn [dispenseKey fst].
    rewrite after_calls_keyIdx. apply Z.mod_small. lia.
Qed.

Lemma dispenseKey_counts_witness :
  (3 <= 4294967296)%N /\
  dispensed (after_calls 3) = seqZ 0 3 /\
  NoDup (dispensed (after_calls 3)) /\
  (forall i, (i < 3)%N -> nth_key i = Z.of_N i).
Proof. split; [lia|]. apply (dispenseKey_counts 3). lia. Defined.

(** C3 (as stated) fails: the call that follows the one returning
    [2^32 - 1] returns [0], which is not one more than the previous key and
    is the key the first call returned. *)
Lemma dispenseKey_wraps :
  nth_key 4294967295 = 4294967295 /\
  nth_key 4294967296 = 0 /\
  nth_key 0 = 0.
Proof.
  unfold nth_key. cbn [dispenseKey fst].
  rewrite !after_calls_keyIdx. repeat split.
Qed.

(** ** Round trip *)

Lemma roundtrip_make (o : endianness) (s : shape) (v : denote s) (msg0 : RPCMsg) :
  wf s v = true -> short s v = true -> nkeys s v <= 2 ^ 32 ->
  let S' := saveImpl o s v (MessageSerializer.make msg0) in
  dispensed (sbase S') = seqZ 0 (nkeys s v) /\
  loadImpl o s (MessageDeserializer.make (smsg S')) =
    (Ok v, MessageDeserializer.mk (mkBase (to_u32 (nkeys s v)) (seqZ 0 (nkeys s v))) (smsg S')).
Proof.
  intros Hwf Hshort Hn.
  destruct (proj1 (saveImpl_loadImpl_ok o) s v Hwf Hshort) as [Hn0 H].
  destruct (H (MessageSerializer.make msg0)) as (_ & E2 & _ & E4); [cbn; lia|cbn; lia|].
  cbn [MessageSerializer.make sbase MessageSerializer.base fresh _keyIdx dispensed Z.add app]
    in E2, E4.
  split; [exact E2|].
  apply (E4 (MessageDeserializer.make _)); [reflexivity|]. intros j _. reflexivity.
Qed.

Lemma saveImpl_make (o : endianness) (s : shape) (v : denote s) (msg0 : RPCMsg) :
  wf s v = true -> short s v = true -> nkeys s v <= 2 ^ 32 ->
  let S' := saveImpl o s v (MessageSerializer.make msg0) in
  _keyIdx (sbase S') = to_u32 (nkeys s v) /\
  dispensed (sbase S') = seqZ 0 (nkeys s v) /\
  forall j, nkeys s v <= j -> smsg S' !! to_string j = msg0 !! to_string j.
Proof.
  intros Hwf Hshort Hn.
  destruct (proj1 (saveImpl_loadImpl_ok o) s v Hwf Hshort) as [Hn0 H].
  destruct (H (MessageSerializer.make msg0)) as (E1 & E2 & E3 & _); [cbn; lia|cbn; lia|].
  cbn [MessageSerializer.make sbase smsg MessageSerializer.base MessageSerializer.m_wiscMsg
       fresh _keyIdx dispensed Z.add app] in E1, E2, E3.
  repeat split; try assumption.
  intros j Hj. apply E3. intros j' Hj' Heq. apply to_string_inj in Heq. lia.
Qed.

Lemma fits_spec (s : shape) (v : denote s) :
  fits s v = true -> wf s v = true /\ short s v = true /\ nkeys s v <= 2 ^ 32.
Proof. unfold fits. intros [[? ?]%andb_prop ?]%andb_prop. repeat split; try assumption. lia. Qed.

(** C1 (as amended): for every well-formed value of a supported shape whose
    element-wise vectors have fewer than [2^32] elements and whose encoding
    needs at most [2^32] slots, deserializing the message produced by
    serializing the value, with the same shape, yields the value. *)
Theorem deserialize_serialize (o : endianness) (s : shape) (v : denote s) :
  fits s v = true -> deserialize o s (serialize o s v) = Ok v.
Proof.
  intros (Hwf & Hshort & Hn)%fits_spec. unfold deserialize, serialize.
  now rewrite (proj2 (roundtrip_make o s v ∅ Hwf Hshort Hn)).
Qed.

Lemma deserialize_serialize_witness :
  fits nested_shape nested_value = true /\
  deserialize BigEndian nested_shape (serialize BigEndian nested_shape nested_value)
  = Ok nested_value.
Proof.
  split; [reflexivity|].
  apply (deserialize_serialize BigEndian nested_shape nested_value). reflexivity.
Defined.

(** A vector stored element by element whose length is a multiple of
    [2^32] is written as the empty vector. *)
Lemma long_vector_truncated (o : endianness) (value : list Z) :
  to_u32 (Z.of_nat (List.length value)) = 0 ->
  deserialize o (TVector TUInt8) (serialize o (TVector TUInt8) value) = Ok [].
Proof.
  intros H. unfold deserialize, serialize. cbn [saveImpl loadImpl].
  unfold serialize_vector_save, serialize_vector_load. cbv zeta.
  change (denote TUInt8) with Z. rewrite H. reflexivity.
Qed.

Lemma wf_repeat_uint8 (n : nat) : wf (TVector TUInt8) (repeat 0 n) = true.
Proof. cbn [wf is_bool negb andb]. induction n as [|n IH]; [reflexivity|exact IH]. Qed.

Lemma long_vector_facts (n : nat) :
  Z.of_nat n = 2 ^ 32 ->
  wf (TVector TUInt8) (repeat 0 n) = true /\
  deserialize LittleEndian (TVector TUInt8)
    (serialize LittleEndian (TVector TUInt8) (repeat 0 n)) = Ok [] /\
  deserialize LittleEndian (TVector TUInt8)
    (serialize LittleEndian (TVector TUInt8) (repeat 0 n)) <> Ok (repeat 0 n).
Proof.
  intros Hn.
  assert (H : deserialize LittleEndian (TVector TUInt8)
                (serialize LittleEndian (TVector TUInt8) (repeat 0 n)) = Ok []).
  { apply long_vector_truncated. rewrite repeat_length, Hn. reflexivity. }
  split; [apply wf_repeat_uint8|]. split; [exact H|].
  rewrite H. intros Heq.
  assert (Hnil : repeat 0 n = []) by congruence.
  apply (f_equal (@List.length Z)) in Hnil. rewrite repeat_length in Hnil.
  subst n. discriminate Hn.
Qed.

(** ** Key sequences *)

Lemma base_only_id : base_only (fun S => S).
Proof. split; [auto|]. intros S. exists []. now rewrite app_nil_r. Qed.

Lemma base_only_comp (sv1 sv2 : Ser) :
  base_only sv1 -> base_only sv2 -> base_only (fun S => sv2 (sv1 S)).
Proof.
  intros [H1 A1] [H2 A2]. split; [auto|].
  intros S. destruct (A1 S) as [r1 E1]. destruct (A2 (sv1 S)) as [r2 E2].
  exists (r1 ++ r2). now rewrite E2, E1, app_assoc.
Qed.

Lemma base_only_ext (sv sv' : Ser) :
  (forall S, sv S = sv' S) -> base_only sv -> base_only sv'.
Proof.
  intros He [H A]. split.
  - intros S1 S2 HS. rewrite <- !He. now apply H.
  - intros S. rewrite <- He. apply A.
Qed.

Lemma base_only_dispense (sv : Ser) :
  (forall S, sbase (sv S) = snd (dispenseKey (sbase S))) -> base_only sv.
Proof.
  intros H. split.
  - intros S1 S2 HS. now rewrite !H, HS.
  - intros S. rewrite H. now exists [_keyIdx (sbase S)].
Qed.

Lemma base_only_fold {A : Type} (save_elem : A -> Ser) (value : list A) :
  Forall (fun elem => base_only (save_elem elem)) value ->
  base_only (fun S => fold_left (fun S elem => save_elem elem S) value S).
Proof.
  induction 1 as [|elem value Helem _ IH]; [apply base_only_id|].
  cbn [fold_left]. apply (base_only_comp _ _ Helem IH).
Qed.

Lemma base_only_vector {A : Type} (save_elem : A -> Ser) (value : list A) :
  (forall elem, base_only (save_elem elem)) ->
  base_only (serialize_vector_save save_elem value).
Proof.
  intros H. unfold serialize_vector_save.
  apply (base_only_comp (saveImpl_uint32 _)
           (fun S => fold_left (fun S elem => save_elem elem S) (firstn _ value) S)).
  - now apply base_only_dispense.
  - apply base_only_fold, Forall_forall. auto.
Qed.

Lemma base_only_map {K A : Type} (put : string -> list K -> RPCMsg -> RPCMsg)
    (save_elem : A -> Ser) (value : list (K * A)) :
  (forall elem, base_only (save_elem elem)) ->
  base_only (fun S =>
               let (keysKey, b) := dispenseKey (sbase S) in
               let '(keys, S2) :=
                 saveImpl_map_loop save_elem value (MessageSerializer.mk b (smsg S)) in
               MessageSerializer.mk (sbase S2) (put (to_string keysKey) keys (smsg S2))).
Proof.
  intros H.
  assert (Hfold : base_only (fun S => fold_left (fun S elem => save_elem (snd elem) S) value S)).
  { apply (base_only_fold (fun elem => save_elem (snd elem))), Forall_forall. auto. }
  destruct Hfold as [H1 A1]. split.
  - intros S1 S2 HS. cbn [dispenseKey]. rewrite !saveImpl_map_loop_eq.
    cbn [sbase MessageSerializer.base]. apply H1. cbn. now rewrite HS.
  - intros S. cbn [dispenseKey]. rewrite saveImpl_map_loop_eq.
    cbn [sbase MessageSerializer.base].
    destruct (A1 (MessageSerializer.mk
                    (mkBase (to_u32 (_keyIdx (sbase S) + 1))
                            (dispensed (sbase S) ++ [_keyIdx (sbase S)])) (smsg S)))
      as [rest E].
    rewrite E. cbn. exists (_keyIdx (sbase S) :: rest). now rewrite <- app_assoc.
Qed.

Lemma saveImpl_base_only (o : endianness) :
  (forall s (v : denote s), base_only (saveImpl o s v)) /\
  (forall ts (v : denotes ts), base_only (saveImpl_tuple o ts v)).
Proof.
  apply shape_shapes_ind; try (intros; now apply base_only_dispense).
  - intros t IH v. destruct t; try (now apply base_only_dispense);
      apply base_only_vector, IH.
  - intros t IH n v. destruct t; try (now apply base_only_dispense);
      apply base_only_fold, Forall_forall; intros e _; apply IH.
  - intros t IH v. apply (base_only_map set_word_array), IH.
  - intros t IH v. apply (base_only_map set_string_array), IH.
  - intros ts IH v. apply IH.
  - intros ts IH v. apply IH.
  - intros v. apply base_only_id.
  - intros t IHt ts IHts v. cbn [saveImpl_tuple].
    apply (base_only_comp _ _ (IHt (fst v)) (IHts (snd v))).
Qed.

Lemma keys_make (o : endianness) (s : shape) (v : denote s) :
  wf s v = true -> slots s v <= 2 ^ 32 ->
  serialize_keys o s v = seqZ 0 (slots s v) /\
  deserialize_keys o s (serialize o s v) = seqZ 0 (slots s v).
Proof.
  intros Hwf Hn. unfold slots in *.
  destruct (saveImpl_loadImpl_stored o s v Hwf) as [Hn0 H].
  destruct (H (MessageSerializer.make ∅)) as (_ & E2 & _ & E4); [cbn; lia|cbn; lia|].
  cbn [MessageSerializer.make sbase MessageSerializer.base fresh _keyIdx dispensed Z.add app]
    in E2, E4.
  split; [exact E2|].
  unfold deserialize_keys, serialize.
  rewrite (E4 (MessageDeserializer.make _)); [reflexivity|reflexivity|].
  intros j _. reflexivity.
Qed.

(** C2 (as amended): two serialization passes of the same value, into any
    two messages, allocate the same key sequence; and for a well-formed
    value whose serialization writes at most [2^32] slots, the keys
    allocated while deserializing the serialized message with the same
    shape are, in number and order, the keys allocated while serializing,
    namely [0, 1, 2, ...], one per slot. *)
Theorem key_sequences_agree (o : endianness) (s : shape) (v : denote s) :
  (forall msg1 msg2 : RPCMsg,
      dispensed (sbase (saveImpl o s v (MessageSerializer.make msg1))) =
      dispensed (sbase (saveImpl o s v (MessageSerializer.make msg2)))) /\
  (wf s v = true -> slots s v <= 2 ^ 32 ->
   deserialize_keys o s (serialize o s v) = serialize_keys o s v /\
   serialize_keys o s v = seqZ 0 (slots s v)).
Proof.
  split.
  - intros msg1 msg2.
    now rewrite (proj1 (proj1 (saveImpl_base_only o) s v)
                   (MessageSerializer.make msg1) (MessageSerializer.make msg2) eq_refl).
  - intros Hwf Hn. destruct (keys_make o s v Hwf Hn) as [E1 E2].
    rewrite E1, E2. split; reflexivity.
Qed.

Lemma key_sequences_agree_witness :
  (wf nested_shape nested_value = true /\ slots nested_shape nested_value <= 2 ^ 32) /\
  deserialize_keys LittleEndian nested_shape (serialize LittleEndian nested_shape nested_value)
  = serialize_keys LittleEndian nested_shape nested_value /\
  serialize_keys LittleEndian nested_shape nested_value = seqZ 0 (slots nested_shape nested_value).
Proof.
  split; [split; [reflexivity|vm_compute; discriminate]|].
  apply (proj2 (key_sequences_agree LittleEndian nested_shape nested_value));
    [reflexivity|vm_compute; discriminate].
Defined.

Lemma sumZ_repeat_uint8 (n : nat) :
  sumZ (map (nkeys TUInt8) (repeat 0 n)) = Z.of_nat n.
Proof.
  induction n as [|n IH]; [reflexivity|].
  cbn [repeat map]. change (sumZ (?x :: ?l)) with (x + sumZ l).
  rewrite IH. cbn [nkeys]. lia.
Qed.

Lemma wrapped_keys_facts (n : nat) :
  Z.of_nat n = 2 ^ 32 - 1 ->
  deserialize LittleEndian (TTuple wrap_args)
    (serialize LittleEndian (TTuple wrap_args) (wrap_value n)) = Err TypeMismatch /\
  deserialize_keys LittleEndian (TTuple wrap_args)
    (serialize LittleEndian (TTuple wrap_args) (wrap_value n)) = [0] /\
  serialize_keys LittleEndian (TTuple wrap_args) (wrap_value n) = seqZ 0 (2 ^ 32) ++ [0] /\
  deserialize_keys LittleEndian (TTuple wrap_args)
    (serialize LittleEndian (TTuple wrap_args) (wrap_value n))
  <> serialize_keys LittleEndian (TTuple wrap_args) (wrap_value n).
Proof.
  intros Hn.
  assert (Hwf : wf (TVector TUInt8) (repeat 0 n) = true) by apply wf_repeat_uint8.
  assert (Hshort : short (TVector TUInt8) (repeat 0 n) = true).
  { cbn [short vector_slot orb]. rewrite repeat_length.
    apply andb_true_intro. split; [lia|]. clear. induction n; [reflexivity|assumption]. }
  assert (Hk : nkeys (TVector TUInt8) (repeat 0 n) = 2 ^ 32).
  { cbn [nkeys vector_slot]. rewrite sumZ_repeat_uint8. lia. }
  destruct (saveImpl_make LittleEndian _ _ ∅ Hwf Hshort) as (E1 & E2 & _); [lia|].
  rewrite Hk in E1, E2. change (to_u32 (2 ^ 32)) with 0 in E1.
  set (S1 := saveImpl LittleEndian (TVector TUInt8) (repeat 0 n) (MessageSerializer.make ∅))
    in *.
  assert (Hmsg : serialize LittleEndian (TTuple wrap_args) (wrap_value n)
                 = <[to_string 0 := Text "x"]> (smsg S1)).
  { unfold serialize.
    change (saveImpl LittleEndian (TTuple wrap_args) (wrap_value n) (MessageSerializer.make ∅))
      with (saveImpl_string "x" S1).
    unfold saveImpl_string. cbn [dispenseKey]. rewrite E1. reflexivity. }
  assert (Hkeys : serialize_keys LittleEndian (TTuple wrap_args) (wrap_value n)
                  = seqZ 0 (2 ^ 32) ++ [0]).
  { unfold serialize_keys.
    change (saveImpl LittleEndian (TTuple wrap_args) (wrap_value n) (MessageSerializer.make ∅))
      with (saveImpl_string "x" S1).
    unfold saveImpl_string. cbn [dispenseKey].
    cbn [sbase MessageSerializer.base dispensed]. rewrite E1, E2. reflexivity. }
  assert (Hload : loadImpl LittleEndian (TTuple wrap_args)
                    (MessageDeserializer.make (<[to_string 0 := Text "x"]> (smsg S1)))
                  = (Err TypeMismatch,
                     MessageDeserializer.mk (mkBase 1 [0])
                       (<[to_string 0 := Text "x"]> (smsg S1)))).
  { unfold wrap_args. cbn [loadImpl loadImpl_tuple].
    unfold bind at 1. unfold serialize_vector_load. unfold bind at 1.
    unfold loadImpl_uint32. cbn [dispenseKey MessageDeserializer.make dbase dmsg
      MessageDeserializer.base MessageDeserializer.m_wiscMsg fresh _keyIdx dispensed app].
    unfold get_word. rewrite lookup_insert_eq. reflexivity. }
  unfold deserialize, deserialize_keys. rewrite Hmsg, Hload, Hkeys. cbn [fst snd dbase
    MessageDeserializer.base dispensed].
  repeat split.
  intros Heq. apply (f_equal (fun l => Z.of_nat (List.length l))) in Heq. cbv beta in Heq.
  rewrite length_app, length_seqZ, Nat2Z.inj_add, Z2Nat.id in Heq by discriminate.
  change (Z.of_nat (List.length [0])) with 1 in Heq. lia.
Qed.

(** C1 (as stated) fails: a [std::vector<std::uint8_t>] of [2^32] elements
    is well formed, and is read back as the empty vector; and the two
    arguments (a [std::vector<std::uint8_t>] of [2^32 - 1] elements, a
    [std::string]), which take [2^32 + 1] slots, are not read back at all. *)
Lemma long_vector_not_restored :
  (wf (TVector TUInt8) (repeat 0 (Z.to_nat (2 ^ 32))) = true /\
   deserialize LittleEndian (TVector TUInt8)
     (serialize LittleEndian (TVector TUInt8) (repeat 0 (Z.to_nat (2 ^ 32)))) = Ok [] /\
   deserialize LittleEndian (TVector TUInt8)
     (serialize LittleEndian (TVector TUInt8) (repeat 0 (Z.to_nat (2 ^ 32))))
   <> Ok (repeat 0 (Z.to_nat (2 ^ 32)))) /\
  deserialize LittleEndian (TTuple wrap_args)
    (serialize LittleEndian (TTuple wrap_args) (wrap_value (Z.to_nat (2 ^ 32 - 1))))
  = Err TypeMismatch.
Proof.
  split.
  - apply long_vector_facts. apply Z2Nat.id. discriminate.
  - apply wrapped_keys_facts. apply Z2Nat.id. discriminate.
Qed.

(** C2 (as stated) fails: the two arguments (a [std::vector<std::uint8_t>]
    of [2^32 - 1] elements, a [std::string]) take [2^32 + 1] keys, so the
    key of the string wraps to [0] and its slot replaces the length of the
    vector; the deserializer allocates key [0], finds a text slot and stops. *)
Lemma wrapped_keys_differ :
  deserialize LittleEndian (TTuple wrap_args)
    (serialize LittleEndian (TTuple wrap_args) (wrap_value (Z.to_nat (2 ^ 32 - 1))))
  = Err TypeMismatch /\
  deserialize_keys LittleEndian (TTuple wrap_args)
    (serialize LittleEndian (TTuple wrap_args) (wrap_value (Z.to_nat (2 ^ 32 - 1)))) = [0] /\
  serialize_keys LittleEndian (TTuple wrap_args) (wrap_value (Z.to_nat (2 ^ 32 - 1)))
  = seqZ 0 (2 ^ 32) ++ [0] /\
  deserialize_keys LittleEndian (TTuple wrap_args)
    (serialize LittleEndian (TTuple wrap_args) (wrap_value (Z.to_nat (2 ^ 32 - 1))))
  <> serialize_keys LittleEndian (TTuple wrap_args) (wrap_value (Z.to_nat (2 ^ 32 - 1))).
Proof. apply wrapped_keys_facts. apply Z2Nat.id. discriminate. Qed.

(** ** The encoding of a [std::map] *)

Lemma loadImpl_map_loop_elems {K A : Type} (lt : K -> K -> bool) (load_elem : De A)
    (keys : list K) (value : list (K * A)) (D : MessageDeserializer.t) :
  loadImpl_map_loop lt load_elem keys value D =
  match load_elems load_elem (List.length keys) D with
  | (Ok vals, D') => (Ok (emplace_all lt keys vals value), D')
  | (Err e, D') => (Err e, D')
  end.
Proof.
  revert value D. induction keys as [|key keys IH]; intros value D; [reflexivity|].
  cbn [loadImpl_map_loop List.length load_elems]. unfold bind, ret.
  destruct (load_elem D) as [[val|e] D1]; [|reflexivity].
  rewrite IH.
  now destruct (load_elems load_elem (List.length keys) D1) as [[vals|e] D2].
Qed.

Lemma saveImpl_map_fold (o : endianness) (t : shape) {K : Type}
    (value : list (K * denote t)) (S : MessageSerializer.t) :
  exists rest,
    dispensed (sbase (fold_left (fun S e => saveImpl o t (snd e) S) value S))
    = dispensed (sbase S) ++ rest.
Proof.
  apply (proj2 (base_only_fold (fun e : K * denote t => saveImpl o t (snd e)) value
                  (proj2 (Forall_forall _ _)
                     (fun e _ => proj1 (saveImpl_base_only o) t (snd e))))).
Qed.

(** C4: a [std::map] keyed by [std::uint32_t] or by [std::string] is
    serialized as one slot that holds the list of its keys in iteration
    order (a word array or a string array), under the key allocated before
    the keys of all the values, and the values encoded one after the other
    in that same order; it is deserialized by reading the key-list slot
    first and then reading as many values as the list has keys, in order,
    the i-th value going with the i-th key. *)
Theorem map_keys_then_values (o : endianness) (t : shape) :
  (forall (value : list (Z * denote t)) (S : MessageSerializer.t),
      let S2 := fold_left (fun S e => saveImpl o t (snd e) S) value
                  (MessageSerializer.mk (snd (dispenseKey (sbase S))) (smsg S)) in
      saveImpl o (TMapU32 t) value S =
        MessageSerializer.mk (sbase S2)
          (<[to_string (_keyIdx (sbase S)) := WordArray (map fst value)]> (smsg S2)) /\
      smsg (saveImpl o (TMapU32 t) value S) !! to_string (_keyIdx (sbase S))
        = Some (WordArray (map fst value)) /\
      exists rest,
        dispensed (sbase (saveImpl o (TMapU32 t) value S))
        = dispensed (sbase S) ++ _keyIdx (sbase S) :: rest) /\
  (forall (value : list (string * denote t)) (S : MessageSerializer.t),
      let S2 := fold_left (fun S e => saveImpl o t (snd e) S) value
                  (MessageSerializer.mk (snd (dispenseKey (sbase S))) (smsg S)) in
      saveImpl o (TMapString t) value S =
        MessageSerializer.mk (sbase S2)
          (<[to_string (_keyIdx (sbase S)) := TextArray (map fst value)]> (smsg S2)) /\
      smsg (saveImpl o (TMapString t) value S) !! to_string (_keyIdx (sbase S))
        = Some (TextArray (map fst value)) /\
      exists rest,
        dispensed (sbase (saveImpl o (TMapString t) value S))
        = dispensed (sbase S) ++ _keyIdx (sbase S) :: rest) /\
  (forall D : MessageDeserializer.t,
      let D1 := MessageDeserializer.mk (snd (dispenseKey (dbase D))) (dmsg D) in
      loadImpl o (TMapU32 t) D =
        match get_word_array (to_string (_keyIdx (dbase D))) (dmsg D) with
        | Err e => (Err e, D1)
        | Ok keys =>
            match load_elems (loadImpl o t) (List.length keys) D1 with
            | (Ok vals, D') => (Ok (emplace_all Z.ltb keys vals []), D')
            | (Err e, D') => (Err e, D')
            end
        end) /\
  (forall D : MessageDeserializer.t,
      let D1 := MessageDeserializer.mk (snd (dispenseKey (dbase D))) (dmsg D) in
      loadImpl o (TMapString t) D =
        match get_string_array (to_string (_keyIdx (dbase D))) (dmsg D) with
        | Err e => (Err e, D1)
        | Ok keys =>
            match load_elems (loadImpl o t) (List.length keys) D1 with
            | (Ok vals, D') => (Ok (emplace_all String.ltb keys vals []), D')
            | (Err e, D') => (Err e, D')
            end
        end).
Proof.
  repeat apply conj.
  - intros value S S2.
    assert (E : saveImpl o (TMapU32 t) value S =
                MessageSerializer.mk (sbase S2)
                  (<[to_string (_keyIdx (sbase S)) := WordArray (map fst value)]> (smsg S2))).
    { cbn [saveImpl]. unfold saveImpl_map_uint32. cbn [dispenseKey].
      now rewrite saveImpl_map_loop_eq. }
    rewrite E. cbn [sbase smsg MessageSerializer.base MessageSerializer.m_wiscMsg].
    repeat split; [apply lookup_insert_eq|].
    destruct (saveImpl_map_fold o t value
                (MessageSerializer.mk (snd (dispenseKey (sbase S))) (smsg S))) as [rest Hr].
    exists rest. subst S2. rewrite Hr. cbn. now rewrite <- app_assoc.
  - intros value S S2.
    assert (E : saveImpl o (TMapString t) value S =
                MessageSerializer.mk (sbase S2)
                  (<[to_string (_keyIdx (sbase S)) := TextArray (map fst value)]> (smsg S2))).
    { cbn [saveImpl]. unfold saveImpl_map_string. cbn [dispenseKey].
      now rewrite saveImpl_map_loop_eq. }
    rewrite E. cbn [sbase smsg MessageSerializer.base MessageSerializer.m_wiscMsg].
    repeat split; [apply lookup_insert_eq|].
    destruct (saveImpl_map_fold o t value
                (MessageSerializer.mk (snd (dispenseKey (sbase S))) (smsg S))) as [rest Hr].
    exists rest. subst S2. rewrite Hr. cbn. now rewrite <- app_assoc.
  - intros D D1. cbn [loadImpl]. unfold loadImpl_map_uint32, bind at 1.
    unfold loadImpl_word_array. cbn [dispenseKey]. fold D1.
    destruct (get_word_array _ _) as [keys|e]; [|reflexivity].
    apply loadImpl_map_loop_elems.
  - intros D D1. cbn [loadImpl]. unfold loadImpl_map_string, bind at 1.
    unfold loadImpl_string_array. cbn [dispenseKey]. fold D1.
    destruct (get_string_array _ _) as [keys|e]; [|reflexivity].
    apply loadImpl_map_loop_elems.
Qed.

(** ** The example call *)

(** C5 (as amended): serializing the arguments
    [(uint32 42, vector<uint32> [1,2,3], string "oh0")] produces a message
    of three slots: key 0 holds the word 42, key 1 holds the word array
    [1,2,3] and key 2 holds the text "oh0"; deserializing it with the same
    argument types gives back the three arguments. *)
Theorem example_call (o : endianness) :
  serialize o (TTuple example_args) example_value
  = <["0"%string := Word 42]>
      (<["1"%string := WordArray [1; 2; 3]]> (<["2"%string := Text "oh0"]> ∅)) /\
  deserialize o (TTuple example_args) (serialize o (TTuple example_args) example_value)
  = Ok example_value.
Proof. destruct o; split; vm_compute; reflexivity. Qed.

(** C5 (as stated) fails: key 1 holds the whole sequence as one word array,
    not the word 3, and there is no key 5. *)
Lemma example_call_slots :
  serialize LittleEndian (TTuple example_args) example_value !! "1"%string
    = Some (WordArray [1; 2; 3]) /\
  serialize LittleEndian (TTuple example_args) example_value !! "1"%string
    <> Some (Word 3) /\
  serialize LittleEndian (TTuple example_args) example_value !! "2"%string
    = Some (Text "oh0") /\
  serialize LittleEndian (TTuple example_args) example_value !! "5"%string = None.
Proof. repeat split; try (vm_compute; reflexivity). vm_compute. discriminate. Qed.

(** ** Narrow integers, booleans and floats *)

Lemma serialize_word (o : endianness) (s : shape) (v : denote s) (w : Z) :
  (forall S, saveImpl o s v S = saveImpl_uint32 w S) ->
  serialize o s v = {[to_string 0 := Word w]}.
Proof. intros H. unfold serialize. rewrite H. reflexivity. Qed.

Lemma deserialize_word {A : Type} (f : Z -> A) (w : Z) :
  fst (bind loadImpl_uint32 (fun tmp => ret (f tmp))
         (MessageDeserializer.make {[to_string 0 := Word w]})) = Ok (f w).
Proof.
  unfold bind, loadImpl_uint32, ret, get_word.
  cbn [dispenseKey MessageDeserializer.make dbase dmsg MessageDeserializer.base
       MessageDeserializer.m_wiscMsg fresh _keyIdx].
  now rewrite lookup_singleton_eq.
Qed.

(** C6 (as amended): a [bool], a [std::uint8_t] and a [std::uint16_t] are
    carried as one 32-bit word: encoding stores the zero-extended value;
    decoding to [std::uint8_t] or [std::uint16_t] keeps the low 8 or 16 bits
    of the word, and decoding to [bool] gives [true] for every non-zero
    word; so every value of these three types is restored by the round
    trip. *)
Theorem widened_scalars (o : endianness) (b : bool) (v8 v16 w : Z) :
  in_range 8 v8 = true -> in_range 16 v16 = true ->
  (serialize o TBool b = {[to_string 0 := Word (if b then 1 else 0)]} /\
   serialize o TUInt8 v8 = {[to_string 0 := Word v8]} /\
   serialize o TUInt16 v16 = {[to_string 0 := Word v16]}) /\
  (deserialize o TBool {[to_string 0 := Word w]} = Ok (negb (w =? 0)) /\
   deserialize o TUInt8 {[to_string 0 := Word w]} = Ok (w mod 2 ^ 8) /\
   deserialize o TUInt16 {[to_string 0 := Word w]} = Ok (w mod 2 ^ 16)) /\
  (deserialize o TBool (serialize o TBool b) = Ok b /\
   deserialize o TUInt8 (serialize o TUInt8 v8) = Ok v8 /\
   deserialize o TUInt16 (serialize o TUInt16 v16) = Ok v16).
Proof.
  intros H8%in_range_spec H16%in_range_spec.
  assert (E1 : serialize o TBool b = {[to_string 0 := Word (if b then 1 else 0)]})
    by now apply serialize_word.
  assert (E2 : serialize o TUInt8 v8 = {[to_string 0 := Word v8]}).
  { rewrite (serialize_word o TUInt8 v8 (to_u32 v8)) by reflexivity.
    rewrite to_u32_small by lia. reflexivity. }
  assert (E3 : serialize o TUInt16 v16 = {[to_string 0 := Word v16]}).
  { rewrite (serialize_word o TUInt16 v16 (to_u32 v16)) by reflexivity.
    rewrite to_u32_small by lia. reflexivity. }
  assert (D1 : forall w, deserialize o TBool {[to_string 0 := Word w]} = Ok (negb (w =? 0)))
    by (intros w'; apply (deserialize_word to_bool)).
  assert (D2 : forall w, deserialize o TUInt8 {[to_string 0 := Word w]} = Ok (w mod 2 ^ 8))
    by (intros w'; apply (deserialize_word to_u8)).
  assert (D3 : forall w, deserialize o TUInt16 {[to_string 0 := Word w]} = Ok (w mod 2 ^ 16))
    by (intros w'; apply (deserialize_word to_u16)).
  repeat split; try assumption; try apply D1; try apply D2; try apply D3.
  - rewrite E1, D1. now destruct b.
  - rewrite E2, D2, Z.mod_small by lia. reflexivity.
  - rewrite E3, D3, Z.mod_small by lia. reflexivity.
Qed.

Lemma widened_scalars_witness :
  (in_range 8 255 = true /\ in_range 16 65535 = true) /\
  (serialize LittleEndian TBool true = {[to_string 0 := Word 1]} /\
   serialize LittleEndian TUInt8 255 = {[to_string 0 := Word 255]} /\
   serialize LittleEndian TUInt16 65535 = {[to_string 0 := Word 65535]}) /\
  (deserialize LittleEndian TBool {[to_string 0 := Word 4294967295]}
     = Ok (negb (4294967295 =? 0)) /\
   deserialize LittleEndian TUInt8 {[to_string 0 := Word 4294967295]}
     = Ok (4294967295 mod 2 ^ 8) /\
   deserialize LittleEndian TUInt16 {[to_string 0 := Word 4294967295]}
     = Ok (4294967295 mod 2 ^ 16)) /\
  (deserialize LittleEndian TBool (serialize LittleEndian TBool true) = Ok true /\
   deserialize LittleEndian TUInt8 (serialize LittleEndian TUInt8 255) = Ok 255 /\
   deserialize LittleEndian TUInt16 (serialize LittleEndian TUInt16 65535) = Ok 65535).
Proof.
  split; [split; reflexivity|].
  apply (widened_scalars LittleEndian true 255 65535 4294967295); reflexivity.
Defined.

(** C6 (as stated) fails for [bool]: the word 256 decodes to [true],
    although its lowest bit and its low byte are zero, so that no
    truncation of the word gives [true]. *)
Lemma bool_decoding_not_truncation :
  deserialize LittleEndian TBool {[to_string 0 := Word 256]} = Ok true /\
  Z.testbit 256 0 = false /\
  256 mod 2 ^ 8 = 0.
Proof. repeat split. Qed.

(** C7: a float is encoded as the word made of its 32 value bits and
    decoded from it bit for bit, so that the round trip gives back the same
    four bytes, whatever the bit pattern: zero, minus zero, the smallest and
    the largest normal number and NaNs with their payload among them. *)
Theorem float_bits_preserved (o : endianness) (f : float) (w : Z) :
  in_range 32 w = true ->
  serialize o TFloat f = {[to_string 0 := Word (bits_of_float o f)]} /\
  deserialize o TFloat (serialize o TFloat f) = Ok f /\
  deserialize o TFloat {[to_string 0 := Word w]} = Ok (float_of_bits o w) /\
  bits_of_float o (float_of_bits o w) = w /\
  serialize o TFloat (float_of_bits o w) = {[to_string 0 := Word w]}.
Proof.
  intros Hw%in_range_spec.
  assert (E : forall g, serialize o TFloat g = {[to_string 0 := Word (bits_of_float o g)]})
    by (intros g; now apply serialize_word).
  assert (D : forall x, deserialize o TFloat {[to_string 0 := Word x]} = Ok (float_of_bits o x))
    by (intros x; apply (deserialize_word (float_of_bits o))).
  split; [|split; [|split; [|split]]].
  - apply E.
  - now rewrite E, D, float_of_bits_of_float.
  - apply D.
  - now apply bits_of_float_of_bits.
  - now rewrite E, bits_of_float_of_bits.
Qed.

Lemma float_bits_preserved_witness :
  in_range 32 2143289345 = true /\
  serialize BigEndian TFloat (mkFloat Byte.x80 Byte.x00 Byte.x00 Byte.x00)
    = {[to_string 0 := Word 2147483648]} /\
  deserialize BigEndian TFloat
    (serialize BigEndian TFloat (mkFloat Byte.x80 Byte.x00 Byte.x00 Byte.x00))
    = Ok (mkFloat Byte.x80 Byte.x00 Byte.x00 Byte.x00) /\
  deserialize BigEndian TFloat {[to_string 0 := Word 2143289345]}
    = Ok (mkFloat Byte.x7f Byte.xc0 Byte.x00 Byte.x01) /\
  bits_of_float BigEndian (mkFloat Byte.x7f Byte.xc0 Byte.x00 Byte.x01) = 2143289345 /\
  serialize BigEndian TFloat (mkFloat Byte.x7f Byte.xc0 Byte.x00 Byte.x01)
    = {[to_string 0 := Word 2143289345]}.
Proof.
  split; [reflexivity|].
  apply (float_bits_preserved BigEndian (mkFloat Byte.x80 Byte.x00 Byte.x00 Byte.x00)
           2143289345).
  reflexivity.
Defined.

(** ** Arity and order of the arguments *)

Lemma saveImpl_tuple_app (o : endianness) (ts1 ts2 : shapes)
    (v1 : denotes ts1) (v2 : denotes ts2) (S : MessageSerializer.t) :
  saveImpl_tuple o (sapp ts1 ts2) (vapp ts1 ts2 v1 v2) S
  = saveImpl_tuple o ts2 v2 (saveImpl_tuple o ts1 v1 S).
Proof.
  revert v1 S. induction ts1 as [|t ts1 IH]; intros v1 S; [reflexivity|].
  cbn [sapp vapp saveImpl_tuple fst snd]. apply IH.
Qed.

Lemma loadImpl_tuple_app (o : endianness) (ts1 ts2 : shapes) (D : MessageDeserializer.t) :
  loadImpl_tuple o (sapp ts1 ts2) D =
  match loadImpl_tuple o ts1 D with
  | (Ok a1, D1) =>
      match loadImpl_tuple o ts2 D1 with
      | (Ok a2, D2) => (Ok (vapp ts1 ts2 a1 a2), D2)
      | (Err e, D2) => (Err e, D2)
      end
  | (Err e, D1) => (Err e, D1)
  end.
Proof.
  revert D. induction ts1 as [|t ts1 IH]; intros D.
  - cbn [sapp loadImpl_tuple vapp]. unfold ret.
    now destruct (loadImpl_tuple o ts2 D) as [[a2|e] D2].
  - cbn [sapp loadImpl_tuple vapp]. unfold bind, ret.
    destruct (loadImpl o t D) as [[a|e] D1]; [|reflexivity].
    rewrite IH.
    destruct (loadImpl_tuple o ts1 D1) as [[a1|e] D2]; [|reflexivity].
    now destruct (loadImpl_tuple o ts2 D2) as [[a2|e] D3].
Qed.




(** ** The message is only read *)

Lemma msg_kept_ret {A : Type} (a : A) : msg_kept (ret a).
Proof. intros D. reflexivity. Qed.

Lemma msg_kept_bind {A B : Type} (c : De A) (k : A -> De B) :
  msg_kept c -> (forall a, msg_kept (k a)) -> msg_kept (bind c k).
Proof.
  intros Hc Hk D. unfold bind. specialize (Hc D).
  destruct (c D) as [[a|e] D1]; cbn [snd] in *; [|exact Hc].
  now rewrite Hk.
Qed.

Lemma msg_kept_elems {A : Type} (load_elem : De A) (n : nat) :
  msg_kept load_elem -> msg_kept (load_elems load_elem n).
Proof.
  intros H. induction n as [|n IH]; [apply msg_kept_ret|].
  cbn [load_elems]. apply msg_kept_bind; [exact H|]. intros a.
  apply msg_kept_bind; [exact IH|]. intros l. apply msg_kept_ret.
Qed.

Lemma msg_kept_map_loop {K A : Type} (lt : K -> K -> bool) (load_elem : De A)
    (keys : list K) (value : list (K * A)) :
  msg_kept load_elem -> msg_kept (loadImpl_map_loop lt load_elem keys value).
Proof.
  intros H. revert value. induction keys as [|key keys IH]; intros value;
    [apply msg_kept_ret|].
  cbn [loadImpl_map_loop]. apply msg_kept_bind; [exact H|]. intros a. apply IH.
Qed.

Lemma msg_kept_slot {A : Type} (get : string -> RPCMsg -> res A) :
  msg_kept (fun D =>
              let (key, b) := dispenseKey (dbase D) in
              (get (to_string key) (dmsg D), MessageDeserializer.mk b (dmsg D))).
Proof. intros D. reflexivity. Qed.

Lemma msg_kept_uint32 : msg_kept loadImpl_uint32.
Proof. apply (msg_kept_slot get_word). Qed.

Lemma msg_kept_word_array : msg_kept loadImpl_word_array.
Proof. apply (msg_kept_slot get_word_array). Qed.

Lemma msg_kept_string : msg_kept loadImpl_string.
Proof. apply (msg_kept_slot get_string). Qed.

Lemma msg_kept_string_array : msg_kept loadImpl_string_array.
Proof. apply (msg_kept_slot get_string_array). Qed.

Lemma msg_kept_integral_array (o : endianness) (size n : nat) :
  msg_kept (loadImpl_integral_array o size n).
Proof. intros D. reflexivity. Qed.

Create HintDb msg_kept.
#[local] Hint Resolve msg_kept_ret msg_kept_bind msg_kept_elems msg_kept_map_loop
  msg_kept_uint32 msg_kept_word_array msg_kept_string msg_kept_string_array
  msg_kept_integral_array : msg_kept.
#[local] Hint Unfold load_bool load_uint8 load_uint16 load_float serialize_vector_load
  serialize_array_load loadImpl_map_uint32 loadImpl_map_string : msg_kept.

(** The type of the loaded value is computed before the hints are tried:
    they are stated on [list A], not on [denote (TVector t)]. *)
Ltac msg_kept_auto :=
  cbn [loadImpl loadImpl_tuple integral denote denotes] in *;
  autounfold with msg_kept; auto 8 with msg_kept.

Lemma loadImpl_msg_kept (o : endianness) :
  (forall s, msg_kept (loadImpl o s)) /\ (forall ts, msg_kept (loadImpl_tuple o ts)).
Proof.
  apply shape_shapes_ind; intros; try msg_kept_auto.
  - (* std::vector<T> *) destruct t; msg_kept_auto.
  - (* std::array<T, N> *) destruct t; msg_kept_auto.
Qed.

(** C10: every load, of every shape, of an argument list or of the result
    of a call, whether it returns a value or throws, leaves the message of
    the deserializer as it was. *)
Theorem message_untouched (o : endianness) (D : MessageDeserializer.t) :
  (forall s, dmsg (snd (loadImpl o s D)) = dmsg D) /\
  (forall ts, dmsg (snd (loadImpl_tuple o ts D)) = dmsg D) /\
  (forall r, dmsg (snd (loadImpl_void_holder o r D)) = dmsg D).
Proof.
  split; [|split].
  - intros s. apply (proj1 (loadImpl_msg_kept o)).
  - intros ts. apply (proj2 (loadImpl_msg_kept o)).
  - intros [s|]; [apply (proj1 (loadImpl_msg_kept o))|reflexivity].
Qed.

(** * Further properties of the serializer and the deserializer *)

(** ** Keys are allocated one after the other *)

Lemma to_u32_add_l (a b : Z) : to_u32 (to_u32 a + b) = to_u32 (a + b).
Proof. unfold to_u32. apply Zplus_mod_idemp_l. Qed.

Lemma map_seq_from {B : Type} (f : nat -> B) (a n : nat) :
  map f (seq a n) = map (fun i => f (a + i)%nat) (seq 0 n).
Proof.
  revert a f. induction n as [|n IH]; intros a f; [reflexivity|].
  cbn [seq map]. rewrite Nat.add_0_r. f_equal.
  rewrite (IH (S a)), (IH 1%nat). apply map_ext. intros i. f_equal. lia.
Qed.

Lemma next_keys_app (k : Z) (n1 n2 : nat) :
  next_keys k (n1 + n2)
  = next_keys k n1 ++ next_keys (to_u32 (k + Z.of_nat n1)) n2.
Proof.
  unfold next_keys. rewrite seq_app, map_app. f_equal.
  rewrite map_seq_from. apply map_ext. intros i.
  rewrite to_u32_add_l. f_equal. lia.
Qed.

Lemma next_keys_one (k : Z) : 0 <= k < 2 ^ 32 -> next_keys k 1 = [k].
Proof.
  intros Hk. unfold next_keys. cbn [seq map]. rewrite Z.add_0_r.
  now rewrite to_u32_small.
Qed.

Lemma save_tidy_id : save_tidy (fun S => S).
Proof.
  intros S Hk. exists 0%nat. cbn [next_keys seq map]. unfold next_keys. cbn [seq map].
  rewrite Z.add_0_r, app_nil_r, to_u32_small by assumption.
  split; [now destruct S as [[? ?] ?]|]. split; [reflexivity|]. intros key [].
Qed.

Lemma save_tidy_ext (sv sv' : Ser) :
  (forall S, sv S = sv' S) -> save_tidy sv -> save_tidy sv'.
Proof. intros He H S Hk. rewrite <- He. now apply H. Qed.

Lemma save_tidy_comp (sv1 sv2 : Ser) :
  save_tidy sv1 -> save_tidy sv2 -> save_tidy (fun S => sv2 (sv1 S)).
Proof.
  intros H1 H2 S Hk.
  destruct (H1 S Hk) as (n1 & E1 & F1 & P1).
  assert (Hk1 : 0 <= _keyIdx (sbase (sv1 S)) < 2 ^ 32)
    by (rewrite E1; apply Z.mod_pos_bound; lia).
  destruct (H2 (sv1 S) Hk1) as (n2 & E2 & F2 & P2).
  rewrite E1 in E2, F2, P2. cbn [_keyIdx dispensed] in E2, F2, P2.
  exists (n1 + n2)%nat. rewrite next_keys_app, map_app.
  split; [|split].
  - rewrite E2, to_u32_add_l, Nat2Z.inj_add, <- app_assoc, Z.add_assoc. reflexivity.
  - intros key Hkey. rewrite F2, F1; [reflexivity| |];
      intros Hin; apply Hkey, in_or_app; auto.
  - intros key [Hin|Hin]%in_app_or; [|now apply P2].
    destruct (in_dec String.string_dec key
                (map to_string (next_keys (to_u32 (_keyIdx (sbase S) + Z.of_nat n1)) n2)))
      as [Hin2|Hout]; [now apply P2|].
    rewrite F2 by assumption. now apply P1.
Qed.

Lemma save_tidy_slot_then (sl : slot) (sv_rest : Ser) :
  save_tidy sv_rest ->
  save_tidy
    (fun S =>
       let (key, bs) := dispenseKey (sbase S) in
       let S2 := sv_rest (MessageSerializer.mk bs (smsg S)) in
       MessageSerializer.mk (sbase S2) (<[to_string key := sl]> (smsg S2))).
Proof.
  intros H S Hk. cbn [dispenseKey].
  set (S1 := MessageSerializer.mk
               (mkBase (to_u32 (_keyIdx (sbase S) + 1))
                       (dispensed (sbase S) ++ [_keyIdx (sbase S)])) (smsg S)).
  assert (Hk1 : 0 <= _keyIdx (sbase S1) < 2 ^ 32) by (apply Z.mod_pos_bound; lia).
  destruct (H S1 Hk1) as (n & E & F & P).
  cbn [S1 sbase smsg MessageSerializer.base MessageSerializer.m_wiscMsg _keyIdx dispensed]
    in E, F, P.
  exists (1 + n)%nat. rewrite next_keys_app, next_keys_one by assumption.
  change (Z.of_nat 1) with 1.
  cbn [sbase smsg MessageSerializer.base MessageSerializer.m_wiscMsg map app].
  split; [|split].
  - rewrite E, to_u32_add_l, Nat2Z.inj_add, <- app_assoc, Z.add_assoc. reflexivity.
  - intros key Hkey. rewrite lookup_insert_ne by (intros Heq; apply Hkey; now left).
    apply F. intros Hin. apply Hkey. now right.
  - intros key [<-|Hin]; [rewrite lookup_insert_eq; eauto|].
    destruct (decide (to_string (_keyIdx (sbase S)) = key)) as [<-|Hne].
    + rewrite lookup_insert_eq. eauto.
    + rewrite lookup_insert_ne by assumption. now apply P.
Qed.

Lemma save_tidy_slot (sl : slot) :
  save_tidy
    (fun S =>
       let (key, bs) := dispenseKey (sbase S) in
       MessageSerializer.mk bs (<[to_string key := sl]> (smsg S))).
Proof.
  apply (save_tidy_ext _ _ (fun _ => eq_refl) (save_tidy_slot_then sl _ save_tidy_id)).
Qed.

Lemma save_tidy_fold {A : Type} (save_elem : A -> Ser) (value : list A) :
  (forall elem, save_tidy (save_elem elem)) ->
  save_tidy (fun S => fold_left (fun S elem => save_elem elem S) value S).
Proof.
  intros H. induction value as [|elem value IH]; [apply save_tidy_id|].
  cbn [fold_left]. apply (save_tidy_comp _ _ (H elem) IH).
Qed.

Lemma save_tidy_vector {A : Type} (save_elem : A -> Ser) (value : list A) :
  (forall elem, save_tidy (save_elem elem)) ->
  save_tidy (serialize_vector_save save_elem value).
Proof.
  intros H. unfold serialize_vector_save.
  apply (save_tidy_comp (saveImpl_uint32 _)
           (fun S => fold_left (fun S elem => save_elem elem S) (firstn _ value) S)).
  - apply (save_tidy_slot (Word _)).
  - now apply save_tidy_fold.
Qed.

Lemma save_tidy_map {K A : Type} (keys_slot : list K -> slot)
    (save_elem : A -> Ser) (value : list (K * A)) :
  (forall elem, save_tidy (save_elem elem)) ->
  save_tidy (fun S =>
               let (keysKey, b) := dispenseKey (sbase S) in
               let '(keys, S2) :=
                 saveImpl_map_loop save_elem value (MessageSerializer.mk b (smsg S)) in
               MessageSerializer.mk (sbase S2)
                 (<[to_string keysKey := keys_slot keys]> (smsg S2))).
Proof.
  intros H.
  apply (save_tidy_ext
           (fun S =>
              let (key, bs) := dispenseKey (sbase S) in
              let S2 := fold_left (fun S elem => save_elem (snd elem) S) value
                          (MessageSerializer.mk bs (smsg S)) in
              MessageSerializer.mk (sbase S2)
                (<[to_string key := keys_slot (map fst value)]> (smsg S2)))).
  - intros S. cbn [dispenseKey]. now rewrite saveImpl_map_loop_eq.
  - apply save_tidy_slot_then.
    apply (save_tidy_fold (fun elem => save_elem (snd elem))). auto.
Qed.

Lemma saveImpl_tidy (o : endianness) :
  (forall s (v : denote s), save_tidy (saveImpl o s v)) /\
  (forall ts (v : denotes ts), save_tidy (saveImpl_tuple o ts v)).
Proof.
  apply shape_shapes_ind; try (intros; apply (save_tidy_slot (Word _)));
    try (intros; apply (save_tidy_slot (Text _))).
  - intros t IH v. destruct t;
      try (apply (save_tidy_slot (WordArray _)));
      try (apply (save_tidy_slot (TextArray _)));
      apply save_tidy_vector, IH.
  - intros t IH n v. destruct t;
      try (apply (save_tidy_slot (BinaryData _)));
      apply save_tidy_fold, IH.
  - intros t IH v. apply (save_tidy_map WordArray), IH.
  - intros t IH v. apply (save_tidy_map TextArray), IH.
  - intros ts IH v. apply IH.
  - intros ts IH v. apply IH.
  - intros v. apply save_tidy_id.
  - intros t IHt ts IHts v. cbn [saveImpl_tuple].
    apply (save_tidy_comp _ _ (IHt (fst v)) (IHts (snd v))).
Qed.

Lemma load_tidy_ret {A : Type} (a : A) : load_tidy (ret a).
Proof.
  intros D Hk. exists 0%nat. unfold next_keys. cbn [seq map ret snd].
  rewrite Z.add_0_r, app_nil_r, to_u32_small by assumption. now destruct D as [[? ?] ?].
Qed.

Lemma load_tidy_bind {A B : Type} (c : De A) (k : A -> De B) :
  load_tidy c -> (forall a, load_tidy (k a)) -> load_tidy (bind c k).
Proof.
  intros Hc Hk D HD. unfold bind. destruct (Hc D HD) as (n1 & E1).
  destruct (c D) as [[a|e] D1]; cbn [snd] in *; [|now exists n1].
  assert (HD1 : 0 <= _keyIdx (dbase D1) < 2 ^ 32)
    by (rewrite E1; apply Z.mod_pos_bound; lia).
  destruct (Hk a D1 HD1) as (n2 & E2). rewrite E1 in E2. cbn [_keyIdx dispensed] in E2.
  exists (n1 + n2)%nat.
  rewrite E2, next_keys_app, to_u32_add_l, Nat2Z.inj_add, <- app_assoc, Z.add_assoc.
  reflexivity.
Qed.

Lemma load_tidy_slot {A : Type} (get : string -> RPCMsg -> res A) :
  load_tidy (fun D =>
               let (key, b) := dispenseKey (dbase D) in
               (get (to_string key) (dmsg D), MessageDeserializer.mk b (dmsg D))).
Proof.
  intros D HD. exists 1%nat. cbn [dispenseKey snd dbase MessageDeserializer.base].
  now rewrite next_keys_one.
Qed.

Lemma load_tidy_uint32 : load_tidy loadImpl_uint32.
Proof. apply (load_tidy_slot get_word). Qed.

Lemma load_tidy_word_array : load_tidy loadImpl_word_array.
Proof. apply (load_tidy_slot get_word_array). Qed.

Lemma load_tidy_string : load_tidy loadImpl_string.
Proof. apply (load_tidy_slot get_string). Qed.

Lemma load_tidy_string_array : load_tidy loadImpl_string_array.
Proof. apply (load_tidy_slot get_string_array). Qed.

Lemma load_tidy_integral_array (o : endianness) (size n : nat) :
  load_tidy (loadImpl_integral_array o size n).
Proof.
  intros D HD. exists 1%nat. unfold loadImpl_integral_array.
  cbn [dispenseKey snd dbase MessageDeserializer.base]. now rewrite next_keys_one.
Qed.

Lemma load_tidy_elems {A : Type} (load_elem : De A) (n : nat) :
  load_tidy load_elem -> load_tidy (load_elems load_elem n).
Proof.
  intros H. induction n as [|n IH]; [apply load_tidy_ret|].
  cbn [load_elems]. apply load_tidy_bind; [exact H|]. intros a.
  apply load_tidy_bind; [exact IH|]. intros l. apply load_tidy_ret.
Qed.

Lemma load_tidy_map_loop {K A : Type} (lt : K -> K -> bool) (load_elem : De A)
    (keys : list K) (value : list (K * A)) :
  load_tidy load_elem -> load_tidy (loadImpl_map_loop lt load_elem keys value).
Proof.
  intros H. revert value. induction keys as [|key keys IH]; intros value;
    [apply load_tidy_ret|].
  cbn [loadImpl_map_loop]. apply load_tidy_bind; [exact H|]. intros a. apply IH.
Qed.

Create HintDb load_tidy.
#[local] Hint Resolve load_tidy_ret load_tidy_bind load_tidy_elems load_tidy_map_loop
  load_tidy_uint32 load_tidy_word_array load_tidy_string load_tidy_string_array
  load_tidy_integral_array : load_tidy.

Ltac load_tidy_auto :=
  cbn [loadImpl loadImpl_tuple integral denote denotes] in *;
  autounfold with msg_kept; auto 8 with load_tidy.

Lemma loadImpl_tidy (o : endianness) :
  (forall s, load_tidy (loadImpl o s)) /\ (forall ts, load_tidy (loadImpl_tuple o ts)).
Proof.
  apply shape_shapes_ind; intros; try load_tidy_auto.
  - (* std::vector<T> *) destruct t; load_tidy_auto.
  - (* std::array<T, N> *) destruct t; load_tidy_auto.
Qed.

(** X1: a save and a load, of any shape, move the key counter forward one
    key at a time: the keys they allocate are the consecutive keys from the
    current key index (modulo [2^32]), whether the load returns or throws. *)
Theorem keys_are_consecutive (o : endianness) (s : shape) (v : denote s)
    (S : MessageSerializer.t) (D : MessageDeserializer.t) :
  0 <= _keyIdx (sbase S) < 2 ^ 32 -> 0 <= _keyIdx (dbase D) < 2 ^ 32 ->
  (exists n : nat,
      sbase (saveImpl o s v S)
      = mkBase (to_u32 (_keyIdx (sbase S) + Z.of_nat n))
               (dispensed (sbase S) ++ next_keys (_keyIdx (sbase S)) n)) /\
  (exists n : nat,
      dbase (snd (loadImpl o s D))
      = mkBase (to_u32 (_keyIdx (dbase D) + Z.of_nat n))
               (dispensed (dbase D) ++ next_keys (_keyIdx (dbase D)) n)).
Proof.
  intros HS HD. split.
  - destruct (proj1 (saveImpl_tidy o) s v S HS) as (n & E & _). now exists n.
  - apply (proj1 (loadImpl_tidy o) s D HD).
Qed.

Lemma keys_are_consecutive_witness :
  (0 <= _keyIdx (sbase (MessageSerializer.make ∅)) < 2 ^ 32 /\
   0 <= _keyIdx (dbase (MessageDeserializer.make ∅)) < 2 ^ 32) /\
  (exists n : nat,
      sbase (saveImpl LittleEndian nested_shape nested_value (MessageSerializer.make ∅))
      = mkBase (to_u32 (0 + Z.of_nat n)) ([] ++ next_keys 0 n)) /\
  (exists n : nat,
      dbase (snd (loadImpl LittleEndian nested_shape (MessageDeserializer.make ∅)))
      = mkBase (to_u32 (0 + Z.of_nat n)) ([] ++ next_keys 0 n)).
Proof.
  split; [cbn; lia|].
  apply (keys_are_consecutive LittleEndian nested_shape nested_value
           (MessageSerializer.make ∅) (MessageDeserializer.make ∅)); cbn; lia.
Defined.

(** ** A save writes the slots of its keys and no other *)

Lemma allocated_by_tidy (sv : Ser) (S : MessageSerializer.t) (n : nat) :
  sbase (sv S)
  = mkBase (to_u32 (_keyIdx (sbase S) + Z.of_nat n))
           (dispensed (sbase S) ++ next_keys (_keyIdx (sbase S)) n) ->
  allocated_by sv S = next_keys (_keyIdx (sbase S)) n.
Proof.
  intros E. unfold allocated_by. rewrite E. cbn [dispensed].
  now rewrite drop_app_length.
Qed.

(** X2: serializing a value changes no slot of the message but those
    stored under the keys it allocates, removes none, and leaves a slot
    under every key it allocates. *)
Theorem save_writes_its_keys (o : endianness) (s : shape) (v : denote s)
    (S : MessageSerializer.t) :
  0 <= _keyIdx (sbase S) < 2 ^ 32 ->
  (forall key : string,
      ~ In key (map to_string (allocated_by (saveImpl o s v) S)) ->
      smsg (saveImpl o s v S) !! key = smsg S !! key) /\
  (forall key : string,
      In key (map to_string (allocated_by (saveImpl o s v) S)) ->
      is_Some (smsg (saveImpl o s v S) !! key)) /\
  (forall key : string,
      is_Some (smsg S !! key) -> is_Some (smsg (saveImpl o s v S) !! key)).
Proof.
  intros HS. destruct (proj1 (saveImpl_tidy o) s v S HS) as (n & E & F & P).
  rewrite (allocated_by_tidy _ _ n E). split; [exact F|]. split; [exact P|].
  intros key Hkey.
  destruct (in_dec String.string_dec key
              (map to_string (next_keys (_keyIdx (sbase S)) n))) as [Hin|Hout].
  - now apply P.
  - now rewrite F.
Qed.

Lemma save_writes_its_keys_witness :
  0 <= _keyIdx (sbase (MessageSerializer.make {["9"%string := Text "kept"]})) < 2 ^ 32 /\
  smsg (saveImpl BigEndian (TTuple example_args) example_value
          (MessageSerializer.make {["9"%string := Text "kept"]})) !! "9"%string
  = Some (Text "kept").
Proof.
  split; [cbn; lia|].
  rewrite (proj1 (save_writes_its_keys BigEndian (TTuple example_args) example_value
                    (MessageSerializer.make {["9"%string := Text "kept"]})
                    ltac:(cbn; lia))).
  - reflexivity.
  - vm_compute. intros [H|[H|[H|[]]]]; discriminate H.
Defined.

(** ** The slots of a serialized value *)

Lemma next_keys_seqZ (n : nat) (z : Z) :
  next_keys 0 n = seqZ 0 z -> z <= 2 ^ 32 -> 0 <= z -> Z.of_nat n = z.
Proof.
  intros E Hz H0. apply (f_equal (@List.length Z)) in E.
  unfold next_keys in E. rewrite length_map, length_seq, length_seqZ in E. lia.
Qed.

(** X3: the message produced by serializing a well-formed value whose
    serialization takes at most [2^32] slots holds exactly the keys "0",
    "1", ..., one for each slot, and nothing else. *)
Theorem serialized_keys (o : endianness) (s : shape) (v : denote s) :
  wf s v = true -> slots s v <= 2 ^ 32 ->
  (forall key : string,
      is_Some (serialize o s v !! key) <-> In key (map to_string (seqZ 0 (slots s v)))) /\
  size (serialize o s v) = Z.to_nat (slots s v).
Proof.
  intros Hwf Hn.
  destruct (keys_make o s v Hwf Hn) as [Ek _]. unfold serialize_keys in Ek.
  destruct (proj1 (saveImpl_tidy o) s v (MessageSerializer.make ∅)) as (n & E & F & P);
    [cbn; lia|].
  cbn [MessageSerializer.make sbase smsg MessageSerializer.base MessageSerializer.m_wiscMsg
       fresh _keyIdx dispensed app] in E, F, P.
  rewrite E in Ek. cbn [dispensed] in Ek. rewrite Ek in F, P.
  assert (Hdom : forall key : string,
             is_Some (serialize o s v !! key)
             <-> In key (map to_string (seqZ 0 (slots s v)))).
  { intros key. unfold serialize. split; [|apply P].
    intros Hsome.
    destruct (in_dec String.string_dec key (map to_string (seqZ 0 (slots s v))))
      as [Hin|Hout]; [assumption|].
    rewrite F, lookup_empty in Hsome by assumption. now destruct Hsome. }
  split; [exact Hdom|].
  assert (Hset : dom (serialize o s v)
                 = list_to_set (to_string <$> seqZ 0 (slots s v)) :> gset string).
  { apply set_eq. intros key. rewrite elem_of_dom, Hdom, elem_of_list_to_set.
    rewrite list_elem_of_In. reflexivity. }
  rewrite <- size_dom, Hset, size_list_to_set.
  - rewrite length_fmap. apply length_seqZ.
  - apply NoDup_fmap_2; [|apply NoDup_seqZ]. intros j k. apply to_string_inj.
Qed.

Lemma serialized_keys_witness :
  (wf nested_shape nested_value = true /\ slots nested_shape nested_value <= 2 ^ 32) /\
  (forall key : string,
      is_Some (serialize LittleEndian nested_shape nested_value !! key)
      <-> In key (map to_string (seqZ 0 (slots nested_shape nested_value)))) /\
  size (serialize LittleEndian nested_shape nested_value)
  = Z.to_nat (slots nested_shape nested_value).
Proof.
  split; [split; [reflexivity|vm_compute; discriminate]|].
  apply (serialized_keys LittleEndian nested_shape nested_value);
    [reflexivity|vm_compute; discriminate].
Defined.

(** ** Serializing into a message that is not empty *)

Lemma overlays_id : overlays (fun S => S).
Proof. intros b m m0. reflexivity. Qed.

Lemma overlays_ext (sv sv' : Ser) :
  (forall S, sv S = sv' S) -> overlays sv -> overlays sv'.
Proof. intros He H b m m0. rewrite <- !He. apply H. Qed.

Lemma overlays_comp (sv1 sv2 : Ser) :
  overlays sv1 -> overlays sv2 -> overlays (fun S => sv2 (sv1 S)).
Proof.
  intros H1 H2 b m m0. rewrite H1, H2.
  now destruct (sv1 (MessageSerializer.mk b m)) as [b1 m1].
Qed.

Lemma overlays_slot_then (sl : slot) (sv_rest : Ser) :
  overlays sv_rest ->
  overlays
    (fun S =>
       let (key, bs) := dispenseKey (sbase S) in
       let S2 := sv_rest (MessageSerializer.mk bs (smsg S)) in
       MessageSerializer.mk (sbase S2) (<[to_string key := sl]> (smsg S2))).
Proof.
  intros H b m m0. cbn [dispenseKey sbase smsg MessageSerializer.base
                         MessageSerializer.m_wiscMsg].
  rewrite H. cbn [sbase smsg MessageSerializer.base MessageSerializer.m_wiscMsg].
  now rewrite insert_union_l.
Qed.

Lemma overlays_slot (sl : slot) :
  overlays
    (fun S =>
       let (key, bs) := dispenseKey (sbase S) in
       MessageSerializer.mk bs (<[to_string key := sl]> (smsg S))).
Proof.
  apply (overlays_ext _ _ (fun _ => eq_refl) (overlays_slot_then sl _ overlays_id)).
Qed.

Lemma overlays_fold {A : Type} (save_elem : A -> Ser) (value : list A) :
  (forall elem, overlays (save_elem elem)) ->
  overlays (fun S => fold_left (fun S elem => save_elem elem S) value S).
Proof.
  intros H. induction value as [|elem value IH]; [apply overlays_id|].
  cbn [fold_left]. apply (overlays_comp _ _ (H elem) IH).
Qed.

Lemma overlays_vector {A : Type} (save_elem : A -> Ser) (value : list A) :
  (forall elem, overlays (save_elem elem)) ->
  overlays (serialize_vector_save save_elem value).
Proof.
  intros H. unfold serialize_vector_save.
  apply (overlays_comp (saveImpl_uint32 _)
           (fun S => fold_left (fun S elem => save_elem elem S) (firstn _ value) S)).
  - apply (overlays_slot (Word _)).
  - now apply overlays_fold.
Qed.

Lemma overlays_map {K A : Type} (keys_slot : list K -> slot)
    (save_elem : A -> Ser) (value : list (K * A)) :
  (forall elem, overlays (save_elem elem)) ->
  overlays (fun S =>
              let (keysKey, b) := dispenseKey (sbase S) in
              let '(keys, S2) :=
                saveImpl_map_loop save_elem value (MessageSerializer.mk b (smsg S)) in
              MessageSerializer.mk (sbase S2)
                (<[to_string keysKey := keys_slot keys]> (smsg S2))).
Proof.
  intros H.
  apply (overlays_ext
           (fun S =>
              let (key, bs) := dispenseKey (sbase S) in
              let S2 := fold_left (fun S elem => save_elem (snd elem) S) value
                          (MessageSerializer.mk bs (smsg S)) in
              MessageSerializer.mk (sbase S2)
                (<[to_string key := keys_slot (map fst value)]> (smsg S2)))).
  - intros S. cbn [dispenseKey]. now rewrite saveImpl_map_loop_eq.
  - apply overlays_slot_then.
    apply (overlays_fold (fun elem => save_elem (snd elem))). auto.
Qed.

Lemma saveImpl_overlays (o : endianness) :
  (forall s (v : denote s), overlays (saveImpl o s v)) /\
  (forall ts (v : denotes ts), overlays (saveImpl_tuple o ts v)).
Proof.
  apply shape_shapes_ind; try (intros; apply (overlays_slot (Word _)));
    try (intros; apply (overlays_slot (Text _))).
  - intros t IH v. destruct t;
      try (apply (overlays_slot (WordArray _)));
      try (apply (overlays_slot (TextArray _)));
      apply overlays_vector, IH.
  - intros t IH n v. destruct t;
      try (apply (overlays_slot (BinaryData _)));
      apply overlays_fold, IH.
  - intros t IH v. apply (overlays_map WordArray), IH.
  - intros t IH v. apply (overlays_map TextArray), IH.
  - intros ts IH v. apply IH.
  - intros ts IH v. apply IH.
  - intros v. apply overlays_id.
  - intros t IHt ts IHts v. cbn [saveImpl_tuple].
    apply (overlays_comp _ _ (IHt (fst v)) (IHts (snd v))).
Qed.

(** X4: serializing a value with a new serializer into a message that
    already has slots gives the slots of the value laid over the old ones:
    a slot of the old message stays exactly when the value has no slot
    under its key; the keys allocated are the same as for an empty
    message. *)
Theorem serialize_over (o : endianness) (s : shape) (v : denote s) (msg0 : RPCMsg) :
  smsg (saveImpl o s v (MessageSerializer.make msg0)) = serialize o s v ∪ msg0 /\
  sbase (saveImpl o s v (MessageSerializer.make msg0))
  = sbase (saveImpl o s v (MessageSerializer.make ∅)).
Proof.
  pose proof (proj1 (saveImpl_overlays o) s v fresh ∅ msg0) as H.
  rewrite (left_id_L ∅ (∪) msg0) in H. unfold MessageSerializer.make, serialize.
  rewrite H. split; reflexivity.
Qed.

(** X5: deserialization looks at the slots of its own keys only: a message
    that has, under the keys "0", "1", ... of a fitting value, the slots of
    its serialization gives back the value, whatever else it holds. *)
Theorem deserialize_own_slots (o : endianness) (s : shape) (v : denote s) (msg : RPCMsg) :
  fits s v = true ->
  (forall j, 0 <= j < nkeys s v -> msg !! to_string j = serialize o s v !! to_string j) ->
  deserialize o s msg = Ok v.
Proof.
  intros (Hwf & Hshort & Hn)%fits_spec Hmsg.
  destruct (proj1 (saveImpl_loadImpl_ok o) s v Hwf Hshort) as [_ H].
  destruct (H (MessageSerializer.make ∅)) as (_ & _ & _ & E4); [cbn; lia|cbn; lia|].
  unfold deserialize.
  rewrite (E4 (MessageDeserializer.make msg)); [reflexivity|reflexivity|].
  intros j Hj. apply Hmsg. cbn in Hj. lia.
Qed.

Lemma deserialize_own_slots_witness :
  fits (TTuple example_args) example_value = true /\
  deserialize LittleEndian (TTuple example_args)
    (<["rpcerror"%string := Text "none"]>
       (serialize LittleEndian (TTuple example_args) example_value))
  = Ok example_value.
Proof.
  split; [reflexivity|].
  apply (deserialize_own_slots LittleEndian (TTuple example_args) example_value);
    [reflexivity|].
  intros j Hj. apply lookup_insert_ne.
  assert (Hj' : j = 0 \/ j = 1 \/ j = 2) by (cbn in Hj; lia).
  destruct Hj' as [Hj'|[Hj'|Hj']]; subst j; discriminate.
Defined.

(** ** What a load does with a message that lacks its first slot *)

Lemma slot_read_fails {A : Type} (get : string -> RPCMsg -> res A) (k : slot_kind)
    (D : MessageDeserializer.t) (e : error) :
  (forall key m, read_error k (m !! key) = Some e -> get key m = Err e) ->
  read_error k (dmsg D !! to_string (_keyIdx (dbase D))) = Some e ->
  (let (key, b) := dispenseKey (dbase D) in
   (get (to_string key) (dmsg D), MessageDeserializer.mk b (dmsg D)))
  = (Err e, after_one_key D).
Proof. intros Hget Hr. cbn [dispenseKey]. now rewrite (Hget _ _ Hr). Qed.

Lemma read_error_cases (k : slot_kind) (found : option slot) (e : error) :
  read_error k found = Some e ->
  (found = None /\ e = MissingKey) \/
  (exists sl, found = Some sl /\ kind_of sl <> k /\ e = TypeMismatch).
Proof.
  unfold read_error. destruct found as [sl|]; [|intros [= <-]; now left].
  destruct (decide (kind_of sl = k)); [discriminate|]. intros [= <-]. right. eauto.
Qed.

Lemma get_word_fails (key : string) (m : RPCMsg) (e : error) :
  read_error KWord (m !! key) = Some e -> get_word key m = Err e.
Proof.
  intros H. unfold get_word.
  apply read_error_cases in H as [[-> ->]|(sl & -> & Hk & ->)]; [reflexivity|].
  now destruct sl.
Qed.

Lemma get_word_array_fails (key : string) (m : RPCMsg) (e : error) :
  read_error KWordArray (m !! key) = Some e -> get_word_array key m = Err e.
Proof.
  intros H. unfold get_word_array.
  apply read_error_cases in H as [[-> ->]|(sl & -> & Hk & ->)]; [reflexivity|].
  now destruct sl.
Qed.

Lemma get_string_fails (key : string) (m : RPCMsg) (e : error) :
  read_error KText (m !! key) = Some e -> get_string key m = Err e.
Proof.
  intros H. unfold get_string.
  apply read_error_cases in H as [[-> ->]|(sl & -> & Hk & ->)]; [reflexivity|].
  now destruct sl.
Qed.

Lemma get_string_array_fails (key : string) (m : RPCMsg) (e : error) :
  read_error KTextArray (m !! key) = Some e -> get_string_array key m = Err e.
Proof.
  intros H. unfold get_string_array.
  apply read_error_cases in H as [[-> ->]|(sl & -> & Hk & ->)]; [reflexivity|].
  now destruct sl.
Qed.

Lemma get_binarydata_fails (key : string) (n : nat) (m : RPCMsg) (e : error) :
  read_error KBinaryData (m !! key) = Some e -> get_binarydata key n m = Err e.
Proof.
  intros H. unfold get_binarydata.
  apply read_error_cases in H as [[-> ->]|(sl & -> & Hk & ->)]; [reflexivity|].
  now destruct sl.
Qed.

Lemma bind_fails {A B : Type} (c : De A) (k : A -> De B) (D D' : MessageDeserializer.t)
    (e : error) :
  c D = (Err e, D') -> bind c k D = (Err e, D').
Proof. intros H. unfold bind. now rewrite H. Qed.

Lemma bind_returns {A B : Type} (c : De A) (k : A -> De B) (D D' : MessageDeserializer.t)
    (a : A) :
  c D = (Ok a, D') -> bind c k D = k a D'.
Proof. intros H. unfold bind. now rewrite H. Qed.

Lemma loadImpl_uint32_fails (D : MessageDeserializer.t) (e : error) :
  read_error KWord (dmsg D !! to_string (_keyIdx (dbase D))) = Some e ->
  loadImpl_uint32 D = (Err e, after_one_key D).
Proof.
  intros Hr. apply (slot_read_fails get_word KWord D e); [|exact Hr].
  intros key m. apply get_word_fails.
Qed.

Lemma loadImpl_string_fails (D : MessageDeserializer.t) (e : error) :
  read_error KText (dmsg D !! to_string (_keyIdx (dbase D))) = Some e ->
  loadImpl_string D = (Err e, after_one_key D).
Proof.
  intros Hr. apply (slot_read_fails get_string KText D e); [|exact Hr].
  intros key m. apply get_string_fails.
Qed.

Lemma loadImpl_word_array_fails (D : MessageDeserializer.t) (e : error) :
  read_error KWordArray (dmsg D !! to_string (_keyIdx (dbase D))) = Some e ->
  loadImpl_word_array D = (Err e, after_one_key D).
Proof.
  intros Hr. apply (slot_read_fails get_word_array KWordArray D e); [|exact Hr].
  intros key m. apply get_word_array_fails.
Qed.

Lemma loadImpl_string_array_fails (D : MessageDeserializer.t) (e : error) :
  read_error KTextArray (dmsg D !! to_string (_keyIdx (dbase D))) = Some e ->
  loadImpl_string_array D = (Err e, after_one_key D).
Proof.
  intros Hr. apply (slot_read_fails get_string_array KTextArray D e); [|exact Hr].
  intros key m. apply get_string_array_fails.
Qed.

Lemma load_elems_slotless {A : Type} (load_elem : De A) (v : A) (n : nat)
    (D : MessageDeserializer.t) :
  (forall D, load_elem D = (Ok v, D)) ->
  load_elems load_elem n D = (Ok (repeat v n), D).
Proof.
  intros H. induction n as [|n IH]; [reflexivity|].
  cbn [load_elems repeat]. rewrite (bind_returns _ _ _ _ _ (H D)).
  now rewrite (bind_returns _ _ _ _ _ IH).
Qed.

Lemma loadImpl_slotless (o : endianness) :
  (forall s, first_kind s = None -> exists v, forall D, loadImpl o s D = (Ok v, D)) /\
  (forall ts, first_kind_tuple ts = None ->
              exists v, forall D, loadImpl_tuple o ts D = (Ok v, D)).
Proof.
  apply shape_shapes_ind; try discriminate.
  - intros t IH n. cbn [first_kind loadImpl].
    destruct (integral t) as [[[size to_Z] of_Z]|]; [discriminate|].
    destruct n as [|n]; [intros _; now exists []|].
    intros [v Hv]%IH. exists (repeat v (S n)). intros D.
    now apply load_elems_slotless.
  - intros ts IH. exact IH.
  - intros ts IH. exact IH.
  - intros _. now exists tt.
  - intros t IHt ts IHts. cbn [first_kind_tuple loadImpl_tuple].
    destruct (first_kind t); [discriminate|]. intros Hts.
    destruct (IHt eq_refl) as [v Hv]. destruct (IHts Hts) as [vs Hvs].
    exists (v, vs). intros D.
    rewrite (bind_returns _ _ _ _ _ (Hv D)). now rewrite (bind_returns _ _ _ _ _ (Hvs D)).
Qed.

Lemma loadImpl_first_read_fails (o : endianness) :
  (forall s k D e,
      first_kind s = Some k ->
      read_error k (dmsg D !! to_string (_keyIdx (dbase D))) = Some e ->
      loadImpl o s D = (Err e, after_one_key D)) /\
  (forall ts k D e,
      first_kind_tuple ts = Some k ->
      read_error k (dmsg D !! to_string (_keyIdx (dbase D))) = Some e ->
      loadImpl_tuple o ts D = (Err e, after_one_key D)).
Proof.
  apply shape_shapes_ind.
  - intros k D e [= <-] Hr. now apply loadImpl_uint32_fails.
  - intros k D e [= <-] Hr. now apply bind_fails, loadImpl_uint32_fails.
  - intros k D e [= <-] Hr. now apply bind_fails, loadImpl_uint32_fails.
  - intros k D e [= <-] Hr. now apply bind_fails, loadImpl_uint32_fails.
  - intros k D e [= <-] Hr. now apply bind_fails, loadImpl_uint32_fails.
  - intros k D e [= <-] Hr. now apply loadImpl_string_fails.
  - intros t _ k D e [= <-] Hr.
    destruct t; cbn [loadImpl];
      try (now apply bind_fails, loadImpl_uint32_fails).
    + now apply loadImpl_word_array_fails.
    + now apply loadImpl_string_array_fails.
  - intros t IH n k D e. cbn [first_kind loadImpl].
    destruct (integral t) as [[[size to_Z] of_Z]|].
    + intros [= <-] Hr. apply bind_fails. unfold loadImpl_integral_array.
      cbn [dispenseKey]. now rewrite (get_binarydata_fails _ _ _ _ Hr).
    + destruct n as [|n]; [discriminate|]. intros Hk Hr.
      unfold serialize_array_load. cbn [load_elems]. apply bind_fails. now apply (IH k).
  - intros t _ k D e [= <-] Hr. apply bind_fails.
    now apply loadImpl_word_array_fails.
  - intros t _ k D e [= <-] Hr. apply bind_fails.
    now apply loadImpl_string_array_fails.
  - intros ts IH. exact IH.
  - intros ts IH. exact IH.
  - discriminate.
  - intros t IHt ts IHts k D e. cbn [first_kind_tuple loadImpl_tuple].
    destruct (first_kind t) as [k'|] eqn:Hk.
    + intros [= <-] Hr. apply bind_fails. now apply (IHt k').
    + intros Hts Hr. destruct (proj1 (loadImpl_slotless o) t Hk) as [v Hv].
      rewrite (bind_returns _ _ _ _ _ (Hv D)). apply bind_fails. now apply (IHts k).
Qed.

(** X6: a load whose shape needs a slot and whose next key is not in the
    message throws [MissingKey] after allocating that one key; so
    deserializing an empty message throws [MissingKey] for every shape
    that has a slot. *)
Theorem load_missing_key (o : endianness) (s : shape) (k : slot_kind)
    (D : MessageDeserializer.t) :
  first_kind s = Some k ->
  dmsg D !! to_string (_keyIdx (dbase D)) = None ->
  loadImpl o s D = (Err MissingKey, after_one_key D) /\
  deserialize o s ∅ = Err MissingKey /\
  deserialize_keys o s ∅ = [0].
Proof.
  intros Hk Hnone.
  assert (He : loadImpl o s (MessageDeserializer.make ∅)
               = (Err MissingKey, after_one_key (MessageDeserializer.make ∅))).
  { apply (proj1 (loadImpl_first_read_fails o) s k); [assumption|].
    cbn [MessageDeserializer.make dmsg MessageDeserializer.m_wiscMsg].
    now rewrite lookup_empty. }
  split; [|split].
  - apply (proj1 (loadImpl_first_read_fails o) s k); [assumption|]. now rewrite Hnone.
  - unfold deserialize. now rewrite He.
  - unfold deserialize_keys. now rewrite He.
Qed.

Lemma load_missing_key_witness :
  (first_kind nested_shape = Some KWord /\
   dmsg (MessageDeserializer.make ∅)
     !! to_string (_keyIdx (dbase (MessageDeserializer.make ∅))) = None) /\
  loadImpl BigEndian nested_shape (MessageDeserializer.make ∅)
  = (Err MissingKey, after_one_key (MessageDeserializer.make ∅)) /\
  deserialize BigEndian nested_shape ∅ = Err MissingKey /\
  deserialize_keys BigEndian nested_shape ∅ = [0].
Proof.
  split; [split; reflexivity|].
  apply (load_missing_key BigEndian nested_shape KWord (MessageDeserializer.make ∅));
    reflexivity.
Defined.

(** X7: a load that finds, under its next key, a slot of another kind than
    the one its shape starts with throws [TypeMismatch] after allocating
    that one key. *)
Theorem load_type_mismatch (o : endianness) (s : shape) (k : slot_kind)
    (D : MessageDeserializer.t) (sl : slot) :
  first_kind s = Some k ->
  dmsg D !! to_string (_keyIdx (dbase D)) = Some sl ->
  kind_of sl <> k ->
  loadImpl o s D = (Err TypeMismatch, after_one_key D).
Proof.
  intros Hk Hsome Hne.
  apply (proj1 (loadImpl_first_read_fails o) s k); [assumption|].
  rewrite Hsome. unfold read_error. now rewrite decide_False.
Qed.

Lemma load_type_mismatch_witness :
  (first_kind (TArray TUInt32 3) = Some KBinaryData /\
   serialize LittleEndian (TVector TUInt32) [1; 2; 3] !! to_string 0
   = Some (WordArray [1; 2; 3]) /\
   kind_of (WordArray [1; 2; 3]) <> KBinaryData) /\
  loadImpl LittleEndian (TArray TUInt32 3)
    (MessageDeserializer.make (serialize LittleEndian (TVector TUInt32) [1; 2; 3]))
  = (Err TypeMismatch,
     after_one_key
       (MessageDeserializer.make (serialize LittleEndian (TVector TUInt32) [1; 2; 3]))).
Proof.
  split; [repeat split; discriminate|].
  apply (load_type_mismatch LittleEndian (TArray TUInt32 3) KBinaryData
           (MessageDeserializer.make (serialize LittleEndian (TVector TUInt32) [1; 2; 3]))
           (WordArray [1; 2; 3])); [reflexivity|reflexivity|discriminate].
Defined.

(** ** Shapes without slots *)

Lemma fold_left_id {A St : Type} (f : St -> A -> St) (l : list A) (s0 : St) :
  Forall (fun a => forall s, f s a = s) l -> fold_left f l s0 = s0.
Proof.
  intros H. revert s0. induction H as [|a l Ha _ IH]; intros s0; [reflexivity|].
  cbn [fold_left]. now rewrite Ha, IH.
Qed.

Lemma all_equal_repeat {A : Type} (v : A) (l : list A) (n : nat) :
  List.length l = n -> Forall (fun a => a = v) l -> l = repeat v n.
Proof.
  intros <- H. induction H as [|a l -> _ IH]; [reflexivity|].
  cbn [List.length repeat]. now rewrite <- IH.
Qed.

Lemma slotless_one_value (o : endianness) :
  (forall s, first_kind s = None ->
             exists v, (forall D, loadImpl o s D = (Ok v, D)) /\
                       forall v', wf s v' = true ->
                                  v' = v /\ forall S, saveImpl o s v' S = S) /\
  (forall ts, first_kind_tuple ts = None ->
              exists v, (forall D, loadImpl_tuple o ts D = (Ok v, D)) /\
                        forall v', wf_tuple ts v' = true ->
                                   v' = v /\ forall S, saveImpl_tuple o ts v' S = S).
Proof.
  apply shape_shapes_ind; try discriminate.
  - intros t IH n. cbn [first_kind loadImpl saveImpl wf].
    destruct (integral t) as [[[size to_Z] of_Z]|]; [discriminate|].
    destruct n as [|n].
    + intros _. exists []. split; [reflexivity|].
      intros v' [Hlen _]%andb_prop. apply Nat.eqb_eq in Hlen.
      destruct v'; [now split|discriminate Hlen].
    + intros [v [Hv Huniq]]%IH. exists (repeat v (S n)).
      split; [intros D; now apply load_elems_slotless|].
      intros v' [Hlen Hwf]%andb_prop. apply Nat.eqb_eq in Hlen.
      assert (Hall : Forall (fun a => a = v /\ forall S, saveImpl o t a S = S) v').
      { apply Forall_forall. intros a Ha. apply Huniq.
        apply (proj1 (forallb_forall _ _) Hwf). now apply list_elem_of_In. }
      split.
      * apply all_equal_repeat; [exact Hlen|].
        eapply Forall_impl; [exact Hall|]. now intros a [Ha _].
      * intros S. unfold serialize_array_save. apply fold_left_id.
        eapply Forall_impl; [exact Hall|]. now intros a [_ Ha].
  - intros ts IH. exact IH.
  - intros ts IH. exact IH.
  - intros _. exists tt. split; [reflexivity|]. intros []. now split.
  - intros t IHt ts IHts. cbn [first_kind_tuple loadImpl_tuple saveImpl_tuple wf_tuple].
    destruct (first_kind t); [discriminate|]. intros Hts.
    destruct (IHt eq_refl) as (v & Hv & Hv'). destruct (IHts Hts) as (vs & Hvs & Hvs').
    exists (v, vs). split.
    + intros D. rewrite (bind_returns _ _ _ _ _ (Hv D)).
      now rewrite (bind_returns _ _ _ _ _ (Hvs D)).
    + intros [a b] [Ha Hb]%andb_prop. cbn [fst snd] in *.
      destruct (Hv' a Ha) as [-> Sa]. destruct (Hvs' b Hb) as [-> Sb].
      split; [reflexivity|]. intros S. now rewrite Sa, Sb.
Qed.

(** X8: a shape that needs no slot (the empty tuple, an array of no
    element, and what is made of them) has one well-formed value;
    serializing it allocates no key and writes nothing, and deserializing
    it returns that value from any message, an empty one too, without
    allocating a key. *)
Theorem slotless_shapes (o : endianness) (s : shape) :
  first_kind s = None ->
  exists v : denote s,
    (forall D, loadImpl o s D = (Ok v, D)) /\
    (forall msg, deserialize o s msg = Ok v) /\
    (forall v', wf s v' = true -> v' = v) /\
    (forall v' S, wf s v' = true -> saveImpl o s v' S = S).
Proof.
  intros Hs. destruct (proj1 (slotless_one_value o) s Hs) as (v & Hv & Hv').
  exists v. split; [exact Hv|]. split; [|split].
  - intros msg. unfold deserialize. now rewrite Hv.
  - intros v' Hwf. apply (Hv' v' Hwf).
  - intros v' S Hwf. apply (Hv' v' Hwf).
Qed.

Lemma slotless_shapes_witness :
  first_kind (TTuple (SCons (TArray (TStruct SNil) 2) (SCons (TArray TString 0) SNil))) = None /\
  exists v : denote (TTuple (SCons (TArray (TStruct SNil) 2) (SCons (TArray TString 0) SNil))),
    (forall D, loadImpl LittleEndian
                 (TTuple (SCons (TArray (TStruct SNil) 2) (SCons (TArray TString 0) SNil))) D
               = (Ok v, D)) /\
    (forall msg, deserialize LittleEndian
                   (TTuple (SCons (TArray (TStruct SNil) 2) (SCons (TArray TString 0) SNil)))
                   msg = Ok v) /\
    (forall v', wf (TTuple (SCons (TArray (TStruct SNil) 2) (SCons (TArray TString 0) SNil)))
                   v' = true -> v' = v) /\
    (forall v' S, wf (TTuple (SCons (TArray (TStruct SNil) 2) (SCons (TArray TString 0) SNil)))
                     v' = true ->
                  saveImpl LittleEndian
                    (TTuple (SCons (TArray (TStruct SNil) 2) (SCons (TArray TString 0) SNil)))
                    v' S = S).
Proof.
  split; [reflexivity|].
  apply (slotless_shapes LittleEndian
           (TTuple (SCons (TArray (TStruct SNil) 2) (SCons (TArray TString 0) SNil)))).
  reflexivity.
Defined.

(** ** Maps read from a message *)

Lemma String_ltb_irrefl (a : string) : String.ltb a a = false.
Proof.
  unfold String.ltb. pose proof (String.compare_antisym a a) as H.
  now destruct (String.compare a a).
Qed.

Lemma String_ltb_total (a b : string) :
  String.ltb a b = false -> String.ltb b a = false -> a = b.
Proof.
  unfold String.ltb. intros H1 H2. apply String.compare_eq_iff.
  rewrite (String.compare_antisym b a) in H2.
  now destruct (String.compare a b).
Qed.

Lemma String_compare_trans (a b c : string) :
  String.compare a b = Lt -> String.compare b c = Lt -> String.compare a c = Lt.
Proof.
  revert b c. induction a as [|x a IH]; intros [|y b] [|z c]; cbn [String.compare];
    try discriminate; try reflexivity.
  unfold Ascii.compare.
  destruct (N.compare_spec (Ascii.N_of_ascii x) (Ascii.N_of_ascii y)) as [Hxy|Hxy|Hxy];
    try discriminate;
    destruct (N.compare_spec (Ascii.N_of_ascii y) (Ascii.N_of_ascii z)) as [Hyz|Hyz|Hyz];
    try discriminate; intros H1 H2.
  - rewrite Hxy, Hyz, N.compare_refl. now apply (IH b c).
  - rewrite Hxy. now apply N.compare_lt_iff in Hyz as ->.
  - rewrite <- Hyz. now apply N.compare_lt_iff in Hxy as ->.
  - assert (Hxz : (Ascii.N_of_ascii x < Ascii.N_of_ascii z)%N) by lia.
    now apply N.compare_lt_iff in Hxz as ->.
Qed.

Lemma String_ltb_trans (a b c : string) :
  String.ltb a b = true -> String.ltb b c = true -> String.ltb a c = true.
Proof.
  unfold String.ltb. intros H1 H2.
  rewrite (String_compare_trans a b c); [reflexivity| |].
  - now destruct (String.compare a b).
  - now destruct (String.compare b c).
Qed.

Lemma emplace_keys {K V : Type} (lt : K -> K -> bool) (key : K) (val : V)
    (m : list (K * V)) (k : K) :
  In k (map fst (emplace lt key val m)) -> k = key \/ In k (map fst m).
Proof.
  induction m as [|[k' v'] m IH]; cbn [emplace map fst In].
  - intros [<-|[]]. now left.
  - destruct (lt key k'); [|destruct (lt k' key)]; cbn [map fst In].
    + intros [<-|[<-|Hin]]; auto.
    + intros [<-|Hin]; [auto|]. destruct (IH Hin); auto.
    + intros [<-|Hin]; auto.
Qed.

Section Emplace.
Context {K V : Type} `{EqDecision K} (lt : K -> K -> bool).
Hypothesis lt_irrefl : forall a, lt a a = false.
Hypothesis lt_trans : forall a b c, lt a b = true -> lt b c = true -> lt a c = true.
Hypothesis lt_total : forall a b, lt a b = false -> lt b a = false -> a = b.

Lemma emplace_increasing (key : K) (val : V) (m : list (K * V)) :
  increasing lt (map fst m) = true ->
  increasing lt (map fst (emplace lt key val m)) = true.
Proof using lt_trans.
  induction m as [|[k' v'] m IH]; [reflexivity|].
  cbn [emplace map fst increasing]. intros [Hk' Hm]%andb_prop.
  destruct (lt key k') eqn:E1; [|destruct (lt k' key) eqn:E2];
    cbn [map fst increasing forallb].
  - rewrite E1, Hk', Hm. cbn [andb]. rewrite andb_true_r.
    apply forallb_forall. intros x Hx. apply (lt_trans key k' x E1).
    apply (proj1 (forallb_forall _ _) Hk'). exact Hx.
  - apply andb_true_intro. split; [|now apply IH].
    apply forallb_forall. intros x Hx. apply emplace_keys in Hx.
    destruct Hx as [->|Hx]; [exact E2|].
    apply (proj1 (forallb_forall _ _) Hk'). exact Hx.
  - now rewrite Hk', Hm.
Qed.

Lemma first_value_above (key : K) (m : list (K * V)) :
  forallb (lt key) (map fst m) = true -> first_value key m = None.
Proof.
  induction m as [|[k' v'] m IH]; [reflexivity|].
  cbn [map fst forallb first_value]. intros [Hk' Hm]%andb_prop.
  destruct (decide (key = k')) as [<-|_]; [|now apply IH].
  now rewrite lt_irrefl in Hk'.
Qed.

Lemma first_value_emplace (key : K) (val : V) (m : list (K * V)) (k : K) :
  increasing lt (map fst m) = true ->
  first_value k (emplace lt key val m)
  = match first_value k m with
    | Some v => Some v
    | None => if decide (k = key) then Some val else None
    end.
Proof.
  induction m as [|[k' v'] m IH]; [reflexivity|].
  cbn [emplace map fst increasing]. intros [Hk' Hm]%andb_prop.
  destruct (lt key k') eqn:E1; [|destruct (lt k' key) eqn:E2].
  - cbn [first_value]. destruct (decide (k = key)) as [->|Hne].
    + destruct (decide (key = k')) as [<-|_]; [now rewrite lt_irrefl in E1|].
      rewrite first_value_above; [reflexivity|].
      apply forallb_forall. intros x Hx. apply (lt_trans key k' x E1).
      apply (proj1 (forallb_forall _ _) Hk'). exact Hx.
    + now destruct (decide (k = k')); [|destruct (first_value k m)].
  - cbn [first_value]. destruct (decide (k = k')); [reflexivity|]. now apply IH.
  - assert (key = k') as <- by now apply lt_total.
    cbn [first_value]. destruct (decide (k = key)); [reflexivity|].
    now destruct (first_value k m).
Qed.

Lemma emplace_all_increasing (keys : list K) (vals : list V) (m : list (K * V)) :
  increasing lt (map fst m) = true ->
  increasing lt (map fst (emplace_all lt keys vals m)) = true.
Proof using lt_trans.
  unfold emplace_all. generalize (zip keys vals) as kvs. intros kvs. revert m.
  induction kvs as [|[k v] kvs IH]; intros m Hm; [exact Hm|].
  cbn [fold_left fst snd]. now apply IH, emplace_increasing.
Qed.

Lemma first_value_emplace_all (keys : list K) (vals : list V) (m : list (K * V)) (k : K) :
  increasing lt (map fst m) = true ->
  first_value k (emplace_all lt keys vals m)
  = match first_value k m with
    | Some v => Some v
    | None => first_value k (zip keys vals)
    end.
Proof.
  unfold emplace_all. generalize (zip keys vals) as kvs. intros kvs. revert m.
  induction kvs as [|[key val] kvs IH]; intros m Hm; cbn [fold_left fst snd first_value].
  - now destruct (first_value k m).
  - rewrite IH by now apply emplace_increasing.
    rewrite first_value_emplace by exact Hm.
    destruct (first_value k m); [reflexivity|].
    now destruct (decide (k = key)).
Qed.

End Emplace.

(** ** The values read from a message are values of their C++ type *)

Lemma msg_ok_lookup (m : RPCMsg) (key : string) (sl : slot) :
  msg_ok m = true -> m !! key = Some sl -> slot_ok sl = true.
Proof.
  unfold msg_ok. intros H Hl.
  apply (proj1 (forallb_forall _ _) H (key, sl)).
  now apply list_elem_of_In, elem_of_map_to_list.
Qed.

Lemma yields_ret {A : Type} (P : A -> Prop) (a : A) : P a -> yields P (ret a).
Proof. intros Ha D v D' _ [= <- _]. exact Ha. Qed.

Lemma yields_weaken {A : Type} (P Q : A -> Prop) (ld : De A) :
  (forall a, P a -> Q a) -> yields P ld -> yields Q ld.
Proof. intros HPQ H D v D' Hok Hl. exact (HPQ v (H D v D' Hok Hl)). Qed.

Lemma yields_bind {A B : Type} (P : A -> Prop) (Q : B -> Prop) (c : De A) (k : A -> De B) :
  msg_kept c -> yields P c -> (forall a, P a -> yields Q (k a)) -> yields Q (bind c k).
Proof.
  intros Hkept Hc Hk D v D' Hok. unfold bind. specialize (Hkept D).
  destruct (c D) as [[a|e] D1] eqn:E; [|discriminate]. cbn [snd] in Hkept.
  apply (Hk a (Hc D a D1 Hok E) D1 v D'). now rewrite Hkept.
Qed.

Lemma yields_uint32 : yields (fun w => in_range 32 w = true) loadImpl_uint32.
Proof.
  intros D v D' Hok. unfold loadImpl_uint32, get_word. cbn [dispenseKey].
  destruct (dmsg D !! _) as [[w|ws|x|xs|bs]|] eqn:E; try discriminate.
  intros [= <- _]. exact (msg_ok_lookup _ _ _ Hok E).
Qed.

Lemma yields_word_array :
  yields (fun ws => forallb (in_range 32) ws = true) loadImpl_word_array.
Proof.
  intros D v D' Hok. unfold loadImpl_word_array, get_word_array. cbn [dispenseKey].
  destruct (dmsg D !! _) as [[w|ws|x|xs|bs]|] eqn:E; try discriminate.
  intros [= <- _]. exact (msg_ok_lookup _ _ _ Hok E).
Qed.

Lemma object_value_range (o : endianness) (size : nat) (bs : list Byte.byte) :
  0 <= object_value o (firstn size bs) < 256 ^ Z.of_nat size.
Proof.
  assert (Hle : 256 ^ Z.of_nat (List.length (firstn size bs)) <= 256 ^ Z.of_nat size).
  { apply Z.pow_le_mono_r; [lia|]. pose proof (firstn_le_length size bs). lia. }
  destruct o; cbn [object_value].
  - pose proof (le_value_range (firstn size bs)). lia.
  - pose proof (le_value_range (rev (firstn size bs))) as H.
    rewrite length_rev in H. lia.
Qed.

Lemma array_of_bytes_range (o : endianness) (size n : nat) (bs : list Byte.byte) :
  List.length (array_of_bytes o size n bs) = n /\
  Forall (fun z => 0 <= z < 256 ^ Z.of_nat size) (array_of_bytes o size n bs).
Proof.
  revert bs. induction n as [|n IH]; intros bs; cbn [array_of_bytes].
  - split; [reflexivity|constructor].
  - destruct (IH (skipn size bs)) as [Hlen Hall]. split; [cbn; now rewrite Hlen|].
    constructor; [apply object_value_range|exact Hall].
Qed.

Lemma yields_integral_array (o : endianness) (size n : nat) :
  yields (fun l => List.length l = n /\ Forall (fun z => 0 <= z < 256 ^ Z.of_nat size) l)
         (loadImpl_integral_array o size n).
Proof.
  intros D v D' _. unfold loadImpl_integral_array. cbn [dispenseKey].
  destruct (get_binarydata _ _ _) as [bs|e]; [|discriminate].
  intros [= <- _]. apply array_of_bytes_range.
Qed.

Lemma yields_elems {A : Type} (P : A -> Prop) (load_elem : De A) (n : nat) :
  msg_kept load_elem -> yields P load_elem ->
  yields (fun l => List.length l = n /\ Forall P l) (load_elems load_elem n).
Proof.
  intros Hkept H. induction n as [|n IH]; cbn [load_elems].
  - apply yields_ret. split; [reflexivity|constructor].
  - apply (yields_bind P); [exact Hkept|exact H|]. intros a Ha.
    apply (yields_bind (fun l => List.length l = n /\ Forall P l));
      [now apply msg_kept_elems|exact IH|].
    intros l [Hlen Hall]. apply yields_ret. split; [cbn; now rewrite Hlen|].
    now constructor.
Qed.

Lemma yields_vector {A : Type} (P : A -> Prop) (load_elem : De A) :
  msg_kept load_elem -> yields P load_elem ->
  yields (fun l => Z.of_nat (List.length l) < 2 ^ 32 /\ Forall P l)
         (serialize_vector_load load_elem).
Proof.
  intros Hkept H. unfold serialize_vector_load.
  apply (yields_bind (fun w => in_range 32 w = true));
    [apply msg_kept_uint32|apply yields_uint32|].
  intros w Hw%in_range_spec.
  apply (yields_weaken (fun l => List.length l = Z.to_nat w /\ Forall P l));
    [|now apply yields_elems].
  intros l [Hlen Hall]. split; [lia|exact Hall].
Qed.

Lemma emplace_In {K V : Type} (lt : K -> K -> bool) (key : K) (val : V)
    (m : list (K * V)) (e : K * V) :
  In e (emplace lt key val m) -> e = (key, val) \/ In e m.
Proof.
  induction m as [|[k' v'] m IH]; cbn [emplace In].
  - intros [<-|[]]. now left.
  - destruct (lt key k'); [|destruct (lt k' key)]; cbn [In].
    + intros [<-|H]; auto.
    + intros [<-|H]; [auto|]. destruct (IH H); auto.
    + auto.
Qed.

Lemma emplace_all_In {K V : Type} (lt : K -> K -> bool) (keys : list K) (vals : list V)
    (m : list (K * V)) (e : K * V) :
  In e (emplace_all lt keys vals m) -> In e (zip keys vals) \/ In e m.
Proof.
  unfold emplace_all. generalize (zip keys vals) as kvs. intros kvs. revert m.
  induction kvs as [|[k v] kvs IH]; intros m; cbn [fold_left fst snd In]; [auto|].
  intros [H|H]%IH; [auto|]. apply emplace_In in H as [->|H]; auto.
Qed.

Lemma yields_map_loop {K A : Type} (P : A -> Prop) (Q : K -> Prop)
    (lt : K -> K -> bool) (load_elem : De A) (keys : list K) :
  (forall a b c, lt a b = true -> lt b c = true -> lt a c = true) ->
  msg_kept load_elem -> yields P load_elem -> Forall Q keys ->
  yields (fun m => increasing lt (map fst m) = true /\
                   Forall (fun e => Q (fst e) /\ P (snd e)) m)
         (loadImpl_map_loop lt load_elem keys []).
Proof.
  intros Htrans Hkept H HQ D m D' Hok. rewrite loadImpl_map_loop_elems.
  pose proof (yields_elems P load_elem (List.length keys) Hkept H D) as Hv.
  destruct (load_elems load_elem (List.length keys) D) as [[vals|e] D2]; [|discriminate].
  destruct (Hv vals D2 Hok eq_refl) as [_ Hall]. intros [= <- _]. split.
  - apply emplace_all_increasing; [exact Htrans|reflexivity].
  - apply Forall_forall. intros [k v] Hin.
    apply list_elem_of_In, emplace_all_In in Hin as [Hin|[]].
    apply list_elem_of_In in Hin. cbn [fst snd]. split.
    + apply (proj1 (Forall_forall _ _) HQ). eapply elem_of_zip_l, Hin.
    + apply (proj1 (Forall_forall _ _) Hall). eapply elem_of_zip_r, Hin.
Qed.

Lemma Forall_forallb {A : Type} (f : A -> bool) (l : list A) :
  Forall (fun a => f a = true) l -> forallb f l = true.
Proof.
  intros H. induction H as [|a l Ha _ IH]; [reflexivity|].
  cbn [forallb]. now rewrite Ha.
Qed.

Lemma Forall_wf_short {A : Type} (w s : A -> bool) (l : list A) :
  Forall (fun a => w a = true /\ s a = true) l ->
  forallb w l = true /\ forallb s l = true.
Proof.
  intros H. split; apply Forall_forallb; eapply Forall_impl; try exact H;
    now intros a [? ?].
Qed.

Lemma in_range_mod (bits z : Z) : 0 <= bits -> in_range bits (z mod 2 ^ bits) = true.
Proof.
  intros Hb. unfold in_range.
  pose proof (Z.mod_pos_bound z (2 ^ bits) (Z.pow_pos_nonneg 2 bits eq_refl Hb)). lia.
Qed.

Lemma yields_narrow {A : Type} (P : A -> Prop) (conv : Z -> A) :
  (forall w, P (conv w)) -> yields P (let* tmp := loadImpl_uint32 in ret (conv tmp)).
Proof.
  intros H. apply (yields_bind (fun _ => True));
    [apply msg_kept_uint32|intros D v D' _ _; exact I|].
  intros w _. apply yields_ret, H.
Qed.

Lemma yields_integral (o : endianness) (bits : Z) (size n : nat) :
  256 ^ Z.of_nat size = 2 ^ bits ->
  yields (fun v : list Z =>
            (List.length v =? n)%nat && forallb (in_range bits) v = true /\
            forallb (fun _ => true) v = true)
         (let* elems := loadImpl_integral_array o size n in ret (map (fun z => z) elems)).
Proof.
  intros Hbits.
  apply (yields_bind
           (fun l => List.length l = n /\ Forall (fun z => 0 <= z < 256 ^ Z.of_nat size) l));
    [apply msg_kept_integral_array|apply yields_integral_array|].
  intros l [Hlen Hall]. apply yields_ret. rewrite List.map_id. split.
  - apply andb_true_intro. split; [now apply Nat.eqb_eq|].
    apply Forall_forallb. eapply Forall_impl; [exact Hall|].
    intros z Hz. unfold in_range. rewrite Hbits in Hz. lia.
  - apply Forall_forallb, Forall_forall. reflexivity.
Qed.

Lemma loadImpl_yields (o : endianness) :
  (forall s, supported s = true ->
             yields (fun v => wf s v = true /\ short s v = true) (loadImpl o s)) /\
  (forall ts, supported_tuple ts = true ->
              yields (fun v => wf_tuple ts v = true /\ short_tuple ts v = true)
                     (loadImpl_tuple o ts)).
Proof.
  apply shape_shapes_ind.
  - (* std::uint32_t *) intros _. cbn [loadImpl wf short].
    apply (yields_weaken (fun w => in_range 32 w = true)); [now split|apply yields_uint32].
  - (* bool *) intros _. apply yields_narrow. now split.
  - (* std::uint8_t *) intros _. apply yields_narrow. intros w.
    split; [|reflexivity]. now apply (in_range_mod 8).
  - (* std::uint16_t *) intros _. apply yields_narrow. intros w.
    split; [|reflexivity]. now apply (in_range_mod 16).
  - (* float *) intros _. apply yields_narrow. now split.
  - (* std::string *) intros _ D v D' _ _. now split.
  - (* std::vector<T> *) intros t IH [Hb Ht]%andb_prop. specialize (IH Ht).
    assert (Helems :
              yields (fun v : list (denote t) =>
                        wf (TVector t) v = true /\
                        ((Z.of_nat (List.length v) <? 2 ^ 32) && forallb (short t) v) = true)
                     (serialize_vector_load (loadImpl o t))).
    { apply (yields_weaken
               (fun l => Z.of_nat (List.length l) < 2 ^ 32 /\
                         Forall (fun v => wf t v = true /\ short t v = true) l));
        [|apply yields_vector; [apply loadImpl_msg_kept|exact IH]].
      intros l [Hlen [Hw Hs]%Forall_wf_short]. cbn [wf]. rewrite Hb, Hw, Hs.
      split; [reflexivity|]. apply andb_true_intro. split; [lia|reflexivity]. }
    destruct t; try discriminate Hb; try exact Helems.
    + cbn [loadImpl wf short vector_slot is_bool negb orb andb].
      apply (yields_weaken (fun ws => forallb (in_range 32) ws = true));
        [now split|apply yields_word_array].
    + cbn [loadImpl wf short vector_slot is_bool negb orb andb].
      intros D v D' _ _. split; [|reflexivity].
      apply Forall_forallb, Forall_forall. reflexivity.
  - (* std::array<T, N> *) intros t IH n Ht. cbn [supported] in Ht. specialize (IH Ht).
    assert (Helems :
              yields (fun v : list (denote t) =>
                        (List.length v =? n)%nat && forallb (wf t) v = true /\
                        forallb (short t) v = true)
                     (serialize_array_load (loadImpl o t) n)).
    { apply (yields_weaken
               (fun l => List.length l = n /\
                         Forall (fun v => wf t v = true /\ short t v = true) l));
        [|apply yields_elems; [apply loadImpl_msg_kept|exact IH]].
      intros l [Hlen [Hw Hs]%Forall_wf_short]. rewrite Hw, Hs.
      split; [|reflexivity]. apply andb_true_intro. split; [now apply Nat.eqb_eq|reflexivity]. }
    destruct t; try exact Helems.
    + apply (yields_integral o 32 4 n). reflexivity.
    + apply (yields_integral o 8 1 n). reflexivity.
    + apply (yields_integral o 16 2 n). reflexivity.
  - (* std::map<std::uint32_t, T> *) intros t IH Ht. cbn [supported] in Ht.
    specialize (IH Ht). cbn [loadImpl wf short]. unfold loadImpl_map_uint32.
    apply (yields_bind (fun ws => forallb (in_range 32) ws = true));
      [apply msg_kept_word_array|apply yields_word_array|].
    intros keys Hkeys.
    apply (yields_weaken
             (fun m : list (Z * denote t) =>
                increasing Z.ltb (map fst m) = true /\
                Forall (fun e => in_range 32 (fst e) = true /\
                                 (wf t (snd e) = true /\ short t (snd e) = true)) m));
      [|apply (yields_map_loop (fun v => wf t v = true /\ short t v = true)
                 (fun k => in_range 32 k = true) Z.ltb (loadImpl o t) keys);
        [lia|apply loadImpl_msg_kept|exact IH
        |apply Forall_forall; intros k Hk;
         apply (proj1 (forallb_forall _ _) Hkeys); now apply list_elem_of_In]].
    intros m [Hinc Hall].
    assert (Hk : forallb (in_range 32) (map fst m) = true).
    { apply Forall_forallb, Forall_map. eapply Forall_impl; [exact Hall|]. now intros e [? _]. }
    assert (Hv : Forall (fun e => wf t (snd e) = true /\ short t (snd e) = true) m).
    { eapply Forall_impl; [exact Hall|]. now intros e [_ ?]. }
    apply (Forall_wf_short (fun e => wf t (snd e)) (fun e => short t (snd e))) in Hv
      as [Hw Hs].
    split; [|exact Hs]. apply andb_true_intro. split; [|exact Hw].
    apply andb_true_intro. split; [exact Hk|exact Hinc].
  - (* std::map<std::string, T> *) intros t IH Ht. cbn [supported] in Ht.
    specialize (IH Ht). cbn [loadImpl wf short]. unfold loadImpl_map_string.
    apply (yields_bind (fun _ => True));
      [apply msg_kept_string_array|intros D v D' _ _; exact I|].
    intros keys _.
    apply (yields_weaken
             (fun m : list (string * denote t) =>
                increasing String.ltb (map fst m) = true /\
                Forall (fun e => True /\
                                 (wf t (snd e) = true /\ short t (snd e) = true)) m));
      [|apply (yields_map_loop (fun v => wf t v = true /\ short t v = true)
                 (fun _ => True) String.ltb (loadImpl o t) keys);
        [apply String_ltb_trans|apply loadImpl_msg_kept|exact IH
        |apply Forall_forall; intros k Hk; exact I]].
    intros m [Hinc Hall].
    assert (Hv : Forall (fun e => wf t (snd e) = true /\ short t (snd e) = true) m).
    { eapply Forall_impl; [exact Hall|]. now intros e [_ ?]. }
    apply (Forall_wf_short (fun e => wf t (snd e)) (fun e => short t (snd e))) in Hv
      as [Hw Hs].
    split; [|exact Hs]. apply andb_true_intro. split; [exact Hinc|exact Hw].
  - (* std::tuple<Args...> *) intros ts IH. exact IH.
  - (* a user type *) intros ts IH. exact IH.
  - intros _. apply yields_ret. now split.
  - intros t IHt ts IHts [Ht Hts]%andb_prop. cbn [loadImpl_tuple].
    apply (yields_bind (fun v => wf t v = true /\ short t v = true));
      [apply loadImpl_msg_kept|now apply IHt|].
    intros a [Hwa Hsa].
    apply (yields_bind (fun v => wf_tuple ts v = true /\ short_tuple ts v = true));
      [apply loadImpl_msg_kept|now apply IHts|].
    intros b [Hwb Hsb]. apply yields_ret. cbn [wf_tuple short_tuple fst snd].
    now rewrite Hwa, Hsa, Hwb, Hsb.
Qed.

(** X10: what a deserializer returns is a value of its C++ type.  From a
    message whose words are [std::uint32_t], a value that is read without an
    exception has its integers within the range of their type, its arrays of
    the declared length, its maps with distinct keys in increasing order and
    its element-wise vectors shorter than [2^32]; when its encoding needs at
    most [2^32] slots it can therefore be serialized again and read back
    unchanged. *)
Theorem loaded_value_well_formed (o : endianness) (s : shape)
    (D D' : MessageDeserializer.t) (v : denote s) :
  supported s = true ->
  msg_ok (dmsg D) = true ->
  loadImpl o s D = (Ok v, D') ->
  wf s v = true /\ short s v = true /\
  (nkeys s v <= 2 ^ 32 -> deserialize o s (serialize o s v) = Ok v).
Proof.
  intros Hs Hok Hl.
  destruct (proj1 (loadImpl_yields o) s Hs D v D' Hok Hl) as [Hwf Hshort].
  split; [exact Hwf|]. split; [exact Hshort|]. intros Hn.
  unfold deserialize, serialize.
  now rewrite (proj2 (roundtrip_make o s v ∅ Hwf Hshort Hn)).
Qed.

Lemma loaded_value_well_formed_witness :
  (supported (TMapU32 TUInt8) = true /\
   msg_ok (dmsg (MessageDeserializer.make repeated_key_msg)) = true /\
   loadImpl LittleEndian (TMapU32 TUInt8) (MessageDeserializer.make repeated_key_msg)
   = (Ok [(3, 20); (5, 10)],
      MessageDeserializer.mk (mkBase 4 [0; 1; 2; 3]) repeated_key_msg)) /\
  wf (TMapU32 TUInt8) [(3, 20); (5, 10)] = true /\
  short (TMapU32 TUInt8) [(3, 20); (5, 10)] = true /\
  (nkeys (TMapU32 TUInt8) [(3, 20); (5, 10)] <= 2 ^ 32 ->
   deserialize LittleEndian (TMapU32 TUInt8)
     (serialize LittleEndian (TMapU32 TUInt8) [(3, 20); (5, 10)])
   = Ok [(3, 20); (5, 10)]).
Proof.
  split; [repeat split; vm_compute; reflexivity|].
  apply (loaded_value_well_formed LittleEndian (TMapU32 TUInt8)
           (MessageDeserializer.make repeated_key_msg)
           (MessageDeserializer.mk (mkBase 4 [0; 1; 2; 3]) repeated_key_msg)
           [(3, 20); (5, 10)]); vm_compute; reflexivity.
Defined.

(** ** The encoding marks no boundary *)

(** X11: a user type whose [serialize] does [msg & m1 & m2 ...] (and a
    [std::tuple]) is encoded as its members one after the other, with
    nothing before, between or after them: a structure followed by further
    arguments is written exactly as the members and these arguments
    written as one flat argument list, and reading the one is reading the
    other, value for value, error for error and key for key. *)
Theorem members_in_line (o : endianness) (ts1 ts2 : shapes) :
  (forall (v1 : denotes ts1) (v2 : denotes ts2) (S : MessageSerializer.t),
      saveImpl o (TTuple (SCons (TStruct ts1) ts2)) (v1, v2) S
      = saveImpl o (TTuple (sapp ts1 ts2)) (vapp ts1 ts2 v1 v2) S) /\
  (forall D : MessageDeserializer.t,
      loadImpl o (TTuple (sapp ts1 ts2)) D
      = match loadImpl o (TTuple (SCons (TStruct ts1) ts2)) D with
        | (Ok v, D') => (Ok (vapp ts1 ts2 (fst v) (snd v)), D')
        | (Err e, D') => (Err e, D')
        end).
Proof.
  split.
  - intros v1 v2 S. cbn [saveImpl saveImpl_tuple fst snd].
    now rewrite saveImpl_tuple_app.
  - intros D. cbn [loadImpl loadImpl_tuple]. rewrite loadImpl_tuple_app.
    unfold bind, ret.
    destruct (loadImpl_tuple o ts1 D) as [[a1|e] D1]; [|reflexivity].
    now destruct (loadImpl_tuple o ts2 D1) as [[a2|e] D2].
Qed.

Lemma fold_left_as_args (o : endianness) (t : shape) (l : list (denote t))
    (S : MessageSerializer.t) :
  fold_left (fun S elem => saveImpl o t elem S) l S
  = saveImpl_tuple o (copies t (List.length l)) (as_args t l) S.
Proof.
  revert S. induction l as [|x l IH]; intros S; [reflexivity|].
  cbn [fold_left List.length copies as_args saveImpl_tuple fst snd]. apply IH.
Qed.

Lemma load_elems_of_args (o : endianness) (t : shape) (n : nat) (D : MessageDeserializer.t) :
  load_elems (loadImpl o t) n D
  = match loadImpl_tuple o (copies t n) D with
    | (Ok args, D') => (Ok (of_args t n args), D')
    | (Err e, D') => (Err e, D')
    end.
Proof.
  revert D. induction n as [|n IH]; intros D; [reflexivity|].
  cbn [load_elems copies loadImpl_tuple]. unfold bind, ret.
  destruct (loadImpl o t D) as [[a|e] D1]; [|reflexivity].
  rewrite IH. now destruct (loadImpl_tuple o (copies t n) D1) as [[args|e] D2].
Qed.

(** X12: a [std::array<T, N>] whose elements are not integers (or are
    [bool]) is encoded as [N] arguments of type [T]: its length is not
    written, and writing or reading the array is writing or reading its
    elements as one argument list. *)
Theorem array_as_arguments (o : endianness) (t : shape) (n : nat) :
  integral t = None ->
  (forall (l : list (denote t)) (S : MessageSerializer.t),
      saveImpl o (TArray t n) l S
      = saveImpl o (TTuple (copies t (List.length l))) (as_args t l) S) /\
  (forall D : MessageDeserializer.t,
      loadImpl o (TArray t n) D
      = match loadImpl o (TTuple (copies t n)) D with
        | (Ok args, D') => (Ok (of_args t n args), D')
        | (Err e, D') => (Err e, D')
        end).
Proof.
  intros Ht. split.
  - intros l S. cbn [saveImpl]. rewrite Ht. apply fold_left_as_args.
  - intros D. cbn [loadImpl]. rewrite Ht. apply load_elems_of_args.
Qed.

Lemma array_as_arguments_witness :
  integral (TArray TBool 2) = None /\
  (forall (l : list (denote (TArray TBool 2))) (S : MessageSerializer.t),
      saveImpl LittleEndian (TArray (TArray TBool 2) 3) l S
      = saveImpl LittleEndian (TTuple (copies (TArray TBool 2) (List.length l)))
          (as_args (TArray TBool 2) l) S) /\
  (forall D : MessageDeserializer.t,
      loadImpl LittleEndian (TArray (TArray TBool 2) 3) D
      = match loadImpl LittleEndian (TTuple (copies (TArray TBool 2) 3)) D with
        | (Ok args, D') => (Ok (of_args (TArray TBool 2) 3 args), D')
        | (Err e, D') => (Err e, D')
        end).
Proof.
  split; [reflexivity|].
  apply (array_as_arguments LittleEndian (TArray TBool 2) 3). reflexivity.
Defined.

(** X13: a [std::vector<T>] other than [std::vector<std::uint32_t>] and
    [std::vector<std::string>], of fewer than [2^32] elements, is encoded
    as its length in one word followed by its elements as arguments of
    type [T]; it is read by reading the word and then as many arguments
    of type [T] as the word says. *)
Theorem vector_as_arguments (o : endianness) (t : shape) (l : list (denote t)) :
  vector_slot t = false ->
  Z.of_nat (List.length l) < 2 ^ 32 ->
  (forall S : MessageSerializer.t,
      saveImpl o (TVector t) l S
      = saveImpl o (TTuple (SCons TUInt32 (copies t (List.length l))))
          (Z.of_nat (List.length l), as_args t l) S) /\
  (forall D : MessageDeserializer.t,
      loadImpl o (TVector t) D
      = match loadImpl o TUInt32 D with
        | (Ok length, D1) =>
            match loadImpl o (TTuple (copies t (Z.to_nat length))) D1 with
            | (Ok args, D') => (Ok (of_args t (Z.to_nat length) args), D')
            | (Err e, D') => (Err e, D')
            end
        | (Err e, D1) => (Err e, D1)
        end).
Proof.
  intros Ht Hlen.
  assert (Hsave : saveImpl o (TVector t) = serialize_vector_save (saveImpl o t))
    by (destruct t; try discriminate Ht; reflexivity).
  assert (Hload : loadImpl o (TVector t) = serialize_vector_load (loadImpl o t))
    by (destruct t; try discriminate Ht; reflexivity).
  split.
  - intros S. rewrite Hsave. unfold serialize_vector_save. cbv zeta.
    rewrite to_u32_small by lia. rewrite Nat2Z.id, firstn_all.
    cbn [saveImpl saveImpl_tuple fst snd]. apply fold_left_as_args.
  - intros D. rewrite Hload. unfold serialize_vector_load, bind. cbn [loadImpl].
    destruct (loadImpl_uint32 D) as [[length|e] D1]; [|reflexivity].
    apply load_elems_of_args.
Qed.

Lemma vector_as_arguments_witness :
  (vector_slot TUInt8 = false /\ Z.of_nat (List.length [7; 8; 9]) < 2 ^ 32) /\
  (forall S : MessageSerializer.t,
      saveImpl LittleEndian (TVector TUInt8) [7; 8; 9] S
      = saveImpl LittleEndian (TTuple (SCons TUInt32 (copies TUInt8 (List.length [7; 8; 9]))))
          (Z.of_nat (List.length [7; 8; 9]), as_args TUInt8 [7; 8; 9]) S) /\
  (forall D : MessageDeserializer.t,
      loadImpl LittleEndian (TVector TUInt8) D
      = match loadImpl LittleEndian TUInt32 D with
        | (Ok length, D1) =>
            match loadImpl LittleEndian (TTuple (copies TUInt8 (Z.to_nat length))) D1 with
            | (Ok args, D') => (Ok (of_args TUInt8 (Z.to_nat length) args), D')
            | (Err e, D') => (Err e, D')
            end
        | (Err e, D1) => (Err e, D1)
        end).
Proof.
  split; [split; reflexivity|].
  apply (vector_as_arguments LittleEndian TUInt8 [7; 8; 9]); reflexivity.
Defined.

(** ** Byte order *)

Lemma fold_left_ext {A St : Type} (f g : St -> A -> St) (l : list A) (s0 : St) :
  (forall s a, f s a = g s a) -> fold_left f l s0 = fold_left g l s0.
Proof.
  intros H. revert s0. induction l as [|a l IH]; intros s0; [reflexivity|].
  cbn [fold_left]. now rewrite H, IH.
Qed.

Lemma bind_ext {A B : Type} (c1 c2 : De A) (k1 k2 : A -> De B) (D : MessageDeserializer.t) :
  (forall D, c1 D = c2 D) -> (forall a D, k1 a D = k2 a D) ->
  bind c1 k1 D = bind c2 k2 D.
Proof.
  intros Hc Hk. unfold bind. rewrite Hc.
  destruct (c2 D) as [[a|e] D1]; [apply Hk|reflexivity].
Qed.

Lemma load_elems_ext {A : Type} (ld1 ld2 : De A) (n : nat) (D : MessageDeserializer.t) :
  (forall D, ld1 D = ld2 D) -> load_elems ld1 n D = load_elems ld2 n D.
Proof.
  intros H. revert D. induction n as [|n IH]; intros D; [reflexivity|].
  cbn [load_elems]. apply bind_ext; [exact H|]. intros a D1.
  apply bind_ext; [exact IH|reflexivity].
Qed.

Lemma loadImpl_map_loop_ext {K A : Type} (lt : K -> K -> bool) (ld1 ld2 : De A)
    (keys : list K) (value : list (K * A)) (D : MessageDeserializer.t) :
  (forall D, ld1 D = ld2 D) ->
  loadImpl_map_loop lt ld1 keys value D = loadImpl_map_loop lt ld2 keys value D.
Proof.
  intros H. rewrite !loadImpl_map_loop_elems.
  now rewrite (load_elems_ext ld1 ld2 _ D H).
Qed.

Lemma saveImpl_map_loop_ext {K A : Type} (sv1 sv2 : A -> Ser) (value : list (K * A))
    (S : MessageSerializer.t) :
  (forall a S, sv1 a S = sv2 a S) ->
  saveImpl_map_loop sv1 value S = saveImpl_map_loop sv2 value S.
Proof.
  intros H. rewrite !saveImpl_map_loop_eq. f_equal.
  apply fold_left_ext. intros S' e. apply H.
Qed.

Lemma object_bytes_one (o : endianness) (z : Z) : object_bytes o 1 z = [byte_of_Z z].
Proof. now destruct o. Qed.

Lemma array_of_bytes_one (o : endianness) (n : nat) (bs : list Byte.byte) :
  array_of_bytes o 1 n bs = array_of_bytes LittleEndian 1 n bs.
Proof.
  revert bs. induction n as [|n IH]; intros bs; [reflexivity|].
  cbn [array_of_bytes]. rewrite IH. f_equal.
  destruct o; [reflexivity|]. now destruct bs.
Qed.

Lemma saveImpl_byte_order_free (o1 o2 : endianness) :
  (forall s, byte_order_free s = true ->
             (forall v S, saveImpl o1 s v S = saveImpl o2 s v S) /\
             (forall D, loadImpl o1 s D = loadImpl o2 s D)) /\
  (forall ts, byte_order_free_tuple ts = true ->
              (forall v S, saveImpl_tuple o1 ts v S = saveImpl_tuple o2 ts v S) /\
              (forall D, loadImpl_tuple o1 ts D = loadImpl_tuple o2 ts D)).
Proof.
  apply shape_shapes_ind; try (intros _; split; reflexivity); try discriminate.
  - (* std::vector<T> *) intros t IH Ht. cbn [byte_order_free] in Ht.
    destruct (IH Ht) as [Hs Hl].
    assert (Hsave : forall v S, serialize_vector_save (saveImpl o1 t) v S
                                = serialize_vector_save (saveImpl o2 t) v S).
    { intros v S. unfold serialize_vector_save. apply fold_left_ext.
      intros S' a. apply Hs. }
    assert (Hload : forall D, serialize_vector_load (loadImpl o1 t) D
                              = serialize_vector_load (loadImpl o2 t) D).
    { intros D. unfold serialize_vector_load. apply bind_ext; [reflexivity|].
      intros w D1. now apply load_elems_ext. }
    destruct t; try discriminate Ht; split;
      try exact Hsave; try exact Hload; reflexivity.
  - (* std::array<T, N> *) intros t IH n Ht.
    assert (Helems : byte_order_free t = true ->
                     (forall v S, serialize_array_save (saveImpl o1 t) v S
                                  = serialize_array_save (saveImpl o2 t) v S) /\
                     (forall D, serialize_array_load (loadImpl o1 t) n D
                                = serialize_array_load (loadImpl o2 t) n D)).
    { intros [Hs Hl]%IH. split.
      - intros v S. unfold serialize_array_save. apply fold_left_ext.
        intros S' a. apply Hs.
      - intros D. unfold serialize_array_load. now apply load_elems_ext. }
    destruct t; try discriminate Ht; try exact (Helems Ht).
    split.
    + intros v S. cbn [saveImpl integral]. unfold saveImpl_integral_array, array_bytes.
      do 2 f_equal. f_equal. apply map_ext. intros z. now rewrite !object_bytes_one.
    + intros D. cbn [loadImpl integral]. apply bind_ext; [|reflexivity].
      intros D1. unfold loadImpl_integral_array. cbn [dispenseKey].
      destruct (get_binarydata _ _ _) as [bs|e]; [|reflexivity].
      now rewrite (array_of_bytes_one o1), (array_of_bytes_one o2).
  - (* std::map<std::uint32_t, T> *) intros t IH Ht. destruct (IH Ht) as [Hs Hl]. split.
    + intros v S. cbn [saveImpl]. unfold saveImpl_map_uint32. cbn [dispenseKey].
      now rewrite (saveImpl_map_loop_ext (saveImpl o1 t) (saveImpl o2 t) v _ Hs).
    + intros D. cbn [loadImpl]. unfold loadImpl_map_uint32.
      apply bind_ext; [reflexivity|]. intros keys D1. now apply loadImpl_map_loop_ext.
  - (* std::map<std::string, T> *) intros t IH Ht. destruct (IH Ht) as [Hs Hl]. split.
    + intros v S. cbn [saveImpl]. unfold saveImpl_map_string. cbn [dispenseKey].
      now rewrite (saveImpl_map_loop_ext (saveImpl o1 t) (saveImpl o2 t) v _ Hs).
    + intros D. cbn [loadImpl]. unfold loadImpl_map_string.
      apply bind_ext; [reflexivity|]. intros keys D1. now apply loadImpl_map_loop_ext.
  - intros ts IH. exact IH.
  - intros ts IH. exact IH.
  - intros t IHt ts IHts [Ht Hts]%andb_prop.
    destruct (IHt Ht) as [Hs Hl]. destruct (IHts Hts) as [Hss Hls]. split.
    + intros v S. cbn [saveImpl_tuple]. now rewrite Hs, Hss.
    + intros D. cbn [loadImpl_tuple]. apply bind_ext; [exact Hl|]. intros a D1.
      apply bind_ext; [exact Hls|reflexivity].
Qed.

Lemma last_le_bytes (n : nat) (z : Z) :
  List.last (le_bytes (S n) z) Byte.x00 = byte_of_Z (z / 256 ^ Z.of_nat n).
Proof.
  revert z. induction n as [|n IH]; intros z.
  - cbn [le_bytes List.last]. now rewrite Z.div_1_r.
  - change (le_bytes (S (S n)) z) with (byte_of_Z z :: le_bytes (S n) (z / 256)).
    change (List.last (byte_of_Z z :: le_bytes (S n) (z / 256)) Byte.x00)
      with (List.last (le_bytes (S n) (z / 256)) Byte.x00).
    rewrite IH, Z.div_div by lia.
    now rewrite Nat2Z.inj_succ, Z.pow_succ_r by lia.
Qed.

Lemma le_bytes_not_palindrome (n : nat) :
  le_bytes (S (S n)) 1 <> rev (le_bytes (S (S n)) 1).
Proof.
  intros H. apply (f_equal (fun l => List.last l Byte.x00)) in H.
  rewrite last_le_bytes in H.
  change (le_bytes (S (S n)) 1) with (byte_of_Z 1 :: le_bytes (S n) (1 / 256)) in H.
  cbn [rev] in H. rewrite List.last_last in H.
  rewrite Z.div_small in H; [discriminate H|].
  split; [lia|]. apply Z.pow_gt_1; lia.
Qed.

Lemma integral_array_depends (o : endianness) (size : nat) (S : MessageSerializer.t) :
  (2 <= size)%nat ->
  saveImpl_integral_array o size [1] S <> saveImpl_integral_array (other o) size [1] S.
Proof.
  intros Hsize H. destruct size as [|[|n]]; [lia|lia|].
  apply (f_equal (fun S' => smsg S' !! to_string (_keyIdx (sbase S)))) in H.
  unfold saveImpl_integral_array, set_binarydata in H. cbn [dispenseKey smsg] in H.
  cbn [MessageSerializer.m_wiscMsg] in H. rewrite !lookup_insert_eq in H.
  injection H as H. unfold array_bytes in H. cbn [map concat] in H.
  rewrite !app_nil_r in H.
  destruct o; cbn [other object_bytes] in H;
    [|symmetry in H]; exact (le_bytes_not_palindrome n H).
Qed.

(** X14: the byte order of the host matters only where the bytes of an
    object are moved.  For a shape that holds no [float] and no array of
    integers of more than one byte, a little-endian and a big-endian host
    write the same message and read the same value from a message, so that
    a value that fits, written on the one, is read back on the other.  The
    overload for arrays of integers itself, whatever the integer type,
    writes and reads the same on both hosts when the elements have one
    byte, and writes different bytes when they have more. *)
Theorem byte_order_independent (o1 o2 : endianness) (s : shape) :
  byte_order_free s = true ->
  (forall v S, saveImpl o1 s v S = saveImpl o2 s v S) /\
  (forall D, loadImpl o1 s D = loadImpl o2 s D) /\
  (forall v, fits s v = true -> deserialize o2 s (serialize o1 s v) = Ok v) /\
  (forall value S, saveImpl_integral_array o1 1 value S
                   = saveImpl_integral_array o2 1 value S) /\
  (forall n D, loadImpl_integral_array o1 1 n D = loadImpl_integral_array o2 1 n D) /\
  (forall size S, (2 <= size)%nat ->
                  saveImpl_integral_array o1 size [1] S
                  <> saveImpl_integral_array (other o1) size [1] S).
Proof.
  intros Hs. destruct (proj1 (saveImpl_byte_order_free o1 o2) s Hs) as [Hsave Hload].
  split; [exact Hsave|]. split; [exact Hload|]. split; [|split; [|split]].
  - intros v (Hwf & Hshort & Hn)%fits_spec. unfold deserialize, serialize.
    rewrite <- Hload. now rewrite (proj2 (roundtrip_make o1 s v ∅ Hwf Hshort Hn)).
  - intros value S. unfold saveImpl_integral_array, array_bytes.
    do 2 f_equal. f_equal. apply map_ext. intros z. now rewrite !object_bytes_one.
  - intros n D. unfold loadImpl_integral_array. cbn [dispenseKey].
    destruct (get_binarydata _ _ _) as [bs|e]; [|reflexivity].
    now rewrite (array_of_bytes_one o1), (array_of_bytes_one o2).
  - intros size S. apply integral_array_depends.
Qed.

Lemma byte_order_independent_witness :
  byte_order_free nested_byte_shape = true /\
  (forall v S, saveImpl LittleEndian nested_byte_shape v S
               = saveImpl BigEndian nested_byte_shape v S) /\
  (forall D, loadImpl LittleEndian nested_byte_shape D
             = loadImpl BigEndian nested_byte_shape D) /\
  (forall v, fits nested_byte_shape v = true ->
             deserialize BigEndian nested_byte_shape
               (serialize LittleEndian nested_byte_shape v) = Ok v) /\
  (forall value S, saveImpl_integral_array LittleEndian 1 value S
                   = saveImpl_integral_array BigEndian 1 value S) /\
  (forall n D, loadImpl_integral_array LittleEndian 1 n D
               = loadImpl_integral_array BigEndian 1 n D) /\
  (forall size S, (2 <= size)%nat ->
                  saveImpl_integral_array LittleEndian size [1] S
                  <> saveImpl_integral_array (other LittleEndian) size [1] S).
Proof.
  split; [reflexivity|].
  apply (byte_order_independent LittleEndian BigEndian nested_byte_shape). reflexivity.
Defined.

Lemma object_value_other (o : endianness) (size : nat) (z : Z) :
  object_value (other o) (object_bytes o size z) = swap_bytes size z.
Proof. now destruct o. Qed.

Lemma array_of_bytes_other (o : endianness) (size : nat) (elems : list Z) :
  array_of_bytes (other o) size (List.length elems) (array_bytes o size elems)
  = map (swap_bytes size) elems.
Proof.
  induction elems as [|z elems IH]; [reflexivity|].
  cbn [List.length array_of_bytes map]. unfold array_bytes in *. cbn [map concat].
  rewrite take_app_length' by (symmetry; apply length_object_bytes).
  rewrite drop_app_length' by (symmetry; apply length_object_bytes).
  now rewrite IH, object_value_other.
Qed.

Lemma swap_bytes_one (z : Z) : swap_bytes 1 z = z mod 256.
Proof.
  unfold swap_bytes. cbn [le_bytes rev app le_value]. rewrite Z_of_byte_of_Z. lia.
Qed.

Lemma integral_array_other (o : endianness) (size : nat) (elems : list Z) :
  fst (bind (loadImpl_integral_array (other o) size (List.length elems))
            (fun l => ret (map (fun z => z) l))
         (MessageDeserializer.make
            (smsg (saveImpl_integral_array o size (map (fun z => z) elems)
                     (MessageSerializer.make ∅)))))
  = Ok (map (swap_bytes size) elems).
Proof.
  unfold bind, loadImpl_integral_array, saveImpl_integral_array, ret.
  cbn [dispenseKey MessageSerializer.make MessageDeserializer.make sbase smsg dbase dmsg
       MessageSerializer.base MessageSerializer.m_wiscMsg MessageDeserializer.base
       MessageDeserializer.m_wiscMsg fresh _keyIdx].
  unfold get_binarydata, set_binarydata. rewrite lookup_insert_eq, !List.map_id.
  rewrite decide_True by apply length_array_bytes.
  cbn [fst]. now rewrite array_of_bytes_other, List.map_id.
Qed.

(** X15: an array of integers is sent as the bytes of the array, in the
    byte order of the host.  Read on a host of the other byte order, it
    gives every element with its bytes reversed: an array of
    [std::uint8_t] is read unchanged, an array of [std::uint16_t] or of
    [std::uint32_t] with its elements swapped byte for byte. *)
Theorem integer_array_other_byte_order (o : endianness) (n : nat) (l : list Z) :
  List.length l = n ->
  deserialize (other o) (TArray TUInt8 n) (serialize o (TArray TUInt8 n) l)
  = Ok (map (fun z => z mod 256) l) /\
  deserialize (other o) (TArray TUInt16 n) (serialize o (TArray TUInt16 n) l)
  = Ok (map (swap_bytes 2) l) /\
  deserialize (other o) (TArray TUInt32 n) (serialize o (TArray TUInt32 n) l)
  = Ok (map (swap_bytes 4) l).
Proof.
  intros <-. split; [|split].
  - rewrite <- (map_ext _ _ swap_bytes_one). apply (integral_array_other o 1 l).
  - apply (integral_array_other o 2 l).
  - apply (integral_array_other o 4 l).
Qed.

Lemma integer_array_other_byte_order_witness :
  List.length [1; 258] = 2%nat /\
  deserialize BigEndian (TArray TUInt8 2) (serialize LittleEndian (TArray TUInt8 2) [1; 258])
  = Ok [1; 2] /\
  deserialize BigEndian (TArray TUInt16 2) (serialize LittleEndian (TArray TUInt16 2) [1; 258])
  = Ok [256; 513] /\
  deserialize BigEndian (TArray TUInt32 2) (serialize LittleEndian (TArray TUInt32 2) [1; 258])
  = Ok [16777216; 33619968].
Proof.
  split; [reflexivity|].
  apply (integer_array_other_byte_order LittleEndian 2 [1; 258]). reflexivity.
Defined.

(** ** The key counter over any number of calls *)

(** X16: the key counter is a [std::uint32_t] that is never reset: call
    number [n] on one allocator returns [n] modulo [2^32], so every key
    returned is below [2^32], and the keys repeat with period [2^32]. *)
Theorem dispenseKey_periodic (n : N) :
  nth_key n = Z.of_N n mod 2 ^ 32 /\
  0 <= nth_key n < 2 ^ 32 /\
  nth_key (n + 4294967296) = nth_key n /\
  fst (dispenseKey (snd (dispenseKey (after_calls n)))) = to_u32 (nth_key n + 1).
Proof.
  assert (H : forall i, nth_key i = Z.of_N i mod 2 ^ 32).
  { intros i. unfold nth_key. cbn [dispenseKey fst]. apply after_calls_keyIdx. }
  split; [apply H|]. split; [|split].
  - rewrite H. apply Z.mod_pos_bound. reflexivity.
  - rewrite !H, N2Z.inj_add.
    change (Z.of_N 4294967296) with (1 * 2 ^ 32). apply Z.mod_add. discriminate.
  - reflexivity.
Qed.

(** ** Distinct values, distinct messages *)

(** X17: two different values of one shape that fit a message are never
    serialized to the same message. *)
Theorem serialize_distinct (o : endianness) (s : shape) (v1 v2 : denote s) :
  fits s v1 = true -> fits s v2 = true -> v1 <> v2 ->
  serialize o s v1 <> serialize o s v2.
Proof.
  intros (Hwf1 & Hshort1 & Hn1)%fits_spec (Hwf2 & Hshort2 & Hn2)%fits_spec Hne Heq.
  pose proof (proj2 (roundtrip_make o s v1 ∅ Hwf1 Hshort1 Hn1)) as H1.
  pose proof (proj2 (roundtrip_make o s v2 ∅ Hwf2 Hshort2 Hn2)) as H2.
  cbv zeta in H1, H2. fold (serialize o s v1) in H1. fold (serialize o s v2) in H2.
  rewrite Heq, H2 in H1. apply Hne. now injection H1 as ->.
Qed.

Lemma serialize_distinct_witness :
  (fits (TVector TUInt8) [1; 2] = true /\
   fits (TVector TUInt8) [1] = true /\
   ([1; 2] : denote (TVector TUInt8)) <> [1]) /\
  serialize LittleEndian (TVector TUInt8) [1; 2]
  <> serialize LittleEndian (TVector TUInt8) [1].
Proof.
  split; [split; [reflexivity|split; [reflexivity|discriminate]]|].
  apply (serialize_distinct LittleEndian (TVector TUInt8) [1; 2] [1]);
    [reflexivity|reflexivity|discriminate].
Defined.

(** ** Definitions that do not match the message *)




(** ** Loading in place and loading a value *)

Lemma returned_assign {A : Type} (get : string -> RPCMsg -> res A) (value : A)
    (D : MessageDeserializer.t) :
  returned (InPlace.assign get value D)
  = (let (key, b) := dispenseKey (dbase D) in
     (get (to_string key) (dmsg D), MessageDeserializer.mk b (dmsg D))).
Proof.
  unfold InPlace.assign. cbn [dispenseKey].
  now destruct (get _ _) as [a|e].
Qed.

Lemma returned_load_as {A : Type} (conv : Z -> A) (value : A) (D : MessageDeserializer.t) :
  returned (InPlace.load_as conv value D)
  = (let* tmp := loadImpl_uint32 in ret (conv tmp)) D.
Proof.
  unfold InPlace.load_as, bind, ret.
  pose proof (returned_assign get_word 0 D) as H.
  fold InPlace.loadImpl_uint32 in H. fold (loadImpl_uint32 D) in H. rewrite <- H.
  now destruct (InPlace.loadImpl_uint32 0 D) as [[[e|] tmp] D'].
Qed.

Lemma returned_load_elems {A : Type} (P : A -> Prop) (ld : InPlace.Ld A) (ldf : De A)
    (value : list A) (D : MessageDeserializer.t) :
  (forall a D, P a -> returned (ld a D) = ldf D) ->
  Forall P value ->
  returned (InPlace.load_elems ld value D) = load_elems ldf (List.length value) D.
Proof.
  intros H Hv. revert D. induction Hv as [|elem rest He _ IH]; intros D; [reflexivity|].
  cbn [InPlace.load_elems List.length load_elems]. unfold bind, ret.
  rewrite <- (H elem D He).
  destruct (ld elem D) as [[[e|] elem'] D1]; [reflexivity|].
  cbn [returned]. rewrite <- IH.
  now destruct (InPlace.load_elems ld rest D1) as [[[e|] rest'] D2].
Qed.

Lemma returned_map_loop {K A : Type} (lt : K -> K -> bool) (init : A) (ld : InPlace.Ld A)
    (ldf : De A) (keys : list K) (value : list (K * A)) (D : MessageDeserializer.t) :
  (forall D, returned (ld init D) = ldf D) ->
  returned (InPlace.loadImpl_map_loop lt init ld keys value D)
  = loadImpl_map_loop lt ldf keys value D.
Proof.
  intros H. revert value D. induction keys as [|key keys IH]; intros value D; [reflexivity|].
  cbn [InPlace.loadImpl_map_loop loadImpl_map_loop]. unfold bind. rewrite <- (H D).
  destruct (ld init D) as [[[e|] val] D1]; [reflexivity|]. cbn [returned]. apply IH.
Qed.

Lemma clean_value_init :
  (forall s, clean s (value_init s) = true) /\
  (forall ts, clean_tuple ts (value_init_tuple ts) = true).
Proof.
  apply shape_shapes_ind; try reflexivity.
  - intros t IH n. cbn [clean value_init]. rewrite repeat_length, Nat.eqb_refl.
    cbn [andb]. apply forallb_forall. intros x Hx. apply repeat_spec in Hx. now subst x.
  - intros ts IH. exact IH.
  - intros ts IH. exact IH.
  - intros t IHt ts IHts. cbn [clean_tuple value_init_tuple fst snd]. now rewrite IHt, IHts.
Qed.

Lemma loadImpl_clean (o : endianness) :
  (forall s h D, clean s h = true -> returned (InPlace.loadImpl o s h D) = loadImpl o s D) /\
  (forall ts h D, clean_tuple ts h = true ->
                  returned (InPlace.loadImpl_tuple o ts h D) = loadImpl_tuple o ts D).
Proof.
  apply shape_shapes_ind.
  - intros h D _. apply (returned_assign get_word).
  - intros h D _. apply returned_load_as.
  - intros h D _. apply returned_load_as.
  - intros h D _. apply returned_load_as.
  - intros h D _. apply returned_load_as.
  - intros h D _. apply (returned_assign get_string).
  - (* std::vector<T> *) intros t IH h D Hc. cbn [clean] in Hc.
    assert (Helems : returned (InPlace.serialize_vector (value_init t) (InPlace.loadImpl o t) h D)
                     = serialize_vector_load (loadImpl o t) D).
    { unfold InPlace.serialize_vector, serialize_vector_load, bind.
      pose proof (returned_assign get_word (to_u32 (Z.of_nat (List.length h))) D) as H.
      fold InPlace.loadImpl_uint32 in H. fold (loadImpl_uint32 D) in H. rewrite <- H.
      destruct (InPlace.loadImpl_uint32 _ D) as [[[e|] length] D1]; [reflexivity|].
      cbn [returned].
      rewrite (returned_load_elems (fun a => clean t a = true) _ (loadImpl o t)).
      - now rewrite length_resize.
      - intros a D' Ha. now apply IH.
      - apply Forall_resize; [apply (proj1 clean_value_init)|].
        apply Forall_forall. intros x Hx.
        apply (proj1 (forallb_forall _ _) Hc). now apply list_elem_of_In. }
    destruct t; try exact Helems.
    + apply (returned_assign get_word_array).
    + apply (returned_assign get_string_array).
  - (* std::array<T, N> *) intros t IH n h D [Hlen Hc]%andb_prop.
    apply Nat.eqb_eq in Hlen.
    assert (Helems : returned (InPlace.serialize_array (InPlace.loadImpl o t) h D)
                     = serialize_array_load (loadImpl o t) n D).
    { unfold InPlace.serialize_array, serialize_array_load. rewrite <- Hlen.
      apply (returned_load_elems (fun a => clean t a = true)).
      - intros a D' Ha. now apply IH.
      - apply Forall_forall. intros x Hx.
        apply (proj1 (forallb_forall _ _) Hc). now apply list_elem_of_In. }
    destruct t; try exact Helems;
      cbn [InPlace.loadImpl loadImpl integral]; unfold InPlace.loadImpl_integral_array, bind, ret;
      match goal with
      | |- context [InPlace.assign ?get ?v D] =>
          pose proof (returned_assign get v D) as H;
          destruct (InPlace.assign get v D) as [[[e|] elems] D1]
      end; cbn [returned] in *; unfold loadImpl_integral_array; rewrite <- H; reflexivity.
  - (* std::map<std::uint32_t, T> *) intros t IH h D Hc. cbn [clean] in Hc.
    destruct h as [|? ?]; [|discriminate Hc].
    cbn [InPlace.loadImpl loadImpl].
    unfold InPlace.loadImpl_map_uint32, loadImpl_map_uint32, bind.
    pose proof (returned_assign get_word_array [] D) as H.
    fold InPlace.loadImpl_word_array in H. fold (loadImpl_word_array D) in H. rewrite <- H.
    destruct (InPlace.loadImpl_word_array [] D) as [[[e|] keys] D1]; [reflexivity|].
    cbn [returned]. apply returned_map_loop. intros D'. apply IH, (proj1 clean_value_init).
  - (* std::map<std::string, T> *) intros t IH h D Hc. cbn [clean] in Hc.
    destruct h as [|? ?]; [|discriminate Hc].
    cbn [InPlace.loadImpl loadImpl].
    unfold InPlace.loadImpl_map_string, loadImpl_map_string, bind.
    pose proof (returned_assign get_string_array [] D) as H.
    fold InPlace.loadImpl_string_array in H. fold (loadImpl_string_array D) in H.
    rewrite <- H.
    destruct (InPlace.loadImpl_string_array [] D) as [[[e|] keys] D1]; [reflexivity|].
    cbn [returned]. apply returned_map_loop. intros D'. apply IH, (proj1 clean_value_init).
  - intros ts IH. exact IH.
  - intros ts IH. exact IH.
  - intros [] D _. reflexivity.
  - intros t IHt ts IHts h D [Ht Hts]%andb_prop.
    cbn [InPlace.loadImpl_tuple loadImpl_tuple]. unfold bind, ret.
    rewrite <- (IHt (fst h) D Ht).
    destruct (InPlace.loadImpl o t (fst h) D) as [[[e|] arg] D1]; [reflexivity|].
    cbn [returned]. rewrite <- (IHts (snd h) D1 Hts).
    now destruct (InPlace.loadImpl_tuple o ts (snd h) D1) as [[[e|] rest] D2].
Qed.

(** ** A load that throws *)

Lemma loadImpl_tuple_filled (o : endianness) (ts : shapes) (args : denotes ts)
    (D : MessageDeserializer.t) :
  match InPlace.loadImpl_tuple o ts args D with
  | (None, args', D') => args_filled o ts args args' D D'
  | (Some e, args', D') => args_filled_until o ts e args args' D D'
  end.
Proof.
  revert args D. induction ts as [|t ts IH]; intros args D; [reflexivity|].
  cbn [InPlace.loadImpl_tuple args_filled args_filled_until].
  destruct (InPlace.loadImpl o t (fst args) D) as [[[e|] arg] D1] eqn:Ht.
  - left. now split.
  - specialize (IH (snd args) D1).
    destruct (InPlace.loadImpl_tuple o ts (snd args) D1) as [[[e|] rest] D2]; cbn [fst snd].
    + right. exists D1. now split.
    + exists D1. now split.
Qed.

Lemma load_elems_filled {A : Type} (ld : InPlace.Ld A) (value : list A)
    (D : MessageDeserializer.t) :
  match InPlace.load_elems ld value D with
  | (None, value', D') => elems_filled ld value value' D D'
  | (Some e, value', D') => elems_filled_until ld e value value' D D'
  end.
Proof.
  revert D. induction value as [|elem rest IH]; intros D; [reflexivity|].
  cbn [InPlace.load_elems].
  destruct (ld elem D) as [[[e|] elem'] D1] eqn:He.
  - exists [], [], elem, elem', rest, D. now repeat split.
  - specialize (IH D1).
    destruct (InPlace.load_elems ld rest D1) as [[[e|] rest'] D2].
    + destruct IH as (olds & news & old & new & tl & D3 & -> & -> & Hf & Hl).
      exists (elem :: olds), (elem' :: news), old, new, tl, D3.
      repeat split; try assumption. exists D1. now split.
    + exists D1. now split.
Qed.

Lemma loadImpl_map_loop_filled {K A : Type} (lt : K -> K -> bool) (init : A)
    (ld : InPlace.Ld A) (keys : list K) (value : list (K * A)) (D : MessageDeserializer.t) :
  match InPlace.loadImpl_map_loop lt init ld keys value D with
  | (None, value', D') => entries_loaded lt init ld keys value value' D D'
  | (Some e, value', D') => entries_loaded_until lt init ld e keys value value' D D'
  end.
Proof.
  revert value D. induction keys as [|key keys IH]; intros value D.
  - exists []. now repeat split.
  - cbn [InPlace.loadImpl_map_loop].
    destruct (ld init D) as [[[e|] val] D1] eqn:Hv.
    + exists [], D, val. repeat split; [cbn; lia|exact Hv].
    + specialize (IH (emplace lt key val value) D1).
      destruct (InPlace.loadImpl_map_loop lt init ld keys (emplace lt key val value) D1)
        as [[[e|] value'] D2].
      * destruct IH as (vals & D3 & val' & Hlen & Hl & Hf & ->).
        exists (val :: vals), D3, val'.
        split; [cbn; lia|]. split; [exists D1; now split|]. now split.
      * destruct IH as (vals & Hlen & Hl & ->).
        exists (val :: vals). split; [cbn; now rewrite Hlen|].
        split; [exists D1; now split|reflexivity].
Qed.

Lemma loadImpl_tuple_fails_at (o : endianness) (ts1 : shapes) (t : shape) (ts2 : shapes)
    (h1 a1 : denotes ts1) (h h' : denote t) (h2 : denotes ts2)
    (D D1 D' : MessageDeserializer.t) (e : error) :
  InPlace.loadImpl_tuple o ts1 h1 D = (None, a1, D1) ->
  InPlace.loadImpl o t h D1 = (Some e, h', D') ->
  InPlace.loadImpl_tuple o (sapp ts1 (SCons t ts2)) (vapp ts1 (SCons t ts2) h1 (h, h2)) D
  = (Some e, vapp ts1 (SCons t ts2) a1 (h', h2), D').
Proof.
  revert h1 a1 D. induction ts1 as [|t1 ts1 IH]; intros h1 a1 D H1 Ht.
  - cbn [InPlace.loadImpl_tuple] in H1. injection H1 as _ <-.
    cbn [sapp vapp InPlace.loadImpl_tuple fst snd]. now rewrite Ht.
  - cbn [InPlace.loadImpl_tuple] in H1. cbn [sapp vapp InPlace.loadImpl_tuple fst snd].
    destruct (InPlace.loadImpl o t1 (fst h1) D) as [[[e1|] arg] D2]; [discriminate H1|].
    destruct (InPlace.loadImpl_tuple o ts1 (snd h1) D2) as [[[e1|] rest] D3] eqn:E;
      [discriminate H1|].
    injection H1 as <- <-. cbn [fst snd]. now rewrite (IH (snd h1) rest D2 E Ht).
Qed.

(** C9 (as amended): a load either loads every value, in order, and
    returns, or stops at the first load that throws and throws its
    exception.  It fills the object of the caller in place: after an
    exception a tuple has its first arguments loaded and the others as
    they were, a map has the entries of the first keys and a vector its
    first elements.  A caller that passes a newly constructed object and
    drops it on an exception gets every value or the exception alone. *)
Theorem load_stops_at_first_failure (o : endianness) :
  (forall (ts : shapes) (args : denotes ts) (D : MessageDeserializer.t),
      match InPlace.loadImpl o (TTuple ts) args D with
      | (None, args', D') => args_filled o ts args args' D D'
      | (Some e, args', D') => args_filled_until o ts e args args' D D'
      end) /\
  (forall (ts1 : shapes) (t : shape) (ts2 : shapes) (h1 a1 : denotes ts1)
          (h h' : denote t) (h2 : denotes ts2) (D D1 D' : MessageDeserializer.t) (e : error),
      InPlace.loadImpl o (TTuple ts1) h1 D = (None, a1, D1) ->
      InPlace.loadImpl o t h D1 = (Some e, h', D') ->
      InPlace.loadImpl o (TTuple (sapp ts1 (SCons t ts2)))
        (vapp ts1 (SCons t ts2) h1 (h, h2)) D
      = (Some e, vapp ts1 (SCons t ts2) a1 (h', h2), D')) /\
  (forall (t : shape) (value : denote (TMapU32 t)) (D : MessageDeserializer.t),
      match InPlace.loadImpl o (TMapU32 t) value D with
      | (None, value', D') =>
          exists keys,
            get_word_array (to_string (_keyIdx (dbase D))) (dmsg D) = Ok keys /\
            entries_loaded Z.ltb (value_init t) (InPlace.loadImpl o t) keys value value'
              (after_one_key D) D'
      | (Some e, value', D') =>
          (get_word_array (to_string (_keyIdx (dbase D))) (dmsg D) = Err e /\
           value' = value /\ D' = after_one_key D) \/
          exists keys,
            get_word_array (to_string (_keyIdx (dbase D))) (dmsg D) = Ok keys /\
            entries_loaded_until Z.ltb (value_init t) (InPlace.loadImpl o t) e keys
              value value' (after_one_key D) D'
      end) /\
  (forall (t : shape) (value : denote (TMapString t)) (D : MessageDeserializer.t),
      match InPlace.loadImpl o (TMapString t) value D with
      | (None, value', D') =>
          exists keys,
            get_string_array (to_string (_keyIdx (dbase D))) (dmsg D) = Ok keys /\
            entries_loaded String.ltb (value_init t) (InPlace.loadImpl o t) keys value value'
              (after_one_key D) D'
      | (Some e, value', D') =>
          (get_string_array (to_string (_keyIdx (dbase D))) (dmsg D) = Err e /\
           value' = value /\ D' = after_one_key D) \/
          exists keys,
            get_string_array (to_string (_keyIdx (dbase D))) (dmsg D) = Ok keys /\
            entries_loaded_until String.ltb (value_init t) (InPlace.loadImpl o t) e keys
              value value' (after_one_key D) D'
      end) /\
  (forall {A : Type} (init : A) (ld : InPlace.Ld A) (value : list A)
          (D : MessageDeserializer.t),
      match InPlace.serialize_vector init ld value D with
      | (None, value', D') =>
          exists length,
            get_word (to_string (_keyIdx (dbase D))) (dmsg D) = Ok length /\
            elems_filled ld (resize (Z.to_nat length) init value) value' (after_one_key D) D'
      | (Some e, value', D') =>
          (get_word (to_string (_keyIdx (dbase D))) (dmsg D) = Err e /\
           value' = value /\ D' = after_one_key D) \/
          exists length,
            get_word (to_string (_keyIdx (dbase D))) (dmsg D) = Ok length /\
            elems_filled_until ld e (resize (Z.to_nat length) init value) value'
              (after_one_key D) D'
      end) /\
  (forall (s : shape) (value : denote s) (D : MessageDeserializer.t),
      clean s value = true ->
      returned (InPlace.loadImpl o s value D) = loadImpl o s D).
Proof.
  split; [|split; [|split; [|split; [|split]]]].
  - intros ts args D. apply loadImpl_tuple_filled.
  - intros ts1 t ts2 h1 a1 h h' h2 D D1 D' e. apply loadImpl_tuple_fails_at.
  - intros t value D. cbn [InPlace.loadImpl].
    unfold InPlace.loadImpl_map_uint32, InPlace.loadImpl_word_array, InPlace.assign.
    cbn [dispenseKey]. fold (dispenseKey (dbase D)). fold (after_one_key D).
    destruct (get_word_array _ _) as [keys|e]; [|left; now repeat split].
    pose proof (loadImpl_map_loop_filled Z.ltb (value_init t) (InPlace.loadImpl o t)
                  keys value (after_one_key D)) as H.
    destruct (InPlace.loadImpl_map_loop _ _ _ _ _ _) as [[[e|] value'] D'].
    + right. now exists keys.
    + now exists keys.
  - intros t value D. cbn [InPlace.loadImpl].
    unfold InPlace.loadImpl_map_string, InPlace.loadImpl_string_array, InPlace.assign.
    cbn [dispenseKey]. fold (dispenseKey (dbase D)). fold (after_one_key D).
    destruct (get_string_array _ _) as [keys|e]; [|left; now repeat split].
    pose proof (loadImpl_map_loop_filled String.ltb (value_init t) (InPlace.loadImpl o t)
                  keys value (after_one_key D)) as H.
    destruct (InPlace.loadImpl_map_loop _ _ _ _ _ _) as [[[e|] value'] D'].
    + right. now exists keys.
    + now exists keys.
  - intros A init ld value D.
    unfold InPlace.serialize_vector, InPlace.loadImpl_uint32, InPlace.assign.
    cbn [dispenseKey]. fold (dispenseKey (dbase D)). fold (after_one_key D).
    destruct (get_word _ _) as [length|e]; [|left; now repeat split].
    pose proof (load_elems_filled ld (resize (Z.to_nat length) init value)
                  (after_one_key D)) as H.
    destruct (InPlace.load_elems _ _ _) as [[[e|] value'] D'].
    + right. now exists length.
    + now exists length.
  - intros s value D. apply (proj1 (loadImpl_clean o)).
Qed.

(** C9 (as stated) fails: a load that throws leaves the object of the
    caller partly filled.  A tuple of two words loaded from a message that
    has the first word only ends with [MissingKey] and the first argument
    written; a map whose second value is missing ends with [MissingKey] and
    the first entry in the map; a vector of two elements whose second
    element is missing ends with [MissingKey], resized and with its first
    element written. *)
Lemma holder_partly_filled :
  InPlace.loadImpl LittleEndian (TTuple (SCons TUInt32 (SCons TUInt32 SNil))) (7, (9, tt))
    (MessageDeserializer.make {[to_string 0 := Word 42]})
  = (Some MissingKey, (42, (9, tt)),
     MessageDeserializer.mk (mkBase 2 [0; 1]) {[to_string 0 := Word 42]}) /\
  InPlace.loadImpl LittleEndian (TMapU32 TUInt32) []
    (MessageDeserializer.make
       (<[to_string 0 := WordArray [1; 2]]> {[to_string 1 := Word 10]}))
  = (Some MissingKey, [(1, 10)],
     MessageDeserializer.mk (mkBase 3 [0; 1; 2])
       (<[to_string 0 := WordArray [1; 2]]> {[to_string 1 := Word 10]})) /\
  InPlace.loadImpl LittleEndian (TVector TUInt8) []
    (MessageDeserializer.make (<[to_string 0 := Word 2]> {[to_string 1 := Word 1]}))
  = (Some MissingKey, [1; 0],
     MessageDeserializer.mk (mkBase 3 [0; 1; 2])
       (<[to_string 0 := Word 2]> {[to_string 1 := Word 1]})).
Proof. repeat split; vm_compute; reflexivity. Qed.

(** ** Maps read from a message *)

Lemma entries_loaded_first_value {K A : Type} `{EqDecision K} (lt : K -> K -> bool)
    (init : A) (ld : InPlace.Ld A) (keys : list K) (value value' : list (K * A))
    (D D' : MessageDeserializer.t) :
  (forall a, lt a a = false) ->
  (forall a b c, lt a b = true -> lt b c = true -> lt a c = true) ->
  (forall a b, lt a b = false -> lt b a = false -> a = b) ->
  increasing lt (map fst value) = true ->
  entries_loaded lt init ld keys value value' D D' ->
  exists vals,
    List.length vals = List.length keys /\
    vals_loaded init ld vals D D' /\
    increasing lt (map fst value') = true /\
    forall key, first_value key value'
                = match first_value key value with
                  | Some v => Some v
                  | None => first_value key (zip keys vals)
                  end.
Proof.
  intros Hirr Htrans Htot Hinc (vals & Hlen & Hl & ->). exists vals.
  split; [exact Hlen|]. split; [exact Hl|]. split.
  - now apply emplace_all_increasing.
  - intros key. now apply first_value_emplace_all.
Qed.

(** X9: a map read from a message.  The map of the caller is not cleared.
    The keys come from one slot and a value is read for every one of
    them, in order, also for a key that is in the map already or that
    occurs a second time.  The map keeps its keys in strictly increasing
    order; an entry that the caller had stays as it was, and a new key
    gets the value read for its first occurrence (a value for a key that
    the map has is read and dropped). *)
Theorem loaded_map_first_wins (o : endianness) (t : shape) :
  (forall (value value' : denote (TMapU32 t)) (D D' : MessageDeserializer.t),
      increasing Z.ltb (map fst value) = true ->
      InPlace.loadImpl o (TMapU32 t) value D = (None, value', D') ->
      exists keys vals,
        dmsg D !! to_string (_keyIdx (dbase D)) = Some (WordArray keys) /\
        List.length vals = List.length keys /\
        vals_loaded (value_init t) (InPlace.loadImpl o t) vals (after_one_key D) D' /\
        increasing Z.ltb (map fst value') = true /\
        forall key, first_value key value'
                    = match first_value key value with
                      | Some v => Some v
                      | None => first_value key (zip keys vals)
                      end) /\
  (forall (value value' : denote (TMapString t)) (D D' : MessageDeserializer.t),
      increasing String.ltb (map fst value) = true ->
      InPlace.loadImpl o (TMapString t) value D = (None, value', D') ->
      exists keys vals,
        dmsg D !! to_string (_keyIdx (dbase D)) = Some (TextArray keys) /\
        List.length vals = List.length keys /\
        vals_loaded (value_init t) (InPlace.loadImpl o t) vals (after_one_key D) D' /\
        increasing String.ltb (map fst value') = true /\
        forall key, first_value key value'
                    = match first_value key value with
                      | Some v => Some v
                      | None => first_value key (zip keys vals)
                      end).
Proof.
  split; intros value value' D D' Hinc; cbn [InPlace.loadImpl denote].
  - unfold InPlace.loadImpl_map_uint32, InPlace.loadImpl_word_array, InPlace.assign,
      get_word_array.
    cbn [dispenseKey]. fold (dispenseKey (dbase D)). fold (after_one_key D).
    destruct (dmsg D !! to_string (_keyIdx (dbase D))) as [[w|keys|x|xs|bs]|];
      try discriminate.
    intros Hl. exists keys.
    pose proof (loadImpl_map_loop_filled Z.ltb (value_init t) (InPlace.loadImpl o t)
                  keys value (after_one_key D)) as H.
    unfold after_one_key in H. cbn [dispenseKey snd] in H. rewrite Hl in H.
    destruct (entries_loaded_first_value Z.ltb _ _ keys value value' _ D'
                Z.ltb_irrefl ltac:(lia) ltac:(lia) Hinc H) as (vals & Hv).
    exists vals. now split.
  - unfold InPlace.loadImpl_map_string, InPlace.loadImpl_string_array, InPlace.assign,
      get_string_array.
    cbn [dispenseKey]. fold (dispenseKey (dbase D)). fold (after_one_key D).
    destruct (dmsg D !! to_string (_keyIdx (dbase D))) as [[w|ws|x|keys|bs]|];
      try discriminate.
    intros Hl. exists keys.
    pose proof (loadImpl_map_loop_filled String.ltb (value_init t) (InPlace.loadImpl o t)
                  keys value (after_one_key D)) as H.
    unfold after_one_key in H. cbn [dispenseKey snd] in H. rewrite Hl in H.
    destruct (entries_loaded_first_value String.ltb _ _ keys value value' _ D'
                String_ltb_irrefl String_ltb_trans String_ltb_total Hinc H) as (vals & Hv).
    exists vals. now split.
Qed.

Lemma loaded_map_first_wins_witness :
  (increasing Z.ltb (map fst [(3, 99)]) = true /\
   InPlace.loadImpl LittleEndian (TMapU32 TUInt32) [(3, 99)]
     (MessageDeserializer.make repeated_key_msg)
   = (None, [(3, 99); (5, 10)],
      MessageDeserializer.mk (mkBase 4 [0; 1; 2; 3]) repeated_key_msg)) /\
  exists keys vals,
    dmsg (MessageDeserializer.make repeated_key_msg)
      !! to_string (_keyIdx (dbase (MessageDeserializer.make repeated_key_msg)))
    = Some (WordArray keys) /\
    List.length vals = List.length keys /\
    vals_loaded (value_init TUInt32) (InPlace.loadImpl LittleEndian TUInt32) vals
      (after_one_key (MessageDeserializer.make repeated_key_msg))
      (MessageDeserializer.mk (mkBase 4 [0; 1; 2; 3]) repeated_key_msg) /\
    increasing Z.ltb (map fst [(3, 99); (5, 10)]) = true /\
    forall key, first_value key [(3, 99); (5, 10)]
                = match first_value key [(3, 99)] with
                  | Some v => Some v
                  | None => first_value key (zip keys vals)
                  end.
Proof.
  split; [split; vm_compute; reflexivity|].
  apply (proj1 (loaded_map_first_wins LittleEndian TUInt32)
           [(3, 99)] [(3, 99); (5, 10)]
           (MessageDeserializer.make repeated_key_msg)
           (MessageDeserializer.mk (mkBase 4 [0; 1; 2; 3]) repeated_key_msg));
    vm_compute; reflexivity.
Defined.
